(** * Verification of the note converter and the contact scraper

    Shallow embedding of [src/parseGoogleKeepExportToMd.ts] and
    [src/recruiterContactScraping.ts].

    JavaScript values read from JSON are an inductive type; objects are the
    list of their own properties in enumeration order; strings are byte
    strings; thrown exceptions are the left summand of a sum type; console
    output, file writes and pacing delays are recorded in explicit state.
    What the runtime and the packages supply ([localeCompare],
    [toLowerCase], the [phone] package, the profile service, the file
    system) is a parameter of the functions that use it. *)

From Stdlib Require Import Ascii String DecimalString ZArith.
From Stdlib Require DecimalN.
From stdpp Require Import base option list strings gmap sorting lexico.

Set Warnings "-register-all,-clear-no-such-hyp".

Open Scope string_scope.
Open Scope list_scope.

(** ** JavaScript values *)

(** A value produced by [JSON.parse]. Numbers are integers here: none of the
    modelled functions inspects the fraction of a number; [JNum n] is the
    Number that the integer literal [n] is read as. The field list of
    [JObj] is the sequence of own properties in the order [Object.keys]
    enumerates them, every key occurring once. *)
Inductive value : Type :=
  | JNull
  | JBool (b : bool)
  | JNum (n : Z)
  | JStr (s : string)
  | JArr (elems : list value)
  | JObj (fields : list (string * value)).

(** [typeof v === "object" && v !== null] *)
Definition is_object (v : value) : bool :=
  match v with
  | JArr _ | JObj _ => true
  | _ => false
  end.

(** JavaScript truthiness of a parsed value. *)
Definition truthy (v : value) : bool :=
  match v with
  | JNull => false
  | JBool b => b
  | JNum n => negb (n =? 0)%Z
  | JStr s => negb (String.eqb s "")
  | JArr _ | JObj _ => true
  end.

(** Truthiness of a string that may be [undefined]. *)
Definition truthy_str (s : option string) : bool :=
  match s with
  | None => false
  | Some s => negb (String.eqb s "")
  end.

(** Decimal rendering of an array index or of a counter. *)
Definition string_of_N (n : N) : string :=
  NilZero.string_of_uint (N.to_uint n).

Definition string_of_nat (n : nat) : string := string_of_N (N.of_nat n).

(** [Array.prototype.includes] on a list of strings. *)
Definition includes (l : list string) (s : string) : bool :=
  existsb (String.eqb s) l.

(** ** Configuration constants of the note converter *)

Record Config : Type := {
  dryRun : bool;
  testOneNote : bool;
  shouldDeleteOriginalNotes : bool;
  propertiesToIgnore : list string;
  orderedProperties : list string;
  noteInputDir : string;
  noteOutputDir : string
}.

(** The values the script ships with; [stamp] is the text of [Date.now()]. *)
Definition sourceConfig (stamp : string) : Config := {|
  dryRun := false;
  testOneNote := false;
  shouldDeleteOriginalNotes := false;
  propertiesToIgnore :=
    ["color"; "isTrashed"; "isPinned"; "isArchived"; "textContent";
     "textContentHtml"];
  orderedProperties :=
    ["title"; "createdTimestampUsec"; "userEditedTimestampUsec"];
  noteInputDir := "/home/ari/downloads/Keep";
  noteOutputDir :=
    "./private-data/outputs/parseGoogleKeepExportToMd-" +:+ stamp
|}.

(** ** Flattening: [recursivelyGetProperties] *)

(** One element of the metadata set: the object [{ [currentPath]: value }].
    Every element is a fresh object, so the [Set] never merges two of them
    and keeps them in insertion order: it is a list. *)
Definition entry : Type := string * value.

(** [propertyName ? `${propertyName}.${property}` : property] *)
Definition currentPath (propertyName : option string) (property : string)
  : string :=
  match propertyName with
  | Some p => if truthy_str (Some p) then p +:+ "." +:+ property else property
  | None => property
  end.

Section Flatten.
Context (cfg : Config).

(** Body of the [for] loop of [recursivelyGetProperties] for one
    [property] of [inputObj] and its [value]; [recurse] is the function
    itself. An array satisfies [typeof value === "object"], so it takes
    the recursive branch like any other object. *)
Definition visitProperty
    (recurse : value → list entry → option string → list entry)
    (propertyName : option string) (property : string) (value : value)
    (accProperties : list entry) : list entry :=
  if includes (propertiesToIgnore cfg) property then accProperties
  else
    if is_object value then
      recurse value accProperties (Some (currentPath propertyName property))
    else accProperties ++ [(currentPath propertyName property, value)].

(** The loop runs over [Object.keys(inputObj)] and reads
    [inputObj[property]]: for an object these are its fields in order, for
    an array the indices "0", "1", ... with the elements. The type of
    [inputObj] excludes the remaining values. *)
Fixpoint recursivelyGetProperties (inputObj : value)
    (accProperties : list entry) (propertyName : option string)
    {struct inputObj} : list entry :=
  match inputObj with
  | JObj fields =>
      (fix loop (fs : list (string * value)) (acc : list entry)
         {struct fs} : list entry :=
         match fs with
         | [] => acc
         | (property, value) :: rest =>
             loop rest
               (visitProperty recursivelyGetProperties propertyName
                  property value acc)
         end) fields accProperties
  | JArr elems =>
      (fix loop (i : nat) (es : list value) (acc : list entry)
         {struct es} : list entry :=
         match es with
         | [] => acc
         | value :: rest =>
             loop (S i) rest
               (visitProperty recursivelyGetProperties propertyName
                  (string_of_nat i) value acc)
         end) 0 elems accProperties
  | _ => accProperties
  end.

End Flatten.

(** ** String comparison: [localeCompare] with [numeric] and base sensitivity *)

(** [String.prototype.localeCompare] is a built-in whose answer depends on
    the collation data of the runtime: the functions below that call it
    take it as a parameter. The language requires of it that it be a
    consistent comparison function, one that defines a total preorder on
    all strings; this is all that the general statements assume. *)
Record Consistent (compare : string → string → Z) : Prop := {
  compare_flip : ∀ a b, (compare a b < 0)%Z ↔ (0 < compare b a)%Z;
  compare_trans : ∀ a b c,
    (compare a b <= 0)%Z → (compare b c <= 0)%Z → (compare a c <= 0)%Z
}.

(** A collation for the examples. On ASCII text whose runs of digits are
    short it answers as the root collation does with [numeric: true] and
    [sensitivity: "base"]: white space, punctuation and symbols come first
    in their collation order, then numbers, then letters; upper and lower
    case are the same letter; a maximal run of digits is one number
    compared by value. Other control characters are ignored. It is not
    the collation of the runtime on other text. *)
Module Collation.

(** Collation order of the ASCII characters that are neither digits nor
    letters, by character code: tab, line feed, vertical tab, form feed,
    carriage return, space, then
    _ - , ; : ! ? . ' quote ( ) [ ] { } @ * / \ & # % ` ^ + < = > | ~ $ *)
Definition symbolOrder : list N :=
  [9; 10; 11; 12; 13; 32; 95; 45; 44; 59; 58; 33; 63; 46; 39; 34; 40; 41;
   91; 93; 123; 125; 64; 42; 47; 92; 38; 35; 37; 96; 94; 43; 60; 61; 62;
   124; 126; 36]%N.

Fixpoint indexOf (c : N) (l : list N) (i : N) : option N :=
  match l with
  | [] => None
  | x :: l' => if (x =? c)%N then Some i else indexOf c l' (N.succ i)
  end.

Definition digitValue (c : ascii) : option N :=
  let n := N_of_ascii c in
  if (48 <=? n)%N && (n <=? 57)%N then Some (n - 48)%N else None.

(** A collation element: its class (0 symbol, 1 number, 2 letter, 3 other)
    and its weight inside the class. *)
Definition element : Type := N * N.

Definition charElement (c : ascii) : list element :=
  let n := N_of_ascii c in
  if (97 <=? n)%N && (n <=? 122)%N then [(2, n)%N]
  else if (65 <=? n)%N && (n <=? 90)%N then [(2, n + 32)%N]
  else if (128 <=? n)%N then [(3, n)%N]
  else match indexOf n symbolOrder 0 with
       | Some w => [(0%N, w)]
       | None => []
       end.

Definition flush (num : option N) : list element :=
  match num with
  | Some n => [(1%N, n)]
  | None => []
  end.

(** [num] is the value of the digit run being read, if any. *)
Fixpoint elements (num : option N) (s : string) : list element :=
  match s with
  | EmptyString => flush num
  | String c s' =>
      match digitValue c with
      | Some d => elements (Some (10 * default 0%N num + d)%N) s'
      | None => flush num ++ charElement c ++ elements None s'
      end
  end.

Definition collationKey (s : string) : list element := elements None s.

(** Negative, zero or positive as [a] sorts before, with or after [b]. *)
Definition compareAscii (a b : string) : Z :=
  match trichotomyT lexico (collationKey a) (collationKey b) with
  | inleft (left _) => (-1)%Z
  | inleft (right _) => 0%Z
  | inright _ => 1%Z
  end.

End Collation.

Export Collation.

(** ** Exceptions *)

(** What a statement can throw: [new Error(message)], a [TypeError] of the
    language (a property of [undefined] or [null], a call of something that
    is not a function, an assignment to a property of a primitive, an
    object without a text), and the rejection of an awaited read, write,
    deletion or lookup. *)
Inductive exn : Type :=
  | Error (message : string)
  | TypeError
  | Rejected.

Definition result (A : Type) : Type := (exn + A)%type.

#[global] Instance result_ret : MRet result := λ A x, inr x.
#[global] Instance result_bind : MBind result := λ A B f m,
  match m with
  | inl e => inl e
  | inr x => f x
  end.

Definition throw {A : Type} (e : exn) : result A := inl e.

(** ** Objects built by the program *)

Fixpoint parseDigits (acc : N) (s : string) : option N :=
  match s with
  | EmptyString => Some acc
  | String c s' =>
      match digitValue c with
      | Some d => parseDigits (10 * acc + d)%N s'
      | None => None
      end
  end.

(** A property key is an array index when it is the canonical decimal text
    of an integer below 2^32 - 1. *)
Definition arrayIndex (key : string) : option N :=
  match key with
  | EmptyString => None
  | _ =>
      match parseDigits 0 key with
      | Some n =>
          if String.eqb (string_of_N n) key && (n <? 4294967295)%N
          then Some n else None
      | None => None
      end
  end.

(** Place of a new array-index key: own keys enumerate array indices first,
    in ascending order, and the other keys after them in creation order. *)
Fixpoint insertIndexed (n : N) (key : string) (v : value)
    (fields : list (string * value)) : list (string * value) :=
  match fields with
  | [] => [(key, v)]
  | (k, x) :: rest =>
      match arrayIndex k with
      | Some m =>
          if (m <? n)%N then (k, x) :: insertIndexed n key v rest
          else (key, v) :: fields
      | None => (key, v) :: fields
      end
  end.

Fixpoint replaceProperty (key : string) (v : value)
    (fields : list (string * value)) : list (string * value) :=
  match fields with
  | [] => []
  | (k, x) :: rest =>
      if String.eqb k key then (k, v) :: rest
      else (k, x) :: replaceProperty key v rest
  end.

(** The own property [key] of an object gets the value [v]: an existing
    property keeps its place, a new one is created. *)
Definition defineOwn (fields : list (string * value)) (key : string)
    (v : value) : list (string * value) :=
  if includes (fields.*1) key then replaceProperty key v fields
  else
    match arrayIndex key with
    | Some n => insertIndexed n key v fields
    | None => fields ++ [(key, v)]
    end.

(** An object that the program builds from [{}]: its own properties in
    enumeration order, and whether an assignment to [__proto__] that finds
    no own property of that name still reaches the accessor of
    [Object.prototype] on the prototype chain. *)
Record Obj : Type := {
  props : list (string * value);
  protoAccessor : bool
}.

Definition emptyObject : Obj := {| props := []; protoAccessor := true |}.

(** The setter of [__proto__] called with [v]. [null] and objects become
    the prototype, other values are ignored. After [null] the chain is
    empty; after an object read from JSON the chain goes through that
    object, where an own data property named [__proto__] hides the
    accessor. *)
Definition afterProtoSetter (v : value) : bool :=
  match v with
  | JNull => false
  | JObj fields => negb (includes (fields.*1) "__proto__")
  | _ => true
  end.

(** [obj[key] = v]. Every property the assignment can find on the
    prototype chain is a writable data property, which makes it define an
    own property, except [__proto__] of [Object.prototype], an accessor:
    its setter changes the prototype and creates no property. *)
Definition setProperty (obj : Obj) (key : string) (v : value) : Obj :=
  if String.eqb key "__proto__" && protoAccessor obj &&
     negb (includes ((props obj).*1) key)
  then {| props := props obj; protoAccessor := afterProtoSetter v |}
  else {| props := defineOwn (props obj) key v;
          protoAccessor := protoAccessor obj |}.

(** ** Ordering: [orderMetadata] *)

(** [Array.prototype.sort] with a comparison function that may throw. The
    sort is stable, so for a consistent comparison function its result is
    determined: the sorted permutation that keeps tied elements in their
    order. It is computed by insertion, an element going after those it
    compares greater than. Every element of a list of two or more is
    compared at least once. *)
Section Sort.
Context {A : Type} (compareFn : A → A → result Z).

Fixpoint insertSorted (x : A) (l : list A) : result (list A) :=
  match l with
  | [] => mret [x]
  | y :: l' =>
      c ← compareFn x y;
      if (0 <? c)%Z then l'' ← insertSorted x l'; mret (y :: l'')
      else mret (x :: y :: l')
  end.

Fixpoint sort (l : list A) : result (list A) :=
  match l with
  | [] => mret []
  | x :: l' => sorted ← sort l'; insertSorted x sorted
  end.
End Sort.

(** [orderedProperties.forEach((prop, index) => orderMap.set(prop, index))] *)
Fixpoint setAll (index : nat) (props : list string) (m : gmap string nat)
  : gmap string nat :=
  match props with
  | [] => m
  | prop :: rest => setAll (S index) rest (<[prop := index]> m)
  end.

Section Order.
Context (cfg : Config).
(** [localeCompare a b] is
    [a.localeCompare(b, undefined, { numeric: true, sensitivity: "base" })]. *)
Context (localeCompare : string → string → Z).

Definition orderMap : gmap string nat := setAll 0 (orderedProperties cfg) ∅.

(** [orderMap.get(key) ?? -1] *)
Definition sortKey (key : string) : Z :=
  match orderMap !! key with
  | Some index => Z.of_nat index
  | None => (-1)%Z
  end.

(** The comparison function handed to [sort]. [Object.keys(a)[0]] is the
    path of the entry; an empty path is falsy. *)
Definition comparator (a b : entry) : result Z :=
  let aKey := a.1 in
  let bKey := b.1 in
  if negb (truthy_str (Some aKey)) || negb (truthy_str (Some bKey)) then
    throw (Error "Invalid metadata -- aKey or bKey is undefined")
  else
    let aSortKey := sortKey aKey in
    let bSortKey := sortKey bKey in
    if negb (aSortKey =? -1)%Z && negb (bSortKey =? -1)%Z then
      mret (aSortKey - bSortKey)%Z
    else if negb (aSortKey =? -1)%Z then mret (-1)%Z
    else if negb (bSortKey =? -1)%Z then mret 1%Z
    else mret (localeCompare aKey bKey).

(** The loop that fills [result]. *)
Fixpoint fillResult (sorted : list entry) (res : Obj) : result Obj :=
  match sorted with
  | [] => mret res
  | item :: rest =>
      let key := item.1 in
      if negb (truthy_str (Some key)) then
        throw (Error "Invalid metadata -- key is undefined")
      else fillResult rest (setProperty res key item.2)
  end.

(** The returned record, as the list [Object.entries] enumerates. *)
Definition orderMetadata (metadata : list entry)
  : result (list (string * value)) :=
  sorted ← sort comparator metadata;
  res ← fillResult sorted emptyObject;
  mret (props res).

End Order.

(** ** Rendering: [convertNoteToMarkdown] *)

Definition newline : string := String (ascii_of_N 10) "".
Definition dquote : string := String (ascii_of_N 34) "".
Definition backslash : string := String (ascii_of_N 92) "".

(** *** The text of a number *)

(** The Number that an integer literal [v], not negative, is read as: the
    nearest double, a tie going to the even significand, and infinity,
    here [None], from 2^1024 on. *)
Definition roundToDouble (v : Z) : option Z :=
  let b := Z.log2 v in
  if (b <? 53)%Z then Some v
  else
    let sh := (b - 52)%Z in
    let q := Z.shiftr v sh in
    let r := (v - Z.shiftl q sh)%Z in
    let half := Z.shiftl 1 (sh - 1) in
    let q' :=
      if (half <? r)%Z || ((r =? half)%Z && Z.odd q) then (q + 1)%Z else q in
    let x := Z.shiftl q' sh in
    if (2 ^ 1024 <=? x)%Z then None else Some x.

Definition readsAs (x v : Z) : bool :=
  match roundToDouble v with
  | Some y => (y =? x)%Z
  | None => false
  end.

Definition decimalLength (v : Z) : nat :=
  String.length (string_of_N (Z.to_N v)).

(** [Number::toString] prints the decimal with the fewest significant
    digits that is read as the number [x]; of several such decimals the
    one nearest to [x], and of two equally near the one whose last digit
    is even. [zeros] is the number of final digits that are tried as
    zero. *)
Fixpoint shortestDecimal (zeros : nat) (x : Z) : Z :=
  let p := (10 ^ Z.of_nat zeros)%Z in
  let lo := (x / p * p)%Z in
  let hi := (lo + p)%Z in
  let okLo := readsAs x lo in
  let okHi := readsAs x hi in
  if okLo && okHi then
    if (x - lo <? hi - x)%Z then lo
    else if (hi - x <? x - lo)%Z then hi
    else if Z.even (lo / p) then lo else hi
  else if okLo then lo
  else if okHi then hi
  else match zeros with
       | O => x
       | S zeros' => shortestDecimal zeros' x
       end.

(** [s] without its final zeros. *)
Fixpoint dropZeros (s : string) : string :=
  match s with
  | EmptyString => ""
  | String c s' =>
      let t := dropZeros s' in
      if Ascii.eqb c "0" && String.eqb t "" then "" else String c t
  end.

(** The form with an exponent, for a decimal of more than 21 digits. *)
Definition exponentText (v : Z) : string :=
  let digits := string_of_N (Z.to_N v) in
  match dropZeros digits with
  | EmptyString => "0"
  | String c rest =>
      String c (if String.eqb rest "" then "" else "." +:+ rest) +:+ "e+" +:+
      string_of_nat (String.length digits - 1)
  end.

(** [String(n)] for the number [JNum n]. *)
Definition numberText (n : Z) : string :=
  let sign := if (n <? 0)%Z then "-" else "" in
  match roundToDouble (Z.abs n) with
  | None => sign +:+ "Infinity"
  | Some x =>
      let v := shortestDecimal (decimalLength x - 1) x in
      sign +:+
      (if (decimalLength v <=? 21)%nat then string_of_N (Z.to_N v)
       else exponentText v)
  end.

Definition join (sep : string) (l : list string) : string :=
  match l with
  | [] => ""
  | x :: l' => fold_left (λ acc y, acc +:+ sep +:+ y) l' x
  end.

(** The text of a value inside a template literal, [String(v)]. An array
    prints its elements separated by commas, [null] elements as nothing.
    An object prints through the [toString] it finds: that of
    [Object.prototype], unless the object has an own property of that
    name, which in a value read from JSON is never a function; the
    conversion then falls back on [valueOf], which yields no primitive,
    and throws. *)
Fixpoint toText (v : value) : result string :=
  match v with
  | JNull => mret "null"
  | JBool b => mret (if b then "true" else "false")
  | JNum n => mret (numberText n)
  | JStr s => mret s
  | JArr elems =>
      texts ←
        (fix each (es : list value) : result (list string) :=
           match es with
           | [] => mret []
           | e :: rest =>
               t ← match e with
                   | JNull => mret ""
                   | _ => toText e
                   end;
               ts ← each rest;
               mret (t :: ts)
           end) elems;
      mret (join "," texts)
  | JObj fields =>
      if includes (fields.*1) "toString" then throw TypeError
      else mret "[object Object]"
  end.

(** [`${v}`]; [None] is [undefined]. *)
Definition templateText (v : option value) : result string :=
  match v with
  | Some v => toText v
  | None => mret "undefined"
  end.

(** [`${s}`] for a string that may be [undefined]. *)
Definition templateString (s : option string) : string :=
  match s with
  | Some s => s
  | None => "undefined"
  end.

Definition hexDigit (n : N) : string :=
  String (ascii_of_N (if (n <? 10)%N then 48 + n else 87 + n)) "".

(** One character of a string inside [JSON.stringify]. *)
Definition jsonChar (c : ascii) : string :=
  let n := N_of_ascii c in
  if (n =? 34)%N then backslash +:+ dquote
  else if (n =? 92)%N then backslash +:+ backslash
  else if (n =? 8)%N then backslash +:+ "b"
  else if (n =? 9)%N then backslash +:+ "t"
  else if (n =? 10)%N then backslash +:+ "n"
  else if (n =? 12)%N then backslash +:+ "f"
  else if (n =? 13)%N then backslash +:+ "r"
  else if (n <? 32)%N then
    backslash +:+ "u00" +:+ hexDigit (n / 16) +:+ hexDigit (n mod 16)
  else String c "".

Fixpoint jsonChars (s : string) : string :=
  match s with
  | EmptyString => ""
  | String c s' => jsonChar c +:+ jsonChars s'
  end.

Definition jsonQuote (s : string) : string := dquote +:+ jsonChars s +:+ dquote.

(** [JSON.stringify(v)] without indentation. A number that is not finite
    is written as [null]; no own property of a value read from JSON is a
    function, so no [toJSON] is called. *)
Fixpoint JSON_stringify (v : value) : string :=
  match v with
  | JNull => "null"
  | JBool b => if b then "true" else "false"
  | JNum n =>
      match roundToDouble (Z.abs n) with
      | Some _ => numberText n
      | None => "null"
      end
  | JStr s => jsonQuote s
  | JArr elems => "[" +:+ join "," (map JSON_stringify elems) +:+ "]"
  | JObj fields =>
      "{" +:+
      join "," (map (λ kv, jsonQuote kv.1 +:+ ":" +:+ JSON_stringify kv.2)
                  fields) +:+
      "}"
  end.

(** [JSON.stringify] does not throw on a value read from JSON, so the
    [catch] branch is never taken. *)
Definition formatMetadataValue (v : value) : string :=
  match v with
  | JNull => ""
  | JStr s => s
  | JNum n => numberText n
  | JBool b => if b then "true" else "false"
  | _ => JSON_stringify v
  end.

(** [title.replace(/\/|\\|\:|\?/g, "_")] *)
Fixpoint normalizeTitle (title : string) : string :=
  match title with
  | EmptyString => ""
  | String c s' =>
      let n := N_of_ascii c in
      String (if (n =? 47)%N || (n =? 92)%N || (n =? 58)%N || (n =? 63)%N
              then "_"%char else c)
        (normalizeTitle s')
  end.

Fixpoint lookupField (key : string) (fields : list (string * value))
  : option value :=
  match fields with
  | [] => None
  | (k, x) :: rest => if String.eqb k key then Some x else lookupField key rest
  end.

(** [v.key] for the names this program reads ([title], [textContent],
    [isArchived], [isTrashed]), none an array index or [length]: [None] is
    [undefined]; reading a property of [null] throws. *)
Definition getField (v : value) (key : string) : result (option value) :=
  match v with
  | JNull => throw TypeError
  | JObj fields => mret (lookupField key fields)
  | _ => mret None
  end.

(** The own enumerable properties of an array, as a field list. *)
Definition indexed (elems : list value) : list (string * value) :=
  imap (λ i e, (string_of_nat i, e)) elems.

(** [v.key = x] in strict code, for the same names: none of them is found
    on the prototype chain of a value read from JSON, so the assignment
    defines an own property. An array that receives a named property
    enumerates its indices and then that name, like the object with these
    fields. Assigning to a property of a primitive or of [null] throws. *)
Definition setField (v : value) (key : string) (x : value) : result value :=
  match v with
  | JObj fields => mret (JObj (defineOwn fields key x))
  | JArr elems => mret (JObj (defineOwn (indexed elems) key x))
  | _ => throw TypeError
  end.

Section Render.
Context (cfg : Config).
Context (localeCompare : string → string → Z).

Fixpoint metadataLines (ordered : list (string * value)) : string :=
  match ordered with
  | [] => ""
  | (key, v) :: rest =>
      "*" +:+ key +:+ "*: " +:+ formatMetadataValue v +:+ newline +:+
      metadataLines rest
  end.

(** [noteJson] is an object here. The metadata [Set] is always truthy. *)
Definition convertNoteToMarkdown (noteJson : value) : result string :=
  let metadata := recursivelyGetProperties cfg noteJson [] None in
  title ← getField noteJson "title";
  titleText ← templateText title;
  textContent ← getField noteJson "textContent";
  contentText ← templateText textContent;
  let markdown :=
    "# " +:+ titleText +:+ newline +:+ newline +:+ contentText +:+ newline in
  orderedMetadata ← orderMetadata cfg localeCompare metadata;
  mret (markdown +:+ newline +:+ "## Metadata from Google Keep" +:+ newline
        +:+ metadataLines orderedMetadata).
End Render.

(** ** The note converter's main loop *)

(** The counters of the script and what it has done so far: lines printed,
    files written with [Bun.write], files deleted. *)
Record RunState : Type := {
  notesArchivedCount : nat;
  notesTrashedCount : nat;
  notesUnsortedCount : nat;
  console : list string;
  written : list (string * string);
  deleted : list string
}.

(** The file system as the run meets it: the names [readdir] returns for
    the input directory; per path, the outcome of [Bun.file(path).json()],
    [None] when the promise rejects (no such file, or not JSON); and
    whether a [Bun.write] and a [delete] attempted at a point of the run
    are rejected (a name too long, no permission, a full disk). *)
Record Disk : Type := {
  dirEntries : list string;
  readJson : string → option value;
  writeRejected : RunState → string → string → bool;
  deleteRejected : RunState → string → bool
}.

Definition initialState : RunState := {|
  notesArchivedCount := 0;
  notesTrashedCount := 0;
  notesUnsortedCount := 0;
  console := [];
  written := [];
  deleted := []
|}.

(** Statements: they change the state and return or throw. *)
Definition Run (A : Type) : Type := RunState → RunState * result A.

#[global] Instance run_ret : MRet Run := λ A x st, (st, inr x).
#[global] Instance run_bind : MBind Run := λ A B f m st,
  match m st with
  | (st', inl e) => (st', inl e)
  | (st', inr x) => f x st'
  end.

Definition liftResult {A : Type} (r : result A) : Run A := λ st, (st, r).

Definition console_log (line : string) : Run unit := λ st,
  ({| notesArchivedCount := notesArchivedCount st;
      notesTrashedCount := notesTrashedCount st;
      notesUnsortedCount := notesUnsortedCount st;
      console := console st ++ [line];
      written := written st;
      deleted := deleted st |}, inr tt).

(** [await Bun.write(path, content)]: the file is written, or the promise
    rejects and nothing is written. *)
Definition Bun_write (disk : Disk) (path content : string) : Run unit :=
  λ st,
  if writeRejected disk st path content then (st, inl Rejected)
  else
    ({| notesArchivedCount := notesArchivedCount st;
        notesTrashedCount := notesTrashedCount st;
        notesUnsortedCount := notesUnsortedCount st;
        console := console st;
        written := written st ++ [(path, content)];
        deleted := deleted st |}, inr tt).

(** [await noteFile.delete()], likewise. *)
Definition file_delete (disk : Disk) (path : string) : Run unit := λ st,
  if deleteRejected disk st path then (st, inl Rejected)
  else
    ({| notesArchivedCount := notesArchivedCount st;
        notesTrashedCount := notesTrashedCount st;
        notesUnsortedCount := notesUnsortedCount st;
        console := console st;
        written := written st;
        deleted := deleted st ++ [path] |}, inr tt).

Definition incrArchived : Run unit := λ st,
  ({| notesArchivedCount := S (notesArchivedCount st);
      notesTrashedCount := notesTrashedCount st;
      notesUnsortedCount := notesUnsortedCount st;
      console := console st;
      written := written st;
      deleted := deleted st |}, inr tt).

Definition incrTrashed : Run unit := λ st,
  ({| notesArchivedCount := notesArchivedCount st;
      notesTrashedCount := S (notesTrashedCount st);
      notesUnsortedCount := notesUnsortedCount st;
      console := console st;
      written := written st;
      deleted := deleted st |}, inr tt).

Definition incrUnsorted : Run unit := λ st,
  ({| notesArchivedCount := notesArchivedCount st;
      notesTrashedCount := notesTrashedCount st;
      notesUnsortedCount := S (notesUnsortedCount st);
      console := console st;
      written := written st;
      deleted := deleted st |}, inr tt).

Definition getState : Run RunState := λ st, (st, inr st).

Fixpoint forEach {A : Type} (l : list A) (body : A → Run unit) : Run unit :=
  match l with
  | [] => mret tt
  | x :: l' => body x ;; forEach l' body
  end.

(** [note.endsWith(suffix)] *)
Definition endsWith (s suffix : string) : bool :=
  let n := String.length s in
  let k := String.length suffix in
  (k <=? n)%nat && String.eqb (substring (n - k) k s) suffix.

Definition truthy_opt (v : option value) : bool :=
  match v with
  | Some v => truthy v
  | None => false
  end.

Section NoteConverter.
Context (cfg : Config).
Context (localeCompare : string → string → Z).
Context (disk : Disk).

Definition jsonNotes : list string :=
  filter (λ note, endsWith note ".json" = true) (dirEntries disk).

(** [testOneNote ? [jsonNotes[0]] : jsonNotes]; [None] is [undefined]. *)
Definition notesToProcess : list (option string) :=
  if testOneNote cfg then [jsonNotes !! 0] else Some <$> jsonNotes.

(** Lines 100 to 103: the title the note ends up with. When the title is
    missing or falsy it becomes [note], an assignment that throws when
    [noteJson] is a primitive; [normalizeTitle] then calls [replace] on
    it, which throws unless it is a string. *)
Definition titleOf (noteJson : value) (note : option string)
  : result string :=
  title ← getField noteJson "title";
  title ←
    (if negb (truthy_opt title) then
       if is_object noteJson then mret (JStr <$> note) else throw TypeError
     else mret title);
  match title with
  | Some (JStr s) => mret (normalizeTitle s)
  | _ => throw TypeError
  end.

(** Lines 110 to 136: the destination of a converted note. *)
Definition routeNote (isTrashed isArchived : option value)
    (title markdown : string) : Run unit :=
  if truthy_opt isTrashed then
    incrTrashed ;;
    console_log "  Note is trashed, moving to trash directory" ;;
    if negb (dryRun cfg) then
      Bun_write disk (noteOutputDir cfg +:+ "/trash/" +:+ title +:+ ".md")
        markdown
    else console_log "  DRY RUN: Would move note to trash directory"
  else if truthy_opt isArchived then
    incrArchived ;;
    console_log "  Note is archived, moving to archive directory" ;;
    if negb (dryRun cfg) then
      Bun_write disk (noteOutputDir cfg +:+ "/archive/" +:+ title +:+ ".md")
        markdown
    else console_log "  DRY RUN: Would move note to archive directory"
  else
    incrUnsorted ;;
    console_log
      "  Note is not archived or trashed, moving to unsorted output directory" ;;
    if negb (dryRun cfg) then
      Bun_write disk (noteOutputDir cfg +:+ "/unsorted/" +:+ title +:+ ".md")
        markdown
    else
      console_log "  DRY RUN: Would move note to unsorted output directory".

(** The body of the main loop for one element of [notesToProcess]. *)
Definition processNote (note : option string) : Run unit :=
  let noteText := templateString note in
  let notePath := noteInputDir cfg +:+ "/" +:+ noteText in
  console_log ("Processing note: " +:+ noteText) ;;
  noteJson ← liftResult
    (match readJson disk notePath with
     | Some v => mret v
     | None => throw Rejected
     end);
  title ← liftResult (titleOf noteJson note);
  noteJson ← liftResult (setField noteJson "title" (JStr title));
  isArchived ← liftResult (getField noteJson "isArchived");
  isTrashed ← liftResult (getField noteJson "isTrashed");
  markdown ← liftResult (convertNoteToMarkdown cfg localeCompare noteJson);
  console_log ("  Note converted to markdown: " +:+ title) ;;
  console_log ("  " +:+ title +:+ ": " +:+ markdown) ;;
  routeNote isTrashed isArchived title markdown ;;
  if shouldDeleteOriginalNotes cfg then
    if negb (dryRun cfg) then
      console_log ("  Deleting note: " +:+ title) ;;
      file_delete disk notePath
    else console_log ("  DRY RUN: Would delete note: " +:+ title)
  else mret tt.

(** The whole script after [readdir]: the loop, then the report. *)
Definition noteConverter : Run unit :=
  forEach notesToProcess processNote ;;
  st ← getState;
  console_log ("Notes total: " +:+ string_of_nat (length jsonNotes)) ;;
  console_log ("Notes archived: " +:+ string_of_nat (notesArchivedCount st)) ;;
  console_log ("Notes trashed: " +:+ string_of_nat (notesTrashedCount st)).

(** The final state, and the exception that stopped the run if any. *)
Definition runNotes : RunState * result unit := noteConverter initialState.

End NoteConverter.

(** ** The contact scraper *)

(** The part of the answer of the [phone] package that is read: whether the
    number is valid and its normalised text, a plus sign, the country
    calling code and the national number. *)
Record PhoneResult : Type := {
  isValid : bool;
  phoneNumber : string
}.

Definition isDigit (c : ascii) : bool :=
  match digitValue c with
  | Some _ => true
  | None => false
  end.

Fixpoint allDigits (s : string) : bool :=
  match s with
  | EmptyString => true
  | String c s' => isDigit c && allDigits s'
  end.

(** [s.replace(/^\+1/, "")] *)
Definition stripPlusOne (s : string) : string :=
  if String.prefix "+1" s then substring 2 (String.length s - 2) s else s.

(** [s.replace(/(\d{3})(\d{3})(\d{4})/, "($1) $2-$3")]: the pattern is not
    anchored and not global, so the leftmost ten consecutive digits are
    rewritten wherever they stand. *)
Fixpoint groupTenDigits (s : string) : string :=
  match s with
  | EmptyString => ""
  | String c s' =>
      let ten := substring 0 10 s in
      if (String.length ten =? 10)%nat && allDigits ten then
        "(" +:+ substring 0 3 s +:+ ") " +:+ substring 3 3 s +:+ "-" +:+
        substring 6 4 s +:+ substring 10 (String.length s - 10) s
      else String c (groupTenDigits s')
  end.

(** [s.split(sep)] for a separator that is not empty: [skip] counts the
    characters of a separator just found that are still to be passed,
    [cur] is the piece being read. *)
Fixpoint splitGo (sep : string) (skip : nat) (cur : string) (s : string)
  : list string :=
  match s with
  | EmptyString => [cur]
  | String c s' =>
      match skip with
      | S k => splitGo sep k cur s'
      | O =>
          if String.prefix sep s then
            cur :: splitGo sep (String.length sep - 1) "" s'
          else splitGo sep 0 (cur +:+ String c "") s'
      end
  end.

Definition split (s sep : string) : list string := splitGo sep 0 "" s.

Record ContactInfo : Type := {
  emails_of : option (list string);
  phones_of : option (list string)
}.

Record WorkExperience : Type := {
  company : option string;
  position : option string
}.

(** The fields of a profile that the script reads. [public_identifier] is
    [Some] when its type is string. *)
Record Profile : Type := {
  provider : string;
  public_identifier : option string;
  first_name : option string;
  last_name : option string;
  contact_info : option ContactInfo;
  work_experience : option (list WorkExperience);
  profile_picture_url : option string
}.

Record OutputItem : Type := {
  fullName : option string;
  profileUrl : option string;
  emails : list string;
  phones : list string;
  currentCompanyRole : option string
}.

(** What the run does that can be observed from outside, in order. The
    delay lasts 5000 ms plus a random part below 1000 ms. *)
Inductive event : Type :=
  | GetProfile (identifier : string)
  | Sleep
  | ConsoleLog (line : string)
  | ConsoleWarn (line : string)
  | ConsoleError (line : string).

Section ContactScraper.
(** The [phone] package, [String.prototype.toLowerCase] of the runtime and
    the profile service; a lookup returns a profile or throws. *)
Context (phone : string → PhoneResult).
Context (toLowerCase : string → string).
Context (getProfile : string → result Profile).

Definition formatPhoneNumber (phoneNumber_ : string) : option string :=
  let parsingRes := phone phoneNumber_ in
  if negb (isValid parsingRes) then None
  else Some (groupTenDigits (stripPlusOne (phoneNumber parsingRes))).

(** [x || null] for a string [x] *)
Definition orNull (x : string) : option string :=
  if truthy_str (Some x) then Some x else None.

Definition outputItem (contact : Profile) (public_id : string)
  : OutputItem := {|
  fullName :=
    match first_name contact, last_name contact with
    | Some f, Some l =>
        if truthy_str (Some f) && truthy_str (Some l)
        then Some (f +:+ " " +:+ l) else None
    | _, _ => None
    end;
  profileUrl := orNull ("https://www.linkedin.com/in/" +:+ public_id);
  emails :=
    match contact_info contact ≫= emails_of with
    | Some l => map toLowerCase l
    | None => []
    end;
  phones :=
    match contact_info contact ≫= phones_of with
    | Some l => omap formatPhoneNumber l
    | None => []
    end;
  currentCompanyRole :=
    match work_experience contact ≫= head with
    | Some w =>
        match company w, position w with
        | Some c, Some p =>
            if truthy_str (Some c) && truthy_str (Some p)
            then Some (c +:+ " - " +:+ p) else None
        | _, _ => None
        end
    | None => None
    end
|}.

(** One turn of the main loop: [outputData] and the events so far, before
    and after. The delay is the last statement of the [try] block; the
    [catch] block only prints. *)
Definition scrapeOne (st : list OutputItem * list event) (url : string)
  : list OutputItem * list event :=
  let '(outputData, trace) := st in
  let profileUrn := split url "/in/" !! 1 in
  if negb (truthy_str profileUrn) then
    (outputData, trace ++ [ConsoleLog ("Invalid LinkedIn URL: " +:+ url)])
  else
    let identifier := default "" profileUrn in
    match getProfile identifier with
    | inr contact =>
        match
          (if String.eqb (provider contact) "LINKEDIN"
           then public_identifier contact else None)
        with
        | Some public_id =>
            (outputData ++ [outputItem contact public_id],
             trace ++ [GetProfile identifier;
                       ConsoleLog ("Record added for " +:+ url); Sleep])
        | None =>
            (outputData,
             trace ++ [GetProfile identifier;
                       ConsoleWarn ("Record is not valid for " +:+ url);
                       Sleep])
        end
    | inl error =>
        (outputData,
         trace ++ [GetProfile identifier;
                   ConsoleError ("Error fetching profile for " +:+ url +:+ ":")])
    end.

Definition scrapeAll (recruiterLinkedInURLs : list string)
  : list OutputItem * list event :=
  fold_left scrapeOne recruiterLinkedInURLs ([], []).

End ContactScraper.

(** ** Notions used in the statements *)

Definition isDot (c : ascii) : bool := (N_of_ascii c =? 46)%N.

(** No "." occurs in [s]. *)
Fixpoint dotFree (s : string) : bool :=
  match s with
  | EmptyString => true
  | String c s' => negb (isDot c) && dotFree s'
  end.

(** No property name anywhere inside [v] contains a ".". *)
Fixpoint keysDotFree (v : value) : bool :=
  match v with
  | JObj fields => forallb (λ kv, dotFree kv.1 && keysDotFree kv.2) fields
  | JArr elems => forallb keysDotFree elems
  | _ => true
  end.

(** The text of [s] before its first ".". *)
Fixpoint firstSegment (s : string) : string :=
  match s with
  | EmptyString => ""
  | String c s' => if isDot c then "" else String c (firstSegment s')
  end.

(** Where the first segment of an emitted path comes from: from
    [propertyName] when it is truthy, else from a property that passed the
    ignore test. *)
Definition segmentOk (cfg : Config) (pn : option string) (e : entry) : Prop :=
  if truthy_str pn then firstSegment e.1 = firstSegment (default "" pn)
  else includes (propertiesToIgnore cfg) (firstSegment e.1) = false.

(** [a] sorts before [b]: the comparison function returns a negative
    number. *)
Definition before (cfg : Config) (localeCompare : string → string → Z)
    (a b : entry) : Prop :=
  ∃ z : Z, comparator cfg localeCompare a b = inr z ∧ (z < 0)%Z.

(** A string, a number or a boolean. *)
Definition isPrimitive (v : value) : bool :=
  match v with
  | JBool _ | JNum _ | JStr _ => true
  | _ => false
  end.

(** Neither of [a] and [b] sorts before the other. *)
Definition tied (cfg : Config) (localeCompare : string → string → Z)
    (a b : entry) : Prop :=
  ¬ before cfg localeCompare a b ∧ ¬ before cfg localeCompare b a.

(** The number the comparison function returns for two paths. *)
Definition compareKeys (cfg : Config) (localeCompare : string → string → Z)
    (aKey bKey : string) : Z :=
  match comparator cfg localeCompare (aKey, JNull) (bKey, JNull) with
  | inr z => z
  | inl _ => 0%Z
  end.

(** [x] may stand before [y] in a list sorted with [cmp]. *)
Definition cmp_le {A : Type} (cmp : A → A → Z) (x y : A) : Prop :=
  (cmp x y <= 0)%Z.

Definition withOrderedProperties (cfg : Config) (props : list string)
  : Config := {|
  dryRun := dryRun cfg;
  testOneNote := testOneNote cfg;
  shouldDeleteOriginalNotes := shouldDeleteOriginalNotes cfg;
  propertiesToIgnore := propertiesToIgnore cfg;
  orderedProperties := props;
  noteInputDir := noteInputDir cfg;
  noteOutputDir := noteOutputDir cfg
|}.

(** The three destinations, as the specification words them: a trashed note
    goes to the trash whatever [isArchived] is, else an archived note to the
    archive, else the note is unsorted. *)
Inductive category : Type := Trash | Archive | Unsorted.

#[global] Instance category_eq_dec : EqDecision category.
Proof. solve_decision. Defined.

Definition categoryOf (isTrashed isArchived : option value) : category :=
  if truthy_opt isTrashed then Trash
  else if truthy_opt isArchived then Archive
  else Unsorted.

Definition categoryDir (c : category) : string :=
  match c with
  | Trash => "/trash/"
  | Archive => "/archive/"
  | Unsorted => "/unsorted/"
  end.

Definition countOf (c : category) (st : RunState) : nat :=
  match c with
  | Trash => notesTrashedCount st
  | Archive => notesArchivedCount st
  | Unsorted => notesUnsortedCount st
  end.

(** The number of notes the loop has routed so far. *)
Definition processed (st : RunState) : nat :=
  notesArchivedCount st + notesTrashedCount st + notesUnsortedCount st.

(** A directory with one active note, and one that holds no [.json] file but
    a file named [undefined]. *)
Definition oneActiveNote : Disk := {|
  dirEntries := ["a.json"];
  readJson := λ path,
    if String.eqb path "/home/ari/downloads/Keep/a.json" then
      Some (JObj [("title", JStr "A"); ("textContent", JStr "x");
                  ("isTrashed", JBool false); ("isArchived", JBool false)])
    else None;
  writeRejected := λ _ _ _, false;
  deleteRejected := λ _ _, false
|}.

Definition onlyUndefined : Disk := {|
  dirEntries := ["undefined"];
  readJson := λ path,
    if String.eqb path "/home/ari/downloads/Keep/undefined" then
      Some (JObj [("title", JStr "t"); ("textContent", JStr "x")])
    else None;
  writeRejected := λ _ _ _, false;
  deleteRejected := λ _ _, false
|}.

Definition withTestOneNote (cfg : Config) : Config := {|
  dryRun := dryRun cfg;
  testOneNote := true;
  shouldDeleteOriginalNotes := shouldDeleteOriginalNotes cfg;
  propertiesToIgnore := propertiesToIgnore cfg;
  orderedProperties := orderedProperties cfg;
  noteInputDir := noteInputDir cfg;
  noteOutputDir := noteOutputDir cfg
|}.

(** A directory with neither a [.json] file nor a file named [undefined]. *)
Definition noNotes : Disk := {|
  dirEntries := ["readme.txt"];
  readJson := λ _, None;
  writeRejected := λ _ _ _, false;
  deleteRejected := λ _ _, false
|}.

(** Sample answers of the [phone] package: an unparsable text, a number of
    the default country (+1) and a mobile number of the United Kingdom
    (+44). *)
Definition samplePhone (raw : string) : PhoneResult :=
  if String.eqb raw "817-569-8900" then
    {| isValid := true; phoneNumber := "+18175698900" |}
  else if String.eqb raw "+44 7911 123456" then
    {| isValid := true; phoneNumber := "+447911123456" |}
  else {| isValid := false; phoneNumber := "" |}.

Definition sampleProfile (id : string) : Profile := {|
  provider := "LINKEDIN";
  public_identifier := Some id;
  first_name := Some "Ada";
  last_name := Some "Lovelace";
  contact_info :=
    Some {| emails_of := Some ["Ada@Example.COM"];
            phones_of :=
              Some ["not a number"; "817-569-8900"; "+44 7911 123456"] |};
  work_experience := Some [{| company := Some "ACME"; position := Some "CTO" |}];
  profile_picture_url := None
|}.

(** A profile service whose lookup of "a" throws and which answers every
    other identifier. *)
Definition sampleService (identifier : string) : result Profile :=
  if String.eqb identifier "a" then throw Rejected
  else mret (sampleProfile identifier).

(** ** Induction on values *)

Section ValueInd.
Context (P : value → Prop).
Context (Hnull : P JNull) (Hbool : ∀ b, P (JBool b)) (Hnum : ∀ n, P (JNum n))
        (Hstr : ∀ s, P (JStr s))
        (Harr : ∀ elems, Forall P elems → P (JArr elems))
        (Hobj : ∀ fields, Forall (λ kv, P kv.2) fields → P (JObj fields)).

Fixpoint value_nested_ind (v : value) : P v :=
  match v with
  | JNull => Hnull
  | JBool b => Hbool b
  | JNum n => Hnum n
  | JStr s => Hstr s
  | JArr elems =>
      Harr elems
        ((fix go (l : list value) : Forall P l :=
            match l with
            | [] => Forall_nil_2 P
            | x :: l' => Forall_cons_2 P x l' (value_nested_ind x) (go l')
            end) elems)
  | JObj fields =>
      Hobj fields
        ((fix go (l : list (string * value)) : Forall (λ kv, P kv.2) l :=
            match l with
            | [] => Forall_nil_2 _
            | kv :: l' =>
                Forall_cons_2 (λ kv, P kv.2) kv l'
                  (value_nested_ind kv.2) (go l')
            end) fields)
  end.
End ValueInd.

(** ** Further notions *)

(** The characters [normalizeTitle] replaces: / \ : ? *)
Definition forbiddenChar (c : ascii) : bool :=
  let n := N_of_ascii c in
  (n =? 47)%N || (n =? 92)%N || (n =? 58)%N || (n =? 63)%N.

(** None of these characters occurs in [s]. *)
Fixpoint noForbidden (s : string) : bool :=
  match s with
  | EmptyString => true
  | String c s' => negb (forbiddenChar c) && noForbidden s'
  end.

(** No property name anywhere inside [v] is the empty string. *)
Fixpoint keysNonEmpty (v : value) : bool :=
  match v with
  | JObj fields =>
      forallb (λ kv, negb (String.eqb kv.1 "") && keysNonEmpty kv.2) fields
  | JArr elems => forallb keysNonEmpty elems
  | _ => true
  end.

Definition withDryRun (cfg : Config) (b : bool) : Config := {|
  dryRun := b;
  testOneNote := testOneNote cfg;
  shouldDeleteOriginalNotes := shouldDeleteOriginalNotes cfg;
  propertiesToIgnore := propertiesToIgnore cfg;
  orderedProperties := orderedProperties cfg;
  noteInputDir := noteInputDir cfg;
  noteOutputDir := noteOutputDir cfg
|}.

Definition withDeleteOriginals (cfg : Config) : Config := {|
  dryRun := dryRun cfg;
  testOneNote := testOneNote cfg;
  shouldDeleteOriginalNotes := true;
  propertiesToIgnore := propertiesToIgnore cfg;
  orderedProperties := orderedProperties cfg;
  noteInputDir := noteInputDir cfg;
  noteOutputDir := noteOutputDir cfg
|}.

(** [`${noteInputDir}/${note}`] *)
Definition notePathOf (cfg : Config) (note : option string) : string :=
  noteInputDir cfg +:+ "/" +:+ templateString note.

(** The three counters of a state. *)
Definition counters (st : RunState) : nat * nat * nat :=
  (notesArchivedCount st, notesTrashedCount st, notesUnsortedCount st).

(** The statements of the loop body that do not touch the state, lines 98
    to 106 in the order of [processNote]: what they hand to the rest of the
    body, or what they throw. *)
Definition prepareNote (cfg : Config) (localeCompare : string → string → Z)
    (disk : Disk) (note : option string)
  : result (string * option value * option value * string) :=
  noteJson ←
    match readJson disk (notePathOf cfg note) with
    | Some v => mret v
    | None => throw Rejected
    end;
  title ← titleOf noteJson note;
  noteJson ← setField noteJson "title" (JStr title);
  isArchived ← getField noteJson "isArchived";
  isTrashed ← getField noteJson "isTrashed";
  markdown ← convertNoteToMarkdown cfg localeCompare noteJson;
  mret (title, isArchived, isTrashed, markdown).

(** The directory with one active note on a file system that rejects every
    write. *)
Definition writeProtected : Disk := {|
  dirEntries := dirEntries oneActiveNote;
  readJson := readJson oneActiveNote;
  writeRejected := λ _ _ _, true;
  deleteRejected := λ _ _, false
|}.

(** A directory with three notes of which the second cannot be read. *)
Definition secondNoteBroken : Disk := {|
  dirEntries := ["a.json"; "b.json"; "c.json"];
  readJson := λ path,
    if String.eqb path "/home/ari/downloads/Keep/a.json" then
      Some (JObj [("title", JStr "A"); ("textContent", JStr "x");
                  ("isTrashed", JBool false); ("isArchived", JBool true)])
    else if String.eqb path "/home/ari/downloads/Keep/c.json" then
      Some (JObj [("title", JStr "C"); ("textContent", JStr "z")])
    else None;
  writeRejected := λ _ _ _, false;
  deleteRejected := λ _ _, false
|}.

(** [sep] occurs somewhere in [s]. *)
Fixpoint contains (sep s : string) : bool :=
  match s with
  | EmptyString => String.prefix sep ""
  | String c s' => String.prefix sep s || contains sep s'
  end.

(** The identifier the main loop looks up for a URL, if it finds one:
    [url.split("/in/")[1]] when it is truthy. *)
Definition identifierOf (url : string) : option string :=
  match split url "/in/" !! 1 with
  | Some identifier => if truthy_str (Some identifier) then Some identifier else None
  | None => None
  end.

(** The identifiers of the lookups in a trace, in order. *)
Definition lookups (trace : list event) : list string :=
  omap (λ ev, match ev with GetProfile identifier => Some identifier | _ => None end)
    trace.

(** The record the main loop adds for a URL, if it adds one. *)
Definition recordOf (phone : string → PhoneResult)
    (toLowerCase : string → string)
    (getProfile : string → result Profile) (url : string)
  : option OutputItem :=
  match identifierOf url with
  | Some identifier =>
      match getProfile identifier with
      | inr contact =>
          if String.eqb (provider contact) "LINKEDIN" then
            match public_identifier contact with
            | Some public_id =>
                Some (outputItem phone toLowerCase contact public_id)
            | None => None
            end
          else None
      | inl _ => None
      end
  | None => None
  end.

(** The lower-case letter of an upper-case ASCII letter; other characters
    stay. *)
Definition lowerChar (c : ascii) : ascii :=
  let n := N_of_ascii c in
  if (65 <=? n)%N && (n <=? 90)%N then ascii_of_N (n + 32) else c.

(** What [toLowerCase] of the runtime returns for ASCII text. *)
Fixpoint lowerAscii (s : string) : string :=
  match s with
  | EmptyString => ""
  | String c s' => String (lowerChar c) (lowerAscii s')
  end.

(** [s] is ASCII text. *)
Fixpoint isAscii (s : string) : bool :=
  match s with
  | EmptyString => true
  | String c s' => (N_of_ascii c <? 128)%N && isAscii s'
  end.

(** No upper-case ASCII letter occurs in [s]. *)
Fixpoint noUpper (s : string) : bool :=
  match s with
  | EmptyString => true
  | String c s' =>
      negb ((65 <=? N_of_ascii c)%N && (N_of_ascii c <=? 90)%N) && noUpper s'
  end.

(** [s] starts with ten digits. *)
Definition tenDigitsAt (s : string) : bool :=
  (String.length (substring 0 10 s) =? 10)%nat && allDigits (substring 0 10 s).

(** Ten consecutive digits occur somewhere in [s]. *)
Fixpoint hasTenDigits (s : string) : bool :=
  match s with
  | EmptyString => false
  | String c s' => tenDigitsAt s || hasTenDigits s'
  end.

(** A sample answer of the [phone] package with fewer than ten digits. *)
Definition shortNumberPhone (raw : string) : PhoneResult :=
  {| isValid := true; phoneNumber := "+298201234" |}.

(** The strings of [l] are pairwise different. *)
Fixpoint distinctKeys (l : list string) : bool :=
  match l with
  | [] => true
  | k :: l' => negb (includes l' k) && distinctKeys l'
  end.

(** Inside [v] no object has two properties of the same name. *)
Fixpoint keysDistinct (v : value) : bool :=
  match v with
  | JObj fields =>
      distinctKeys (map fst fields) && forallb (λ kv, keysDistinct kv.2) fields
  | JArr elems => forallb keysDistinct elems
  | _ => true
  end.

(** * Properties *)


(** ** Flattening *)

Section FlattenFacts.
Context (cfg : Config).

(** The loop over the fields of an object, as a fold. *)
Lemma flatten_obj fields acc pn :
  recursivelyGetProperties cfg (JObj fields) acc pn =
  fold_left (λ acc kv, visitProperty cfg (recursivelyGetProperties cfg) pn kv.1 kv.2 acc) fields acc.
Proof.
  simpl. revert acc. induction fields as [|[k x] rest IH]; intros acc; simpl.
  - reflexivity.
  - apply IH.
Qed.

Lemma flatten_arr_from i elems acc pn :
  (fix loop (i : nat) (es : list value) (acc : list entry) {struct es}
     : list entry :=
     match es with
     | [] => acc
     | value :: rest =>
         loop (S i) rest
           (visitProperty cfg (recursivelyGetProperties cfg) pn (string_of_nat i) value acc)
     end) i elems acc =
  fold_left (λ acc kv, visitProperty cfg (recursivelyGetProperties cfg) pn kv.1 kv.2 acc)
    (imap (λ j e, (string_of_nat (i + j), e)) elems) acc.
Proof.
  revert i acc. induction elems as [|e rest IH]; intros i acc; simpl.
  - reflexivity.
  - rewrite IH. rewrite Nat.add_0_r. f_equal.
    apply imap_ext. intros j x _. simpl. f_equal. f_equal. lia.
Qed.

(** An array is traversed as the object whose keys are its indices. *)
Lemma flatten_arr elems acc pn :
  recursivelyGetProperties cfg (JArr elems) acc pn = recursivelyGetProperties cfg (JObj (indexed elems)) acc pn.
Proof.
  rewrite flatten_obj. simpl. rewrite flatten_arr_from. reflexivity.
Qed.

Lemma indexed_values (P : value → Prop) elems :
  Forall P elems → Forall (λ kv, P kv.2) (indexed elems).
Proof.
  unfold indexed. intros H. rewrite Forall_forall in H.
  apply Forall_forall. intros kv Hin.
  apply list_elem_of_lookup in Hin as [i Hi].
  rewrite list_lookup_imap in Hi.
  destruct (elems !! i) as [e|] eqn:He; simpl in Hi; [|done].
  injection Hi as <-. simpl. apply H. eapply list_elem_of_lookup_2; eauto.
Qed.

(** *** Only leaves are recorded *)

Lemma fold_leaves fields :
  Forall (λ kv, ∀ acc pn e,
            e ∈ recursivelyGetProperties cfg kv.2 acc pn →
            e ∈ acc ∨ is_object e.2 = false) fields →
  ∀ acc pn e,
    e ∈ fold_left
          (λ acc kv,
             visitProperty cfg (recursivelyGetProperties cfg) pn kv.1 kv.2 acc)
          fields acc →
    e ∈ acc ∨ is_object e.2 = false.
Proof.
  induction fields as [|[k x] rest IH]; intros Hall acc pn e Hin; simpl in Hin.
  - by left.
  - apply Forall_cons in Hall as [Hx Hrest].
    apply (IH Hrest) in Hin as [Hin|Hleaf]; [|by right].
    unfold visitProperty in Hin. simpl in Hin.
    destruct (includes (propertiesToIgnore cfg) k); [by left|].
    destruct (is_object x) eqn:Hobj.
    + by apply Hx in Hin.
    + apply elem_of_app in Hin as [Hin|Hin]; [by left|].
      apply list_elem_of_singleton in Hin as ->. by right.
Qed.

Lemma flatten_leaves v acc pn e :
  e ∈ recursivelyGetProperties cfg v acc pn →
  e ∈ acc ∨ is_object e.2 = false.
Proof.
  revert acc pn e.
  induction v as [| | | |elems IH|fields IH] using value_nested_ind;
    intros acc pn e Hin; try (by left).
  - rewrite flatten_arr, flatten_obj in Hin.
    eapply fold_leaves; [|exact Hin].
    by apply (indexed_values
                (λ v, ∀ acc pn e,
                   e ∈ recursivelyGetProperties cfg v acc pn →
                   e ∈ acc ∨ is_object e.2 = false)).
  - rewrite flatten_obj in Hin. eapply fold_leaves; [exact IH|exact Hin].
Qed.

(** *** Ignored properties *)

Lemma includes_true l s : includes l s = true ↔ s ∈ l.
Proof.
  unfold includes. rewrite existsb_exists. split.
  - intros (x & Hin & Heq). apply String.eqb_eq in Heq as ->.
    by apply list_elem_of_In.
  - intros Hin. exists s. split; [by apply list_elem_of_In|].
    apply String.eqb_refl.
Qed.

(** An ignored field adds nothing, whatever it holds. *)
Lemma flatten_ignored_field name v before_ after acc pn :
  includes (propertiesToIgnore cfg) name = true →
  recursivelyGetProperties cfg (JObj (before_ ++ (name, v) :: after)) acc pn =
  recursivelyGetProperties cfg (JObj (before_ ++ after)) acc pn.
Proof.
  intros Hign. rewrite !flatten_obj, !fold_left_app. simpl.
  unfold visitProperty at 2. by rewrite Hign.
Qed.

Lemma firstSegment_dotFree s : dotFree s = true → firstSegment s = s.
Proof.
  induction s as [|c s IH]; simpl; [done|].
  intros [Hc Hs]%andb_prop. destruct (isDot c); [done|]. by rewrite IH.
Qed.

Lemma firstSegment_app_dot p r :
  firstSegment (p +:+ "." +:+ r) = firstSegment p.
Proof.
  induction p as [|c p IH]; simpl; [done|].
  destruct (isDot c); [done|]. by rewrite IH.
Qed.

Lemma dotFree_uint d : dotFree (NilEmpty.string_of_uint d) = true.
Proof. induction d; simpl; auto. Qed.

Lemma dotFree_string_of_nat i : dotFree (string_of_nat i) = true.
Proof.
  unfold string_of_nat, string_of_N, NilZero.string_of_uint.
  destruct (N.to_uint (N.of_nat i)) eqn:E; try apply dotFree_uint. done.
Qed.

Lemma imap_dotFree (f : nat → string) elems :
  (∀ i, dotFree (f i) = true) →
  forallb keysDotFree elems = true →
  forallb (λ kv, dotFree kv.1 && keysDotFree kv.2)
    (imap (λ i e, (f i, e)) elems) = true.
Proof.
  revert f. induction elems as [|e rest IH]; intros f Hf; simpl; [done|].
  intros [He Hrest]%andb_prop. rewrite Hf, He. simpl.
  apply (IH (f ∘ S)); [|done]. intros i. apply Hf.
Qed.

Lemma indexed_dotFree elems :
  forallb keysDotFree elems = true →
  forallb (λ kv, dotFree kv.1 && keysDotFree kv.2) (indexed elems) = true.
Proof. apply imap_dotFree, dotFree_string_of_nat. Qed.

Lemma segmentOk_leaf pn property v :
  includes (propertiesToIgnore cfg) property = false →
  dotFree property = true →
  segmentOk cfg pn (currentPath pn property, v).
Proof.
  intros Hign Hdot. unfold segmentOk, currentPath.
  destruct pn as [p|]; simpl.
  - destruct (negb (String.eqb p "")); simpl.
    + apply firstSegment_app_dot.
    + by rewrite firstSegment_dotFree.
  - by rewrite firstSegment_dotFree.
Qed.

Lemma segmentOk_descend pn property e :
  includes (propertiesToIgnore cfg) property = false →
  dotFree property = true →
  segmentOk cfg (Some (currentPath pn property)) e → segmentOk cfg pn e.
Proof.
  intros Hign Hdot. unfold segmentOk, currentPath.
  assert (Hfalsy :
    (if truthy_str (Some property)
     then firstSegment e.1 = firstSegment (default "" (Some property))
     else includes (propertiesToIgnore cfg) (firstSegment e.1) = false) →
    includes (propertiesToIgnore cfg) (firstSegment e.1) = false).
  { simpl. destruct (String.eqb property ""); simpl; [done|].
    intros ->. by rewrite firstSegment_dotFree. }
  destruct pn as [p|]; [|exact Hfalsy].
  simpl. destruct (String.eqb p "") eqn:Hp; simpl; [exact Hfalsy|].
  destruct p as [|c p]; [done|]. simpl.
  intros ->. destruct (isDot c); [done|]. by rewrite firstSegment_app_dot.
Qed.

Lemma fold_segments fields :
  Forall (λ kv, keysDotFree kv.2 = true → ∀ acc pn e,
            e ∈ recursivelyGetProperties cfg kv.2 acc pn →
            e ∈ acc ∨ segmentOk cfg pn e) fields →
  forallb (λ kv, dotFree kv.1 && keysDotFree kv.2) fields = true →
  ∀ acc pn e,
    e ∈ fold_left
          (λ acc kv,
             visitProperty cfg (recursivelyGetProperties cfg) pn kv.1 kv.2 acc)
          fields acc →
    e ∈ acc ∨ segmentOk cfg pn e.
Proof.
  induction fields as [|[k x] rest IH]; intros Hall Hkeys acc pn e Hin;
    simpl in Hin.
  - by left.
  - apply Forall_cons in Hall as [Hx Hrest]. simpl in Hkeys.
    apply andb_prop in Hkeys as [[Hk Hxk]%andb_prop Hkeys].
    apply (IH Hrest Hkeys) in Hin as [Hin|Hok]; [|by right].
    unfold visitProperty in Hin. simpl in Hin, Hx.
    destruct (includes (propertiesToIgnore cfg) k) eqn:Hign; [by left|].
    destruct (is_object x) eqn:Hobj.
    + apply (Hx Hxk) in Hin as [Hin|Hok]; [by left|].
      right. by eapply segmentOk_descend.
    + apply elem_of_app in Hin as [Hin|Hin]; [by left|].
      apply list_elem_of_singleton in Hin as ->.
      right. by apply segmentOk_leaf.
Qed.

Lemma flatten_segments v :
  keysDotFree v = true → ∀ acc pn e,
  e ∈ recursivelyGetProperties cfg v acc pn → e ∈ acc ∨ segmentOk cfg pn e.
Proof.
  induction v as [| | | |elems IH|fields IH] using value_nested_ind;
    intros Hkeys acc pn e Hin; try (by left).
  - rewrite flatten_arr, flatten_obj in Hin.
    eapply fold_segments; [| |exact Hin].
    + by apply (indexed_values
                  (λ v, keysDotFree v = true → ∀ acc pn e,
                     e ∈ recursivelyGetProperties cfg v acc pn →
                     e ∈ acc ∨ segmentOk cfg pn e)).
    + by apply indexed_dotFree.
  - rewrite flatten_obj in Hin.
    eapply fold_segments; [exact IH|exact Hkeys|exact Hin].
Qed.

(** An array of leaves under a path yields one entry per element. *)
Lemma fold_leaf_elems (f : nat → string) elems acc path :
  Forall (λ e, is_object e = false) elems →
  (∀ i, i < length elems → includes (propertiesToIgnore cfg) (f i) = false) →
  fold_left
    (λ acc kv,
       visitProperty cfg (recursivelyGetProperties cfg) (Some path) kv.1 kv.2
         acc)
    (imap (λ i e, (f i, e)) elems) acc
  = acc ++ imap (λ i e, (currentPath (Some path) (f i), e)) elems.
Proof.
  revert f acc. induction elems as [|e rest IH]; intros f acc Hleaf Hign.
  - simpl. by rewrite app_nil_r.
  - apply Forall_cons in Hleaf as [He Hleaf]. simpl.
    unfold visitProperty at 2. simpl.
    rewrite (Hign 0) by (simpl; lia). rewrite He.
    rewrite (IH (f ∘ S)); [|done|].
    + by rewrite <- app_assoc.
    + intros i Hi. apply Hign. simpl. lia.
Qed.

Lemma flatten_leaf_array property elems :
  includes (propertiesToIgnore cfg) property = false →
  property ≠ "" →
  Forall (λ e, is_object e = false) elems →
  (∀ i, i < length elems →
        includes (propertiesToIgnore cfg) (string_of_nat i) = false) →
  recursivelyGetProperties cfg (JObj [(property, JArr elems)]) [] None
  = imap (λ i e, (property +:+ "." +:+ string_of_nat i, e)) elems.
Proof.
  intros Hign Hne Hleaf Hidx.
  rewrite flatten_obj. cbn [fold_left]. unfold visitProperty.
  cbn [fst snd is_object]. rewrite Hign.
  rewrite flatten_arr, flatten_obj. unfold indexed.
  rewrite fold_leaf_elems by done. cbn [app].
  apply imap_ext. intros i e _. unfold currentPath. simpl.
  apply String.eqb_neq in Hne. by rewrite Hne.
Qed.


Lemma append_assoc a b c : (a +:+ b) +:+ c = a +:+ b +:+ c.
Proof.
  induction a as [|x a IH]; [done|].
  change (String x ((a +:+ b) +:+ c) = String x (a +:+ b +:+ c)).
  by rewrite IH.
Qed.

Lemma prefix_app a s : String.prefix a s = true → ∃ r, s = a +:+ r.
Proof.
  revert s. induction a as [|c a IH]; intros [|d s]; simpl; try done.
  - intros _. by exists "".
  - intros _. by exists (String d s).
  - destruct (ascii_dec c d) as [->|]; [|done].
    intros [r ->]%IH. by exists r.
Qed.

End FlattenFacts.

(** ** The collation *)

Section CollationFacts.

Lemma compareAscii_cases a b :
  (compareAscii a b = (-1)%Z ∧ lexico (collationKey a) (collationKey b)) ∨
  (compareAscii a b = 0%Z ∧ collationKey a = collationKey b) ∨
  (compareAscii a b = 1%Z ∧ lexico (collationKey b) (collationKey a)).
Proof.
  unfold compareAscii.
  destruct (trichotomyT lexico (collationKey a) (collationKey b))
    as [[?|?]|?]; auto.
Qed.

Lemma compareAscii_lt a b :
  (compareAscii a b < 0)%Z ↔ lexico (collationKey a) (collationKey b).
Proof.
  destruct (compareAscii_cases a b) as [[-> H]|[[-> H]|[-> H]]].
  - done.
  - split; [lia|]. rewrite H. intros Hl. by apply irreflexivity in Hl; [|apply _].
  - split; [lia|]. intros Hl.
    assert (lexico (collationKey a) (collationKey a)) as Hl'
      by (by etrans).
    by apply irreflexivity in Hl'; [|apply _].
Qed.

Lemma compareAscii_eq a b :
  compareAscii a b = 0%Z ↔ collationKey a = collationKey b.
Proof.
  destruct (compareAscii_cases a b) as [[-> H]|[[-> H]|[-> H]]].
  - split; [lia|]. intros Heq. rewrite Heq in H.
    by apply irreflexivity in H; [|apply _].
  - done.
  - split; [lia|]. intros Heq. rewrite Heq in H.
    by apply irreflexivity in H; [|apply _].
Qed.

Lemma compareAscii_range a b :
  compareAscii a b = (-1)%Z ∨ compareAscii a b = 0%Z ∨
  compareAscii a b = 1%Z.
Proof. destruct (compareAscii_cases a b) as [[-> _]|[[-> _]|[-> _]]]; auto. Qed.

Lemma compareAscii_flip a b : compareAscii b a = (- compareAscii a b)%Z.
Proof.
  destruct (compareAscii_cases a b) as [[-> H]|[[-> H]|[-> H]]].
  - apply compareAscii_lt in H.
    destruct (compareAscii_cases b a) as [[E H']|[[E H']|[E H']]];
      rewrite E; try done.
    + apply compareAscii_lt in H'.
      assert (compareAscii a a < 0)%Z as Ha
        by (apply compareAscii_lt; etrans; by apply compareAscii_lt).
      apply compareAscii_lt in Ha. by apply irreflexivity in Ha; [|apply _].
    + symmetry in H'. apply compareAscii_eq in H'. lia.
  - symmetry in H. by apply compareAscii_eq in H as ->.
  - apply compareAscii_lt in H.
    destruct (compareAscii_range b a) as [E|[E|E]]; rewrite E; lia.
Qed.

Lemma compareAscii_trans_lt a b c :
  (compareAscii a b < 0)%Z → (compareAscii b c < 0)%Z →
  (compareAscii a c < 0)%Z.
Proof. rewrite !compareAscii_lt. apply transitivity. Qed.

Lemma compareAscii_trans_le a b c :
  (compareAscii a b <= 0)%Z → (compareAscii b c <= 0)%Z →
  (compareAscii a c <= 0)%Z.
Proof.
  intros Hab Hbc.
  destruct (compareAscii_range a b) as [E1|[E1|E1]]; [| |lia];
  destruct (compareAscii_range b c) as [E2|[E2|E2]]; try lia.
  - assert (compareAscii a c < 0)%Z; [|lia].
    apply (compareAscii_trans_lt a b c); lia.
  - apply compareAscii_eq in E2.
    assert (compareAscii a c < 0)%Z; [|lia].
    apply compareAscii_lt. rewrite <- E2. apply compareAscii_lt. lia.
  - apply compareAscii_eq in E1.
    assert (compareAscii a c < 0)%Z; [|lia].
    apply compareAscii_lt. rewrite E1. apply compareAscii_lt. lia.
  - apply compareAscii_eq in E1. apply compareAscii_eq in E2.
    assert (compareAscii a c = 0)%Z; [|lia].
    apply compareAscii_eq. congruence.
Qed.

Lemma compareAscii_consistent : Consistent compareAscii.
Proof.
  split.
  - intros a b. rewrite (compareAscii_flip a b). lia.
  - apply compareAscii_trans_le.
Qed.

End CollationFacts.

(** ** The comparison function *)

Section OrderFacts.
Context (cfg : Config).
Context (localeCompare : string → string → Z).
Context (Hcons : Consistent localeCompare).

Lemma localeCompare_zero_flip a b :
  localeCompare a b = 0%Z ↔ localeCompare b a = 0%Z.
Proof.
  pose proof (compare_flip _ Hcons a b).
  pose proof (compare_flip _ Hcons b a). lia.
Qed.

Lemma localeCompare_refl a : localeCompare a a = 0%Z.
Proof. pose proof (compare_flip _ Hcons a a). lia. Qed.

Lemma localeCompare_trans_lt a b c :
  (localeCompare a b < 0)%Z → (localeCompare b c < 0)%Z →
  (localeCompare a c < 0)%Z.
Proof.
  intros Hab Hbc.
  pose proof (compare_trans _ Hcons a b c).
  pose proof (compare_trans _ Hcons c a b).
  pose proof (compare_flip _ Hcons b c).
  pose proof (compare_flip _ Hcons c b).
  pose proof (compare_flip _ Hcons a c).
  pose proof (compare_flip _ Hcons c a).
  lia.
Qed.

Lemma setAll_lookup props : ∀ index m key n,
  setAll index props m !! key = Some n →
  (m !! key = Some n ∧ key ∉ props) ∨
  (∃ j, props !! j = Some key ∧ n = index + j).
Proof.
  induction props as [|prop rest IH]; intros index m key n H; simpl in H.
  - left. split; [done|]. apply not_elem_of_nil.
  - apply IH in H as [[H Hnot]|(j & Hj & ->)].
    + destruct (decide (prop = key)) as [->|Hne].
      * rewrite lookup_insert_eq in H. injection H as <-.
        right. exists 0. split; [done|lia].
      * rewrite lookup_insert_ne in H by done. left. split; [done|].
        by apply not_elem_of_cons.
    + right. exists (S j). split; [done|lia].
Qed.

Lemma setAll_lookup_None props : ∀ index m key,
  setAll index props m !! key = None ↔ m !! key = None ∧ key ∉ props.
Proof.
  induction props as [|prop rest IH]; intros index m key; simpl.
  - split; [intros ?; split; [done|apply not_elem_of_nil]|by intros [? _]].
  - rewrite IH, not_elem_of_cons. destruct (decide (prop = key)) as [->|Hne].
    + rewrite lookup_insert_eq. naive_solver.
    + rewrite lookup_insert_ne by done. naive_solver.
Qed.

Lemma orderMap_Some key n :
  orderMap cfg !! key = Some n → orderedProperties cfg !! n = Some key.
Proof.
  unfold orderMap. intros [[H _]|(j & Hj & ->)]%setAll_lookup.
  - by rewrite lookup_empty in H.
  - done.
Qed.

Lemma orderMap_None key :
  orderMap cfg !! key = None ↔ key ∉ orderedProperties cfg.
Proof.
  unfold orderMap. rewrite setAll_lookup_None, lookup_empty. naive_solver.
Qed.

Lemma sortKey_ge key : (-1 <= sortKey cfg key)%Z.
Proof. unfold sortKey. destruct (orderMap cfg !! key); lia. Qed.

(** A path has no sort key exactly when it is not a priority key. *)
Lemma sortKey_none key :
  sortKey cfg key = (-1)%Z ↔ key ∉ orderedProperties cfg.
Proof.
  rewrite <- orderMap_None. unfold sortKey.
  destruct (orderMap cfg !! key); split; intros H; (done || lia).
Qed.

Lemma sortKey_inj a b :
  sortKey cfg a ≠ (-1)%Z → sortKey cfg a = sortKey cfg b → a = b.
Proof.
  unfold sortKey.
  destruct (orderMap cfg !! a) as [i|] eqn:Ha; [|done].
  destruct (orderMap cfg !! b) as [j|] eqn:Hb; [|lia].
  intros _ Heq. assert (i = j) as -> by lia.
  apply orderMap_Some in Ha, Hb. congruence.
Qed.

Lemma truthy_str_nonempty s : s ≠ "" → truthy_str (Some s) = true.
Proof. intros H. simpl. by apply negb_true_iff, String.eqb_neq. Qed.

Lemma comparator_nonempty (a b : entry) :
  a.1 ≠ "" → b.1 ≠ "" →
  comparator cfg localeCompare a b = inr (compareKeys cfg localeCompare a.1 b.1).
Proof.
  intros Ha Hb. unfold compareKeys, comparator. simpl.
  apply String.eqb_neq in Ha, Hb. rewrite Ha, Hb. simpl.
  repeat case_match; done.
Qed.

Lemma compareKeys_unfold a b :
  a ≠ "" → b ≠ "" →
  compareKeys cfg localeCompare a b =
    if negb (sortKey cfg a =? -1)%Z && negb (sortKey cfg b =? -1)%Z
    then (sortKey cfg a - sortKey cfg b)%Z
    else if negb (sortKey cfg a =? -1)%Z then (-1)%Z
    else if negb (sortKey cfg b =? -1)%Z then 1%Z
    else localeCompare a b.
Proof.
  intros Ha Hb. unfold compareKeys, comparator. simpl.
  apply String.eqb_neq in Ha, Hb. rewrite Ha, Hb. simpl.
  destruct (negb (sortKey cfg a =? -1)%Z), (negb (sortKey cfg b =? -1)%Z);
    reflexivity.
Qed.

Ltac unfold_compareKeys :=
  rewrite ?compareKeys_unfold by done;
  repeat match goal with
    | |- context [(sortKey cfg ?k =? -1)%Z] =>
        destruct (Z.eqb_spec (sortKey cfg k) (-1)); simpl
    | H : context [(sortKey cfg ?k =? -1)%Z] |- _ =>
        destruct (Z.eqb_spec (sortKey cfg k) (-1)); simpl in H
    end.

Lemma compareKeys_flip a b :
  a ≠ "" → b ≠ "" →
  ((compareKeys cfg localeCompare a b < 0)%Z ↔ (0 < compareKeys cfg localeCompare b a)%Z) ∧
  (compareKeys cfg localeCompare a b = 0%Z ↔ compareKeys cfg localeCompare b a = 0%Z).
Proof.
  intros Ha Hb. pose proof (compare_flip _ Hcons a b).
  pose proof (compare_flip _ Hcons b a).
  pose proof (sortKey_ge a). pose proof (sortKey_ge b).
  unfold_compareKeys; lia.
Qed.

Lemma compareKeys_trans_lt a b c :
  a ≠ "" → b ≠ "" → c ≠ "" →
  (compareKeys cfg localeCompare a b < 0)%Z → (compareKeys cfg localeCompare b c < 0)%Z →
  (compareKeys cfg localeCompare a c < 0)%Z.
Proof.
  intros Ha Hb Hc. pose proof (localeCompare_trans_lt a b c).
  pose proof (sortKey_ge a). pose proof (sortKey_ge b).
  pose proof (sortKey_ge c).
  unfold_compareKeys; lia.
Qed.

Lemma compareKeys_trans_le a b c :
  a ≠ "" → b ≠ "" → c ≠ "" →
  (compareKeys cfg localeCompare a b <= 0)%Z → (compareKeys cfg localeCompare b c <= 0)%Z →
  (compareKeys cfg localeCompare a c <= 0)%Z.
Proof.
  intros Ha Hb Hc. pose proof (compare_trans _ Hcons a b c).
  pose proof (sortKey_ge a). pose proof (sortKey_ge b).
  pose proof (sortKey_ge c).
  unfold_compareKeys; lia.
Qed.

(** Two paths compare equal only when they are the same priority key or
    when neither is a priority key and the collation makes no
    difference between them. *)
Lemma compareKeys_zero a b :
  a ≠ "" → b ≠ "" → compareKeys cfg localeCompare a b = 0%Z →
  a = b ∨
  ((a ∉ orderedProperties cfg) ∧ (b ∉ orderedProperties cfg) ∧
   localeCompare a b = 0%Z).
Proof.
  intros Ha Hb. pose proof (sortKey_inj a b) as Hinj.
  pose proof (sortKey_none a). pose proof (sortKey_none b).
  unfold_compareKeys; intros Hz; try lia.
  - right. naive_solver.
  - left. apply Hinj; [done|lia].
Qed.

Lemma compareKeys_zero_iff a b :
  a ≠ "" → b ≠ "" →
  compareKeys cfg localeCompare a b = 0%Z ↔
  a = b ∨
  ((a ∉ orderedProperties cfg) ∧ (b ∉ orderedProperties cfg) ∧
   localeCompare a b = 0%Z).
Proof.
  intros Ha Hb. split; [by apply compareKeys_zero|].
  intros [<-|(Hna & Hnb & Hz)].
  - destruct (compareKeys_flip a a Ha Ha) as [Hlt _]. lia.
  - apply sortKey_none in Hna, Hnb.
    rewrite compareKeys_unfold by done. rewrite Hna, Hnb. simpl. exact Hz.
Qed.

End OrderFacts.

(** ** Sorting with a comparison function that is a total preorder *)

Section SortFacts.
Context {A : Type} (compareFn : A → A → result Z).
Context (ok : A → Prop) (cmp : A → A → Z).
Context (Hcmp : ∀ x y, ok x → ok y → compareFn x y = inr (cmp x y)).
Context (Htotal : ∀ x y, ok x → ok y → (0 < cmp x y)%Z → (cmp y x <= 0)%Z).
Context (Htrans : ∀ x y z, ok x → ok y → ok z →
           (cmp x y <= 0)%Z → (cmp y z <= 0)%Z → (cmp x z <= 0)%Z).

Lemma insertSorted_spec x l :
  ok x → Forall ok l → StronglySorted (cmp_le cmp) l →
  ∃ out, insertSorted compareFn x l = inr out ∧ out ≡ₚ x :: l ∧
         StronglySorted (cmp_le cmp) out.
Proof.
  intros Hx. induction l as [|y l IH]; intros Hok Hsorted; simpl.
  - exists [x]. split; [done|]. split; [done|]. repeat constructor.
  - apply Forall_cons in Hok as [Hy Hok].
    apply StronglySorted_inv in Hsorted as [Hsorted Hall].
    rewrite (Hcmp x y Hx Hy). simpl.
    destruct (Z.ltb_spec 0 (cmp x y)) as [Hgt|Hle].
    + destruct (IH Hok Hsorted) as (out & -> & Hperm & Hs). simpl.
      exists (y :: out). split; [done|]. split.
      * rewrite Hperm. apply perm_swap.
      * constructor; [done|]. rewrite Hperm. constructor; [|done].
        by apply Htotal.
    + exists (x :: y :: l). split; [done|]. split; [done|].
      constructor; [by constructor|]. constructor; [done|].
      rewrite Forall_forall in Hall, Hok. apply Forall_forall.
      intros z Hz.
      apply (Htrans x y z); [done|done|by apply Hok|done|by apply Hall].
Qed.

Lemma sort_spec l :
  Forall ok l →
  ∃ out, sort compareFn l = inr out ∧ out ≡ₚ l ∧ StronglySorted (cmp_le cmp) out.
Proof.
  induction l as [|x l IH]; intros Hok; simpl.
  - exists []. split; [done|]. split; [done|]. constructor.
  - apply Forall_cons in Hok as [Hx Hok].
    destruct (IH Hok) as (sorted & -> & Hperm & Hs). simpl.
    destruct (insertSorted_spec x sorted) as (out & Hout & Hperm' & Hs');
      [done|by rewrite Hperm|done|].
    exists out. split; [done|]. split; [|done]. by rewrite Hperm', Hperm.
Qed.

(** The sort returns when the comparison function does. *)
Lemma insertSorted_returns x l :
  ok x → Forall ok l →
  ∃ out, insertSorted compareFn x l = inr out ∧ out ≡ₚ x :: l.
Proof.
  intros Hx. induction l as [|y l IH]; intros Hok; simpl.
  - by exists [x].
  - apply Forall_cons in Hok as [Hy Hok].
    rewrite (Hcmp x y Hx Hy). simpl.
    destruct (0 <? cmp x y)%Z.
    + destruct (IH Hok) as (out & -> & Hperm). simpl.
      exists (y :: out). split; [done|]. rewrite Hperm. apply perm_swap.
    + by exists (x :: y :: l).
Qed.

Lemma sort_returns l :
  Forall ok l → ∃ out, sort compareFn l = inr out ∧ out ≡ₚ l.
Proof.
  induction l as [|x l IH]; intros Hok; simpl.
  - by exists [].
  - apply Forall_cons in Hok as [Hx Hok].
    destruct (IH Hok) as (sorted & -> & Hperm). simpl.
    destruct (insertSorted_returns x sorted) as (out & Hout & Hperm');
      [done|by rewrite Hperm|].
    exists out. split; [done|]. by rewrite Hperm', Hperm.
Qed.

Lemma insertSorted_perm x l out :
  insertSorted compareFn x l = inr out → out ≡ₚ x :: l.
Proof.
  revert out. induction l as [|y l IH]; intros out; simpl.
  - by intros [= <-].
  - destruct (compareFn x y) as [e|c]; simpl; [done|].
    destruct (0 <? c)%Z.
    + destruct (insertSorted compareFn x l) as [e|l'']; simpl; [done|].
      intros [= <-]. rewrite (IH l'' eq_refl). apply perm_swap.
    + by intros [= <-].
Qed.

Lemma sort_perm l out : sort compareFn l = inr out → out ≡ₚ l.
Proof.
  revert out. induction l as [|x l IH]; intros out; simpl.
  - by intros [= <-].
  - destruct (sort compareFn l) as [e|sorted]; simpl; [done|].
    intros Hins%insertSorted_perm. by rewrite Hins, (IH sorted eq_refl).
Qed.

(** The sort throws nothing but what the comparison function throws. *)
Lemma insertSorted_throws (T : exn → Prop) x l e :
  (∀ a b e, compareFn a b = inl e → T e) →
  insertSorted compareFn x l = inl e → T e.
Proof.
  intros Hcmp'. induction l as [|y l IH]; simpl; [done|].
  destruct (compareFn x y) as [e'|c] eqn:Hc; simpl.
  - intros [= <-]. by eapply Hcmp'.
  - destruct (0 <? c)%Z; [|done].
    destruct (insertSorted compareFn x l) as [e'|l'']; simpl; [|done].
    intros [= <-]. by apply IH.
Qed.

Lemma sort_throws (T : exn → Prop) l e :
  (∀ a b e, compareFn a b = inl e → T e) →
  sort compareFn l = inl e → T e.
Proof.
  intros Hcmp'. induction l as [|x l IH]; simpl; [done|].
  destruct (sort compareFn l) as [e'|sorted]; simpl.
  - intros [= <-]. by apply IH.
  - by apply insertSorted_throws.
Qed.

End SortFacts.

(** ** Sorted lists *)

Section SortedLists.
Context {A : Type}.

Lemma StronglySorted_sublist (R : relation A) l1 l2 :
  l1 `sublist_of` l2 → StronglySorted R l2 → StronglySorted R l1.
Proof.
  induction 1 as [|x l1 l2 Hsub IH|x l1 l2 Hsub IH]; intros Hs.
  - constructor.
  - apply StronglySorted_inv in Hs as [Hs Hall]. constructor; [auto|].
    rewrite Forall_forall in Hall. apply Forall_forall. intros y Hy.
    apply Hall. by eapply elem_of_sublist.
  - apply StronglySorted_inv in Hs as [Hs _]. auto.
Qed.

Lemma StronglySorted_fmap_2 {B} (f : A → B) (R : relation B) l :
  StronglySorted (λ x y, R (f x) (f y)) l → StronglySorted R (f <$> l).
Proof.
  induction 1 as [|x l Hs IH Hall]; simpl; constructor; [done|].
  by apply Forall_fmap.
Qed.

Lemma StronglySorted_on (P : A → Prop) (R R' : relation A) l :
  (∀ x y, P x → P y → R x y → R' x y) →
  Forall P l → StronglySorted R l → StronglySorted R' l.
Proof.
  intros Himpl Hall Hs. induction Hs as [|x l Hs IH Hx]; [constructor|].
  apply Forall_cons in Hall as [Hpx Hall]. constructor; [auto|].
  rewrite Forall_forall in Hx, Hall. apply Forall_forall. intros y Hy.
  apply Himpl; auto.
Qed.

(** In a sorted list the elements of a class closed downwards come first. *)
Lemma StronglySorted_split (P : A → Prop) `{!∀ x, Decision (P x)}
    (R : relation A) l :
  (∀ x y, R x y → P y → P x) →
  StronglySorted R l →
  l = filter P l ++ filter (λ x, ¬ P x) l.
Proof.
  intros Hdown. induction 1 as [|x l Hs IH Hall].
  - done.
  - destruct (decide (P x)) as [Hp|Hn].
    + rewrite filter_cons_True, (filter_cons_False (λ x, ¬ P x)) by auto.
      simpl. by rewrite <- IH.
    + rewrite filter_cons_False, (filter_cons_True (λ x, ¬ P x)) by auto.
      assert (Hnone : Forall (λ y, ¬ P y) l).
      { rewrite Forall_forall in Hall. apply Forall_forall.
        intros y Hy Hpy. apply Hn. eapply Hdown; eauto. }
      clear IH Hs Hall.
      assert (filter P l = [] ∧ filter (λ x, ¬ P x) l = l) as [-> ->];
        [|done].
      induction Hnone as [|y l Hy Hl [IH1 IH2]]; [done|].
      rewrite filter_cons_False, (filter_cons_True (λ x, ¬ P x)) by auto.
      by rewrite IH1, IH2.
Qed.

End SortedLists.

(** ** Filling the result object *)

Section FillFacts.

Lemma replaceProperty_keys key v fields :
  (replaceProperty key v fields).*1 = fields.*1.
Proof.
  induction fields as [|[k x] rest IH]; [done|]. simpl.
  destruct (String.eqb k key); [done|]. rewrite !fmap_cons. by f_equal.
Qed.

Lemma replaceProperty_elem key v fields kv :
  kv ∈ replaceProperty key v fields → kv ∈ fields ∨ kv = (key, v).
Proof.
  induction fields as [|[k x] rest IH]; simpl; [by left|].
  destruct (String.eqb_spec k key) as [->|Hne].
  - intros [->|Hin]%elem_of_cons; [by right|]. left. by right.
  - intros [->|Hin]%elem_of_cons; [left; by left|].
    destruct (IH Hin) as [?|?]; [left; by right|by right].
Qed.

Lemma insertIndexed_perm n key v fields :
  insertIndexed n key v fields ≡ₚ (key, v) :: fields.
Proof.
  induction fields as [|[k x] rest IH]; simpl; [done|].
  destruct (arrayIndex k) as [m|]; [|done].
  destruct (m <? n)%N; [|done]. rewrite IH. apply perm_swap.
Qed.

Lemma defineOwn_keys fields key v k :
  k ∈ (defineOwn fields key v).*1 ↔ k = key ∨ k ∈ fields.*1.
Proof.
  unfold defineOwn. destruct (includes fields.*1 key) eqn:Hin.
  - rewrite replaceProperty_keys. apply includes_true in Hin.
    split; [by right|]. by intros [->|?].
  - destruct (arrayIndex key) as [n|].
    + rewrite insertIndexed_perm, fmap_cons, elem_of_cons. done.
    + rewrite fmap_app, elem_of_app. simpl.
      rewrite list_elem_of_singleton. tauto.
Qed.

Lemma defineOwn_elem fields key v kv :
  kv ∈ defineOwn fields key v → kv ∈ fields ∨ kv = (key, v).
Proof.
  unfold defineOwn. destruct (includes fields.*1 key).
  - apply replaceProperty_elem.
  - destruct (arrayIndex key) as [n|].
    + rewrite insertIndexed_perm, elem_of_cons. tauto.
    + rewrite elem_of_app, list_elem_of_singleton. tauto.
Qed.

Lemma defineOwn_NoDup fields key v :
  NoDup fields.*1 → NoDup (defineOwn fields key v).*1.
Proof.
  intros Hnd. unfold defineOwn.
  destruct (includes fields.*1 key) eqn:Hin.
  - by rewrite replaceProperty_keys.
  - assert (key ∉ fields.*1) as Hnot.
    { intros Hk. apply includes_true in Hk. congruence. }
    destruct (arrayIndex key) as [n|].
    + rewrite insertIndexed_perm, fmap_cons. by apply NoDup_cons.
    + rewrite fmap_app. apply NoDup_app. split; [done|]. split.
      * intros k Hk ->%list_elem_of_singleton. done.
      * apply NoDup_singleton.
Qed.

Lemma lookupField_None key fields :
  key ∉ fields.*1 → lookupField key fields = None.
Proof.
  induction fields as [|[k x] rest IH]; [done|].
  rewrite fmap_cons, not_elem_of_cons. simpl. intros [Hne Hrest].
  destruct (String.eqb_spec k key); [congruence|auto].
Qed.

(** Reading a property back after it was assigned. *)
Lemma lookupField_defineOwn fields key v :
  lookupField key (defineOwn fields key v) = Some v.
Proof.
  unfold defineOwn. destruct (includes fields.*1 key) eqn:Hin.
  - apply includes_true in Hin.
    induction fields as [|[k x] rest IH]; [by apply elem_of_nil in Hin|].
    simpl. destruct (String.eqb_spec k key) as [->|Hne]; simpl.
    + by rewrite String.eqb_refl.
    + apply String.eqb_neq in Hne. rewrite Hne. apply IH.
      rewrite fmap_cons in Hin. apply elem_of_cons in Hin as [Heq|?]; [|done].
      simpl in Heq. apply String.eqb_neq in Hne. congruence.
  - assert (key ∉ fields.*1) as Hnot.
    { intros Hk. apply includes_true in Hk. congruence. }
    clear Hin. destruct (arrayIndex key) as [n|].
    + induction fields as [|[k x] rest IH]; simpl.
      { by rewrite String.eqb_refl. }
      rewrite fmap_cons, not_elem_of_cons in Hnot. destruct Hnot as [Hne Hrest].
      simpl in Hne.
      assert (String.eqb k key = false) as Hk by (apply String.eqb_neq; congruence).
      destruct (arrayIndex k) as [m|]; [destruct (m <? n)%N|]; simpl;
        rewrite ?Hk, ?String.eqb_refl; auto.
    + induction fields as [|[k x] rest IH]; simpl.
      { by rewrite String.eqb_refl. }
      rewrite fmap_cons, not_elem_of_cons in Hnot. destruct Hnot as [Hne Hrest].
      simpl in Hne.
      assert (String.eqb k key = false) as Hk by (apply String.eqb_neq; congruence).
      rewrite Hk. auto.
Qed.

(** The other properties read as before. *)
Lemma lookupField_defineOwn_ne fields key v other :
  other ≠ key →
  lookupField other (defineOwn fields key v) = lookupField other fields.
Proof.
  intros Hne. apply String.eqb_neq in Hne.
  assert (Hne' : String.eqb key other = false).
  { apply String.eqb_neq. apply String.eqb_neq in Hne. congruence. }
  unfold defineOwn. destruct (includes fields.*1 key).
  - induction fields as [|[k x] rest IH]; [done|]. simpl.
    destruct (String.eqb_spec k key) as [->|Hk]; simpl.
    + by rewrite Hne'.
    + by rewrite IH.
  - destruct (arrayIndex key) as [n|].
    + induction fields as [|[k x] rest IH]; simpl.
      { by rewrite Hne'. }
      destruct (arrayIndex k) as [m|]; [destruct (m <? n)%N|]; simpl;
        rewrite ?Hne', ?IH; done.
    + induction fields as [|[k x] rest IH]; simpl.
      { by rewrite Hne'. }
      by rewrite IH.
Qed.

(** An assignment to a key other than [__proto__] defines an own
    property. *)
Lemma setProperty_ordinary obj key v :
  key ≠ "__proto__" →
  setProperty obj key v =
  {| props := defineOwn (props obj) key v;
     protoAccessor := protoAccessor obj |}.
Proof.
  intros Hne. apply String.eqb_neq in Hne. unfold setProperty.
  by rewrite Hne.
Qed.

(** Whatever the key, the own properties stay or one is defined. *)
Lemma setProperty_props obj key v :
  (key = "__proto__" ∧ props (setProperty obj key v) = props obj) ∨
  props (setProperty obj key v) = defineOwn (props obj) key v.
Proof.
  unfold setProperty.
  destruct (String.eqb_spec key "__proto__") as [->|Hne]; simpl; [|by right].
  destruct (protoAccessor obj && negb (includes (props obj).*1 "__proto__"));
    simpl; [by left|by right].
Qed.

Lemma fillResult_spec l : ∀ res,
  Forall (λ e : entry,
            e.1 ≠ "" ∧ arrayIndex e.1 = None ∧ e.1 ≠ "__proto__") l →
  NoDup (props res).*1 →
  ∃ out extra,
    fillResult l res = inr out ∧
    (props out).*1 = (props res).*1 ++ extra ∧
    extra `sublist_of` l.*1 ∧
    NoDup (props out).*1 ∧
    (∀ k, k ∈ l.*1 → k ∈ (props out).*1) ∧
    (∀ kv, kv ∈ props out → kv ∈ props res ∨ kv ∈ l).
Proof.
  induction l as [|[key v] rest IH]; intros res Hok Hnd; simpl.
  - exists res, []. rewrite app_nil_r.
    repeat split; auto using sublist_nil. by intros k Hk%elem_of_nil.
  - apply Forall_cons in Hok as [(Hkey & Hidx & Hproto) Hok].
    simpl in Hkey, Hidx, Hproto.
    apply String.eqb_neq in Hkey. rewrite Hkey. simpl.
    rewrite setProperty_ordinary by done.
    unfold defineOwn. destruct (includes (props res).*1 key) eqn:Hin.
    + apply includes_true in Hin.
      destruct (IH {| props := replaceProperty key v (props res);
                      protoAccessor := protoAccessor res |} Hok)
        as (out & extra & Hfill & Hkeys & Hsub & Hnd' & Hcov & Hfrom).
      { simpl. by rewrite replaceProperty_keys. }
      simpl in Hkeys, Hfrom. rewrite replaceProperty_keys in Hkeys.
      exists out, extra. split; [done|]. split; [done|].
      split; [by apply sublist_cons|]. split; [done|]. split.
      * intros k [->|Hk]%elem_of_cons; [|auto].
        rewrite Hkeys. apply elem_of_app. by left.
      * intros kv Hkv. destruct (Hfrom kv Hkv) as [Hr|Hr].
        -- apply replaceProperty_elem in Hr as [?| ->]; [by left|].
           right. by left.
        -- right. by right.
    + rewrite Hidx.
      assert (key ∉ (props res).*1) as Hnot.
      { intros Hk. apply includes_true in Hk. congruence. }
      destruct (IH {| props := props res ++ [(key, v)];
                      protoAccessor := protoAccessor res |} Hok)
        as (out & extra & Hfill & Hkeys & Hsub & Hnd' & Hcov & Hfrom).
      { simpl. rewrite fmap_app. apply NoDup_app. split; [done|]. split.
        - intros k Hk ->%list_elem_of_singleton. done.
        - apply NoDup_singleton. }
      simpl in Hkeys, Hfrom.
      rewrite fmap_app, <- app_assoc in Hkeys. simpl in Hkeys.
      exists out, (key :: extra). split; [done|]. split; [done|].
      split; [by apply sublist_skip|]. split; [done|]. split.
      * intros k [->|Hk]%elem_of_cons; [|auto].
        rewrite Hkeys. apply elem_of_app. right. by left.
      * intros kv Hkv. destruct (Hfrom kv Hkv) as [Hr|Hr].
        -- apply elem_of_app in Hr as [?| ->%list_elem_of_singleton];
             [by left|]. right. by left.
        -- right. by right.
Qed.

Lemma fillResult_empty_path l : ∀ res (e : entry),
  e ∈ l → e.1 = "" →
  fillResult l res = inl (Error "Invalid metadata -- key is undefined").
Proof.
  induction l as [|[key v] rest IH]; intros res e Hin He.
  - by apply elem_of_nil in Hin.
  - simpl. destruct (String.eqb_spec key "") as [->|Hne]; [done|]. simpl.
    apply elem_of_cons in Hin as [->|Hin]; [done|]. by eapply IH.
Qed.

(** Without a condition on the keys: the loop returns when no path is
    empty; the keys of the object are paths of the entries, each once, and
    every path other than [__proto__] is a key. *)
Lemma fillResult_general l : ∀ res,
  Forall (λ e : entry, e.1 ≠ "") l →
  NoDup (props res).*1 →
  ∃ out,
    fillResult l res = inr out ∧
    NoDup (props out).*1 ∧
    (∀ k, k ∈ (props out).*1 → k ∈ (props res).*1 ∨ k ∈ l.*1) ∧
    (∀ k, k ≠ "__proto__" →
          k ∈ (props res).*1 ∨ k ∈ l.*1 → k ∈ (props out).*1) ∧
    (∀ kv, kv ∈ props out → kv ∈ props res ∨ kv ∈ l).
Proof.
  induction l as [|[key v] rest IH]; intros res Hok Hnd; simpl.
  - exists res. split; [done|]. split; [done|].
    split; [by left|]. split; [|by left].
    by intros k _ [?|?%elem_of_nil].
  - apply Forall_cons in Hok as [Hkey Hok]. simpl in Hkey.
    apply String.eqb_neq in Hkey. rewrite Hkey. simpl.
    destruct (IH (setProperty res key v) Hok)
      as (out & Hfill & Hnd' & Hsub & Hcov & Hfrom).
    { destruct (setProperty_props res key v) as [[_ ->]| ->];
        [done|by apply defineOwn_NoDup]. }
    exists out. split; [done|]. split; [done|]. split; [|split].
    + intros k Hk. apply Hsub in Hk as [Hk|Hk]; [|right; by right].
      destruct (setProperty_props res key v) as [[_ Hp]|Hp];
        rewrite Hp in Hk; [by left|].
      apply defineOwn_keys in Hk as [->|?]; [right; by left|by left].
    + intros k Hk Hin. apply Hcov; [done|].
      destruct Hin as [Hin|[->|Hin]%elem_of_cons]; [| |by right]; left.
      * destruct (setProperty_props res key v) as [[_ ->]| ->]; [done|].
        apply defineOwn_keys. by right.
      * rewrite setProperty_ordinary by done. simpl.
        apply defineOwn_keys. by left.
    + intros kv Hkv. apply Hfrom in Hkv as [Hkv|Hkv]; [|right; by right].
      destruct (setProperty_props res key v) as [[_ Hp]|Hp];
        rewrite Hp in Hkv; [by left|].
      apply defineOwn_elem in Hkv as [?| ->]; [by left|right; by left].
Qed.

(** While [__proto__] is only assigned primitive values, the accessor of
    [Object.prototype] takes every such assignment: no property of that
    name is created. *)
Lemma fillResult_proto_dropped l : ∀ res out,
  Forall (λ e : entry, e.1 = "__proto__" → isPrimitive e.2 = true) l →
  protoAccessor res = true → "__proto__" ∉ (props res).*1 →
  fillResult l res = inr out →
  "__proto__" ∉ (props out).*1.
Proof.
  induction l as [|[key v] rest IH]; intros res out Hok Hacc Hnot; simpl.
  - by intros [= <-].
  - apply Forall_cons in Hok as [Hv Hok]. simpl in Hv.
    destruct (negb (negb (String.eqb key ""))); simpl; [done|].
    apply IH; [done| |].
    + unfold setProperty.
      destruct (String.eqb_spec key "__proto__") as [->|Hne]; simpl; [|done].
      rewrite Hacc. simpl.
      destruct (includes (props res).*1 "__proto__"); simpl; [done|].
      specialize (Hv eq_refl). by destruct v.
    + unfold setProperty.
      destruct (String.eqb_spec key "__proto__") as [->|Hne]; simpl.
      * rewrite Hacc. simpl.
        assert (includes (props res).*1 "__proto__" = false) as ->; [|done].
        destruct (includes (props res).*1 "__proto__") eqn:E; [|done].
        by apply includes_true in E.
      * rewrite defineOwn_keys. intros [?|?]; congruence.
Qed.

End FillFacts.

(** ** The order of the metadata *)

Section OrderTheorems.
Context (cfg : Config).
Context (localeCompare : string → string → Z).
Context (Hcons : Consistent localeCompare).

Lemma before_compareKeys (a b : entry) :
  a.1 ≠ "" → b.1 ≠ "" →
  before cfg localeCompare a b ↔ (compareKeys cfg localeCompare a.1 b.1 < 0)%Z.
Proof.
  intros Ha Hb. unfold before. rewrite comparator_nonempty by done.
  split; [intros (z & [= <-] & Hz); done|eauto].
Qed.

Lemma StronglySorted_NoDup {A} (R : relation A) (l : list A) :
  NoDup l → StronglySorted R l → StronglySorted (λ x y, R x y ∧ x ≠ y) l.
Proof.
  intros Hnd Hs. induction Hs as [|x l Hs IH Hall]; [constructor|].
  apply NoDup_cons in Hnd as [Hx Hnd]. constructor; [auto|].
  rewrite Forall_forall in Hall. apply Forall_forall. intros y Hy.
  split; [auto|]. by intros ->.
Qed.

Lemma priority_closed_down x y :
  x ≠ "" ∧ y ≠ "" ∧ cmp_le (compareKeys cfg localeCompare) x y →
  y ∈ orderedProperties cfg → x ∈ orderedProperties cfg.
Proof.
  intros (Hx & Hy & Hle) Hin. unfold cmp_le in Hle.
  destruct (decide (x ∈ orderedProperties cfg)) as [|Hnot]; [done|].
  apply sortKey_none in Hnot.
  assert (sortKey cfg y ≠ (-1)%Z) as Hy' by (by rewrite sortKey_none; auto).
  rewrite compareKeys_unfold in Hle by done.
  destruct (Z.eqb_spec (sortKey cfg x) (-1)); [|done].
  destruct (Z.eqb_spec (sortKey cfg y) (-1)); [done|]. simpl in Hle. lia.
Qed.

Lemma orderMetadata_spec metadata :
  (∀ e, e ∈ metadata →
        e.1 ≠ "" ∧ arrayIndex e.1 = None ∧ e.1 ≠ "__proto__") →
  ∃ ordered pri rest,
    orderMetadata cfg localeCompare metadata = inr ordered ∧
    ordered.*1 = pri ++ rest ∧
    NoDup ordered.*1 ∧
    (∀ k, k ∈ ordered.*1 ↔ k ∈ metadata.*1) ∧
    (∀ kv, kv ∈ ordered → kv ∈ metadata) ∧
    (∀ k, k ∈ pri → k ∈ orderedProperties cfg) ∧
    (∀ k, k ∈ rest → k ∉ orderedProperties cfg) ∧
    StronglySorted (λ k1 k2, (sortKey cfg k1 < sortKey cfg k2)%Z) pri ∧
    StronglySorted (λ k1 k2, (localeCompare k1 k2 <= 0)%Z) rest.
Proof.
  intros Hok.
  destruct (sort_spec (comparator cfg localeCompare) (λ e : entry, e.1 ≠ "")
              (λ a b, compareKeys cfg localeCompare a.1 b.1)) with (l := metadata)
    as (sorted & Hsort & Hperm & Hs).
  { intros x y Hx Hy. by apply comparator_nonempty. }
  { intros x y Hx Hy Hgt.
    destruct (compareKeys_flip cfg localeCompare Hcons y.1 x.1 Hy Hx)
      as [Hlt _].
    apply Z.lt_le_incl, Hlt, Hgt. }
  { intros x y z Hx Hy Hz. by apply compareKeys_trans_le. }
  { apply Forall_forall. intros e He. by apply Hok. }
  assert (Hok' : Forall (λ e : entry,
                    e.1 ≠ "" ∧ arrayIndex e.1 = None ∧ e.1 ≠ "__proto__")
                   sorted).
  { apply Forall_forall. intros e He. apply Hok. by rewrite <- Hperm. }
  destruct (fillResult_spec sorted emptyObject Hok')
    as (res & extra & Hfill & Hkeys & Hsub & Hnd & Hcov & Hfrom).
  { apply NoDup_nil_2. }
  simpl in Hkeys. subst extra. set (ordered := props res) in *.
  assert (Hne : Forall (λ k, k ≠ "") ordered.*1).
  { apply Forall_forall. intros k Hk.
    eapply elem_of_sublist in Hk; [|exact Hsub].
    apply list_elem_of_fmap in Hk as (e & -> & He).
    rewrite Forall_forall in Hok'. by apply Hok'. }
  assert (Hsk : StronglySorted
                  (λ x y, x ≠ "" ∧ y ≠ "" ∧
                          cmp_le (compareKeys cfg localeCompare) x y)
                  ordered.*1).
  { eapply (StronglySorted_on (λ k, k ≠ "")); [|exact Hne|].
    - intros x y Hx Hy Hle. repeat split; [done|done|exact Hle].
    - eapply StronglySorted_sublist; [exact Hsub|].
      by apply StronglySorted_fmap_2. }
  exists ordered,
    (filter (λ k, k ∈ orderedProperties cfg) ordered.*1),
    (filter (λ k, ¬ (k ∈ orderedProperties cfg)) ordered.*1).
  split. { unfold orderMetadata. rewrite Hsort. simpl. by rewrite Hfill. }
  split.
  { eapply StronglySorted_split; [|exact Hsk].
    intros x y. apply priority_closed_down. }
  split; [done|]. split.
  { intros k. rewrite <- Hperm. split; [|apply Hcov].
    intros Hk. by eapply elem_of_sublist. }
  split.
  { intros kv Hkv. rewrite <- Hperm.
    destruct (Hfrom kv Hkv) as [Hnil|?]; [|done]. by apply elem_of_nil in Hnil. }
  split. { by intros k [Hk _]%list_elem_of_filter. }
  split. { by intros k [Hk _]%list_elem_of_filter. }
  split.
  - eapply (StronglySorted_on
              (λ k, k ∈ orderedProperties cfg)
              (λ x y, (x ≠ "" ∧ y ≠ "" ∧
                       cmp_le (compareKeys cfg localeCompare) x y)
                      ∧ x ≠ y)).
    + intros x y Hx Hy [(Hxe & Hye & Hle) Hxy]. unfold cmp_le in Hle.
      assert (sortKey cfg x ≠ (-1)%Z) as Hx'
        by (by rewrite sortKey_none; auto).
      assert (sortKey cfg y ≠ (-1)%Z) as Hy'
        by (by rewrite sortKey_none; auto).
      rewrite compareKeys_unfold in Hle by done.
      destruct (Z.eqb_spec (sortKey cfg x) (-1)); [done|].
      destruct (Z.eqb_spec (sortKey cfg y) (-1)); [done|]. simpl in Hle.
      destruct (decide (sortKey cfg x = sortKey cfg y)) as [Heq|]; [|lia].
      by apply sortKey_inj in Heq.
    + apply Forall_forall. by intros k [Hk _]%list_elem_of_filter.
    + eapply StronglySorted_sublist; [apply sublist_filter|].
      by apply StronglySorted_NoDup.
  - eapply (StronglySorted_on
              (λ k, ¬ (k ∈ orderedProperties cfg))
              (λ x y, x ≠ "" ∧ y ≠ "" ∧
                      cmp_le (compareKeys cfg localeCompare) x y)).
    + intros x y Hx%sortKey_none Hy%sortKey_none (Hxe & Hye & Hle).
      unfold cmp_le in Hle. rewrite compareKeys_unfold in Hle by done.
      rewrite Hx, Hy in Hle. exact Hle.
    + apply Forall_forall. by intros k [Hk _]%list_elem_of_filter.
    + eapply StronglySorted_sublist; [apply sublist_filter|exact Hsk].
Qed.

(** Whatever [localeCompare] answers: with no empty path the sort and the
    filling loop both return; the keys of the object are paths of the
    entries, each once; every path other than [__proto__] is a key; and
    [__proto__] is none while it only comes with primitive values. *)
Lemma orderMetadata_general metadata :
  (∀ e : entry, e ∈ metadata → e.1 ≠ "") →
  ∃ ordered,
    orderMetadata cfg localeCompare metadata = inr ordered ∧
    NoDup ordered.*1 ∧
    (∀ k, k ∈ ordered.*1 → k ∈ metadata.*1) ∧
    (∀ k, k ≠ "__proto__" → k ∈ metadata.*1 → k ∈ ordered.*1) ∧
    (∀ kv, kv ∈ ordered → kv ∈ metadata) ∧
    ((∀ e : entry, e ∈ metadata →
        e.1 = "__proto__" → isPrimitive e.2 = true) →
     "__proto__" ∉ ordered.*1).
Proof.
  intros Hok.
  destruct (sort_returns (comparator cfg localeCompare)
              (λ e : entry, e.1 ≠ "")
              (λ a b, compareKeys cfg localeCompare a.1 b.1))
    with (l := metadata) as (sorted & Hsort & Hperm).
  { intros x y Hx Hy. by apply comparator_nonempty. }
  { apply Forall_forall. intros e He. by apply Hok. }
  destruct (fillResult_general sorted emptyObject)
    as (res & Hfill & Hnd & Hsub & Hcov & Hfrom).
  { apply Forall_forall. intros e He. apply Hok. by rewrite <- Hperm. }
  { apply NoDup_nil_2. }
  exists (props res). split.
  { unfold orderMetadata. rewrite Hsort. simpl. by rewrite Hfill. }
  split; [done|]. split; [|split; [|split]].
  - intros k Hk. rewrite <- Hperm.
    by destruct (Hsub k Hk) as [?%elem_of_nil|?].
  - intros k Hk Hin. apply Hcov; [done|]. right. by rewrite Hperm.
  - intros kv Hkv. rewrite <- Hperm.
    by destruct (Hfrom kv Hkv) as [?%elem_of_nil|?].
  - intros Hprim.
    eapply (fillResult_proto_dropped sorted emptyObject); [|done| |exact Hfill].
    + apply Forall_forall. intros e He. apply Hprim. by rewrite <- Hperm.
    + apply not_elem_of_nil.
Qed.

(** An entry with an empty path makes [orderMetadata] throw. *)
Lemma orderMetadata_empty_path metadata (e : entry) :
  e ∈ metadata → e.1 = "" →
  ∃ message, orderMetadata cfg localeCompare metadata = inl (Error message).
Proof.
  intros Hin He. unfold orderMetadata.
  destruct (sort (comparator cfg localeCompare) metadata) as [err|sorted] eqn:Hsort; simpl.
  - apply (sort_throws _ (λ err, ∃ message, err = Error message)) in Hsort
      as [message ->]; [by exists message|].
    intros a b err'. unfold comparator.
    repeat case_match; try done. intros [= <-]. by eexists.
  - apply sort_perm in Hsort. rewrite <- Hsort in Hin.
    erewrite fillResult_empty_path; [by eexists|exact Hin|exact He].
Qed.

Lemma sortKey_position key :
  key ∈ orderedProperties cfg →
  ∃ i, orderedProperties cfg !! i = Some key ∧ sortKey cfg key = Z.of_nat i.
Proof.
  intros Hin. unfold sortKey.
  destruct (orderMap cfg !! key) as [i|] eqn:Hi.
  - exists i. split; [by apply orderMap_Some|done].
  - by apply orderMap_None in Hi.
Qed.

(** Being tied is comparing as equal. *)
Lemma tied_compareKeys (a b : entry) :
  a.1 ≠ "" → b.1 ≠ "" →
  tied cfg localeCompare a b ↔ compareKeys cfg localeCompare a.1 b.1 = 0%Z.
Proof.
  intros Ha Hb. unfold tied. rewrite !before_compareKeys by done.
  destruct (compareKeys_flip cfg localeCompare Hcons a.1 b.1 Ha Hb)
    as [Hlt _].
  destruct (compareKeys_flip cfg localeCompare Hcons b.1 a.1 Hb Ha)
    as [Hlt' _].
  lia.
Qed.

Lemma comparator_order (a b c : entry) :
  a.1 ≠ "" → b.1 ≠ "" → c.1 ≠ "" →
  ¬ (before cfg localeCompare a b ∧ before cfg localeCompare b a) ∧
  (before cfg localeCompare a b → before cfg localeCompare b c →
   before cfg localeCompare a c) ∧
  (tied cfg localeCompare a b → tied cfg localeCompare b c →
   tied cfg localeCompare a c) ∧
  (tied cfg localeCompare a b ↔
   a.1 = b.1 ∨
   ((a.1 ∉ orderedProperties cfg) ∧ (b.1 ∉ orderedProperties cfg) ∧
    localeCompare a.1 b.1 = 0%Z)).
Proof.
  intros Ha Hb Hc.
  rewrite !tied_compareKeys by done.
  rewrite !before_compareKeys by done.
  destruct (compareKeys_flip cfg localeCompare Hcons a.1 b.1 Ha Hb)
    as [Hlt Heq].
  destruct (compareKeys_flip cfg localeCompare Hcons b.1 a.1 Hb Ha)
    as [Hlt' _].
  split; [lia|]. split; [by apply compareKeys_trans_lt|].
  split; [|by apply compareKeys_zero_iff].
  intros Hab Hbc.
  destruct (compareKeys_flip cfg localeCompare Hcons b.1 c.1 Hb Hc)
    as [_ Hbc'].
  destruct (compareKeys_flip cfg localeCompare Hcons a.1 c.1 Ha Hc)
    as [Hac _].
  destruct (compareKeys_flip cfg localeCompare Hcons c.1 a.1 Hc Ha)
    as [Hca _].
  pose proof (compareKeys_trans_le cfg localeCompare Hcons a.1 b.1 c.1
                Ha Hb Hc).
  pose proof (compareKeys_trans_le cfg localeCompare Hcons c.1 b.1 a.1
                Hc Hb Ha).
  lia.
Qed.

End OrderTheorems.

(** ** Claims on flattening and ordering *)

(** C1, as stated, fails: the field [tags] holds an array of two strings;
    [recursivelyGetProperties] emits one entry per element, under the paths
    "tags.0" and "tags.1", and no entry for "tags" itself. *)
Lemma flatten_array_is_not_a_leaf :
  recursivelyGetProperties (sourceConfig "0")
    (JObj [("tags", JArr [JStr "x"; JStr "y"])]) [] None
  = [("tags.0", JStr "x"); ("tags.1", JStr "y")]
  ∧ ¬ (∃ v, ("tags", v) ∈
         recursivelyGetProperties (sourceConfig "0")
           (JObj [("tags", JArr [JStr "x"; JStr "y"])]) [] None).
Proof.
  split; [reflexivity|]. intros [v Hin]. vm_compute in Hin.
  repeat (apply elem_of_cons in Hin as [Hin|Hin]; [discriminate Hin|]).
  by apply elem_of_nil in Hin.
Qed.

(** C1, amended: an array-valued field is not a leaf. The array is
    descended into exactly as the object whose property names are its
    indices "0", "1", ... in order; a field holding an array of values that
    are not objects or arrays therefore yields one entry per element, under
    the field's name followed by "." and the index, and none for the array;
    and no emitted entry ever has an array or an object as its value. *)
Theorem flatten_descends_into_arrays (cfg : Config) :
  (∀ elems acc propertyName,
     recursivelyGetProperties cfg (JArr elems) acc propertyName =
     recursivelyGetProperties cfg (JObj (indexed elems)) acc propertyName) ∧
  (∀ property elems,
     includes (propertiesToIgnore cfg) property = false →
     property ≠ "" →
     Forall (λ e, is_object e = false) elems →
     (∀ i, i < length elems →
           includes (propertiesToIgnore cfg) (string_of_nat i) = false) →
     recursivelyGetProperties cfg (JObj [(property, JArr elems)]) [] None
     = imap (λ i e, (property +:+ "." +:+ string_of_nat i, e)) elems) ∧
  (∀ record e,
     e ∈ recursivelyGetProperties cfg record [] None → is_object e.2 = false).
Proof.
  split; [apply flatten_arr|]. split; [apply flatten_leaf_array|].
  intros record e Hin.
  apply flatten_leaves in Hin as [Hin|Hleaf]; [|done].
  by apply elem_of_nil in Hin.
Qed.

Lemma flatten_descends_into_arrays_witness :
  includes (propertiesToIgnore (sourceConfig "0")) "tags" = false
  ∧ "tags" ≠ ""
  ∧ Forall (λ e, is_object e = false) [JStr "x"; JStr "y"]
  ∧ (∀ i, i < length [JStr "x"; JStr "y"] →
          includes (propertiesToIgnore (sourceConfig "0")) (string_of_nat i)
          = false)
  ∧ recursivelyGetProperties (sourceConfig "0")
      (JObj [("tags", JArr [JStr "x"; JStr "y"])]) [] None
    = imap (λ i e, ("tags" +:+ "." +:+ string_of_nat i, e))
        [JStr "x"; JStr "y"]
  ∧ ("tags.0", JStr "x") ∈
      recursivelyGetProperties (sourceConfig "0")
        (JObj [("tags", JArr [JStr "x"; JStr "y"])]) [] None
  ∧ is_object (JStr "x") = false.
Proof.
  assert (H1 : includes (propertiesToIgnore (sourceConfig "0")) "tags" = false)
    by reflexivity.
  assert (H2 : "tags" ≠ "") by discriminate.
  assert (H3 : Forall (λ e, is_object e = false) [JStr "x"; JStr "y"])
    by (repeat constructor).
  assert (H4 : ∀ i, i < length [JStr "x"; JStr "y"] →
          includes (propertiesToIgnore (sourceConfig "0")) (string_of_nat i)
          = false).
  { intros [|[|i]] Hi; [reflexivity|reflexivity|simpl in Hi; lia]. }
  assert (H5 : ("tags.0", JStr "x") ∈
    recursivelyGetProperties (sourceConfig "0")
      (JObj [("tags", JArr [JStr "x"; JStr "y"])]) [] None).
  { vm_compute. apply list_elem_of_here. }
  pose proof (flatten_descends_into_arrays (sourceConfig "0"))
    as (_ & Hfield & Hleaf).
  exact (conj H1 (conj H2 (conj H3 (conj H4
           (conj (Hfield "tags" [JStr "x"; JStr "y"] H1 H2 H3 H4)
              (conj H5 (Hleaf _ _ H5))))))).
Defined.

(** C6, as stated, fails on path strings: beside the ignored field [color],
    a property whose own name is "color.x" is emitted under the path
    "color.x", which is also the dotted path of [x] inside [color]. *)
Lemma flatten_dotted_sibling :
  includes (propertiesToIgnore (sourceConfig "0")) "color" = true
  ∧ ("color.x", JNum 2) ∈
      recursivelyGetProperties (sourceConfig "0")
        (JObj [("color", JObj [("x", JNum 1)]); ("color.x", JNum 2)]) [] None
  ∧ String.prefix ("color" +:+ ".") "color.x" = true.
Proof.
  split; [reflexivity|]. split; [|reflexivity].
  vm_compute. apply list_elem_of_here.
Qed.

(** C6, amended: a field whose name is in the ignore list contributes
    nothing, even when its value is an object: the output is the same as
    for the record without that field. Further, when that name and all
    property names inside the record are free of ".", no emitted path is
    the field's name or starts with the field's name followed by ".". *)
Theorem flatten_skips_ignored (cfg : Config) (name : string) :
  includes (propertiesToIgnore cfg) name = true →
  (∀ v fields_before fields_after acc propertyName,
     recursivelyGetProperties cfg
       (JObj (fields_before ++ (name, v) :: fields_after)) acc propertyName =
     recursivelyGetProperties cfg
       (JObj (fields_before ++ fields_after)) acc propertyName) ∧
  (∀ record e,
     dotFree name = true → keysDotFree record = true →
     e ∈ recursivelyGetProperties cfg record [] None →
     e.1 ≠ name ∧ String.prefix (name +:+ ".") e.1 = false).
Proof.
  intros Hign. split.
  - intros. by apply flatten_ignored_field.
  - intros record e Hname Hkeys Hin.
    destruct (flatten_segments cfg record Hkeys [] None e Hin) as [Hnil|Hseg].
    { by apply elem_of_nil in Hnil. }
    unfold segmentOk in Hseg. simpl in Hseg. split.
    + intros Heq. rewrite Heq, firstSegment_dotFree in Hseg by done.
      congruence.
    + destruct (String.prefix (name +:+ ".") e.1) eqn:Hpre; [|done].
      apply prefix_app in Hpre as [r Hr].
      rewrite Hr, append_assoc, firstSegment_app_dot,
        firstSegment_dotFree in Hseg by done.
      congruence.
Qed.

Lemma flatten_skips_ignored_witness :
  includes (propertiesToIgnore (sourceConfig "0")) "color" = true
  ∧ recursivelyGetProperties (sourceConfig "0")
      (JObj ([("title", JStr "t")] ++
             ("color", JObj [("x", JNum 1)]) :: [("n", JNum 3)])) [] None
    = recursivelyGetProperties (sourceConfig "0")
        (JObj ([("title", JStr "t")] ++ [("n", JNum 3)])) [] None
  ∧ dotFree "color" = true
  ∧ keysDotFree
      (JObj [("title", JStr "t"); ("color", JObj [("x", JNum 1)]);
             ("n", JNum 3)]) = true
  ∧ ("n", JNum 3) ∈
      recursivelyGetProperties (sourceConfig "0")
        (JObj [("title", JStr "t"); ("color", JObj [("x", JNum 1)]);
               ("n", JNum 3)]) [] None
  ∧ "n" ≠ "color"
  ∧ String.prefix ("color" +:+ ".") "n" = false.
Proof.
  assert (Hin : ("n", JNum 3) ∈
      recursivelyGetProperties (sourceConfig "0")
        (JObj [("title", JStr "t"); ("color", JObj [("x", JNum 1)]);
               ("n", JNum 3)]) [] None).
  { vm_compute. apply list_elem_of_further, list_elem_of_here. }
  split; [reflexivity|]. split.
  { exact (proj1 (flatten_skips_ignored (sourceConfig "0") "color" eq_refl)
             (JObj [("x", JNum 1)]) [("title", JStr "t")] [("n", JNum 3)]
             [] None). }
  split; [reflexivity|]. split; [reflexivity|]. split; [exact Hin|].
  exact (proj2 (flatten_skips_ignored (sourceConfig "0") "color" eq_refl)
           (JObj [("title", JStr "t"); ("color", JObj [("x", JNum 1)]);
                  ("n", JNum 3)])
           ("n", JNum 3) eq_refl eq_refl Hin).
Defined.

(** C2, as stated, fails: the paths "abc" and "ABC" are distinct, neither is
    a priority key, and the comparison function returns 0 for them in both
    directions, so neither entry is before the other; and for an entry with
    an empty path the comparison function throws instead of answering. *)
Lemma comparator_ties_on_distinct_paths :
  "abc" ≠ "ABC"
  ∧ ¬ before (sourceConfig "0") compareAscii ("abc", JNum 1) ("ABC", JNum 2)
  ∧ ¬ before (sourceConfig "0") compareAscii ("ABC", JNum 2) ("abc", JNum 1)
  ∧ comparator (sourceConfig "0") compareAscii ("", JNum 1) ("abc", JNum 2)
    = inl (Error "Invalid metadata -- aKey or bKey is undefined").
Proof.
  split; [done|]. split; [|split]; [| |reflexivity];
    intros (z & Hz & Hneg); vm_compute in Hz; injection Hz as <-; lia.
Qed.

(** C2, amended: [localeCompare] being, as the language requires, a
    consistent comparison function, the comparison relation of
    [orderMetadata] is a strict weak order on entries whose paths are not
    empty. It never holds in both directions; it is transitive; being
    tied, neither entry before the other, is transitive; and two entries
    are tied exactly when their paths are equal or neither path is a
    priority key and [localeCompare] returns 0 for them, as it does for
    two paths that differ only in letter case. Hence for two distinct
    paths it holds in one direction unless they are tied in this way. *)
Theorem comparator_strict_weak_order (cfg : Config)
    (localeCompare : string → string → Z) (a b c : entry) :
  Consistent localeCompare →
  a.1 ≠ "" → b.1 ≠ "" → c.1 ≠ "" →
  ¬ (before cfg localeCompare a b ∧ before cfg localeCompare b a) ∧
  (before cfg localeCompare a b → before cfg localeCompare b c →
   before cfg localeCompare a c) ∧
  (tied cfg localeCompare a b → tied cfg localeCompare b c →
   tied cfg localeCompare a c) ∧
  (tied cfg localeCompare a b ↔
   a.1 = b.1 ∨
   ((a.1 ∉ orderedProperties cfg) ∧ (b.1 ∉ orderedProperties cfg) ∧
    localeCompare a.1 b.1 = 0%Z)) ∧
  (a.1 ≠ b.1 →
   before cfg localeCompare a b ∨ before cfg localeCompare b a ∨
   ((a.1 ∉ orderedProperties cfg) ∧ (b.1 ∉ orderedProperties cfg) ∧
    localeCompare a.1 b.1 = 0%Z)).
Proof.
  intros Hcons Ha Hb Hc.
  destruct (comparator_order cfg localeCompare Hcons a b c Ha Hb Hc)
    as (Hasym & Htrans & Hties & Htied).
  repeat (split; [assumption|]).
  intros Hne.
  destruct (Z.lt_total (compareKeys cfg localeCompare a.1 b.1) 0)
    as [Hlt|[Hz|Hgt]].
  - left. by apply before_compareKeys.
  - right. right.
    apply (tied_compareKeys cfg localeCompare Hcons a b Ha Hb) in Hz.
    apply Htied in Hz as [?|?]; done.
  - right. left. apply before_compareKeys; [done|done|].
    by apply (compareKeys_flip cfg localeCompare Hcons b.1 a.1 Hb Ha).
Qed.

Lemma comparator_strict_weak_order_witness :
  Consistent compareAscii ∧
  ("title", JStr "t").1 ≠ "" ∧ ("alpha2", JNum 2).1 ≠ "" ∧
  ("alpha10", JNum 10).1 ≠ "" ∧
  ¬ (before (sourceConfig "0") compareAscii
       ("title", JStr "t") ("alpha2", JNum 2) ∧
     before (sourceConfig "0") compareAscii
       ("alpha2", JNum 2) ("title", JStr "t")) ∧
  (before (sourceConfig "0") compareAscii
     ("title", JStr "t") ("alpha2", JNum 2) →
   before (sourceConfig "0") compareAscii
     ("alpha2", JNum 2) ("alpha10", JNum 10) →
   before (sourceConfig "0") compareAscii
     ("title", JStr "t") ("alpha10", JNum 10)).
Proof.
  assert (H1 : ("title", JStr "t").1 ≠ "") by (simpl; discriminate).
  assert (H2 : ("alpha2", JNum 2).1 ≠ "") by (simpl; discriminate).
  assert (H3 : ("alpha10", JNum 10).1 ≠ "") by (simpl; discriminate).
  pose proof (comparator_strict_weak_order (sourceConfig "0") compareAscii
                ("title", JStr "t") ("alpha2", JNum 2) ("alpha10", JNum 10)
                compareAscii_consistent H1 H2 H3) as (Hasym & Htrans & _).
  exact (conj compareAscii_consistent
           (conj H1 (conj H2 (conj H3 (conj Hasym Htrans))))).
Defined.

(** C3, as stated, fails on three kinds of path. A path that is an array
    index, such as "7", is enumerated before every other key of the result
    object, so it comes out ahead of the priority key "title"; the path
    [__proto__] is assigned through the accessor of [Object.prototype] and
    leaves no key at all; and an empty path makes [orderMetadata] throw.
    The lists are what flattening yields for a note with such a property
    beside its title. *)
Lemma orderMetadata_index_path_first :
  recursivelyGetProperties (sourceConfig "0")
    (JObj [("7", JNum 1); ("title", JStr "t")]) [] None
  = [("7", JNum 1); ("title", JStr "t")]
  ∧ orderMetadata (sourceConfig "0") compareAscii
      [("7", JNum 1); ("title", JStr "t")]
    = inr [("7", JNum 1); ("title", JStr "t")]
  ∧ orderMetadata (sourceConfig "0") compareAscii
      [("title", JStr "t"); ("7", JNum 1)]
    = inr [("7", JNum 1); ("title", JStr "t")]
  ∧ recursivelyGetProperties (sourceConfig "0")
      (JObj [("__proto__", JStr "p"); ("title", JStr "t")]) [] None
    = [("__proto__", JStr "p"); ("title", JStr "t")]
  ∧ orderMetadata (sourceConfig "0") compareAscii
      [("__proto__", JStr "p"); ("title", JStr "t")]
    = inr [("title", JStr "t")]
  ∧ orderMetadata (sourceConfig "0") compareAscii
      [("title", JStr "t"); ("", JNum 1)]
    = inl (Error "Invalid metadata -- aKey or bKey is undefined").
Proof. repeat split. Qed.

(** The example of the specification, for every collation that puts
    alpha2 before alpha10 and alpha10 before zeta. *)
Lemma orderMetadata_spec_example (localeCompare : string → string → Z) :
  Consistent localeCompare →
  (localeCompare "alpha2" "alpha10" < 0)%Z →
  (localeCompare "alpha10" "zeta" < 0)%Z →
  orderMetadata
    (withOrderedProperties (sourceConfig "0") ["title"; "createdTimestampUsec"])
    localeCompare
    [("zeta", JNum 1); ("title", JStr "t"); ("createdTimestampUsec", JNum 2);
     ("alpha2", JNum 3); ("alpha10", JNum 4)]
  = inr [("title", JStr "t"); ("createdTimestampUsec", JNum 2);
         ("alpha2", JNum 3); ("alpha10", JNum 4); ("zeta", JNum 1)].
Proof.
  intros Hcons H1 H2.
  assert (H3 : (0 < localeCompare "zeta" "alpha10")%Z)
    by (by apply (compare_flip _ Hcons)).
  assert (H4 : (0 < localeCompare "zeta" "alpha2")%Z).
  { apply (compare_flip _ Hcons).
    pose proof (compare_trans _ Hcons "alpha2" "alpha10" "zeta").
    pose proof (compare_trans _ Hcons "zeta" "alpha2" "alpha10").
    pose proof (compare_flip _ Hcons "alpha10" "zeta").
    pose proof (compare_flip _ Hcons "zeta" "alpha2").
    pose proof (compare_flip _ Hcons "alpha2" "zeta").
    lia. }
  set (cfg := withOrderedProperties (sourceConfig "0")
                ["title"; "createdTimestampUsec"]).
  assert (E1 : comparator cfg localeCompare ("alpha2", JNum 3) ("alpha10", JNum 4)
               = inr (localeCompare "alpha2" "alpha10")) by reflexivity.
  assert (E2 : comparator cfg localeCompare ("createdTimestampUsec", JNum 2)
                 ("alpha2", JNum 3) = inr (-1)%Z) by reflexivity.
  assert (E3 : comparator cfg localeCompare ("title", JStr "t")
                 ("createdTimestampUsec", JNum 2) = inr (-1)%Z) by reflexivity.
  assert (E4 : comparator cfg localeCompare ("zeta", JNum 1) ("title", JStr "t")
               = inr 1%Z) by reflexivity.
  assert (E5 : comparator cfg localeCompare ("zeta", JNum 1)
                 ("createdTimestampUsec", JNum 2) = inr 1%Z) by reflexivity.
  assert (E6 : comparator cfg localeCompare ("zeta", JNum 1) ("alpha2", JNum 3)
               = inr (localeCompare "zeta" "alpha2")) by reflexivity.
  assert (E7 : comparator cfg localeCompare ("zeta", JNum 1) ("alpha10", JNum 4)
               = inr (localeCompare "zeta" "alpha10")) by reflexivity.
  assert (Hstep : ∀ (x y : entry) l,
    insertSorted (comparator cfg localeCompare) x (y :: l) =
    match comparator cfg localeCompare x y with
    | inl e => inl e
    | inr c =>
        if (0 <? c)%Z then
          match insertSorted (comparator cfg localeCompare) x l with
          | inl e => inl e
          | inr l' => inr (y :: l')
          end
        else inr (x :: y :: l)
    end).
  { intros x y l. simpl. unfold mbind, result_bind.
    destruct (comparator cfg localeCompare x y) as [|c]; [done|].
    by destruct (0 <? c)%Z. }
  unfold orderMetadata.
  cbn [sort insertSorted]. unfold mbind, result_bind, mret, result_ret.
  assert (Hnil : ∀ x : entry,
    insertSorted (comparator cfg localeCompare) x [] = inr [x]) by done.
  rewrite Hnil. cbv beta match.
  rewrite Hstep, E1.
  destruct (Z.ltb_spec 0 (localeCompare "alpha2" "alpha10")); [lia|].
  cbv beta match. rewrite Hstep, E2. cbn [Z.ltb Z.compare].
  cbv beta match. rewrite Hstep, E3. cbn [Z.ltb Z.compare].
  cbv beta match. rewrite Hstep, E4. cbn [Z.ltb Z.compare].
  cbv beta match. rewrite Hstep, E5. cbn [Z.ltb Z.compare].
  cbv beta match. rewrite Hstep, E6.
  destruct (Z.ltb_spec 0 (localeCompare "zeta" "alpha2")); [|lia].
  rewrite Hstep, E7.
  destruct (Z.ltb_spec 0 (localeCompare "zeta" "alpha10")); [|lia].
  reflexivity.
Qed.

(** C3, amended: [localeCompare] being a consistent comparison function,
    for every priority list and every collection of entries whose paths
    are not empty, are not array indices and are not [__proto__],
    [orderMetadata] returns an object whose keys, in enumeration order,
    are exactly the paths of the entries, each once, with a value taken
    from an entry of that path: first the paths that are priority keys, in
    increasing order of their position in the priority list, then all
    other paths, sorted by [localeCompare]. An empty path makes
    [orderMetadata] throw. In particular, when [localeCompare] puts alpha2
    before alpha10, as a numeric collation does, and alpha10 before zeta,
    priority list ["title", "createdTimestampUsec"] and paths zeta, title,
    createdTimestampUsec, alpha2, alpha10 give the order title,
    createdTimestampUsec, alpha2, alpha10, zeta. *)
Theorem orderMetadata_priority_then_natural :
  (∀ cfg localeCompare metadata,
     Consistent localeCompare →
     (∀ e : entry, e ∈ metadata →
        e.1 ≠ "" ∧ arrayIndex e.1 = None ∧ e.1 ≠ "__proto__") →
     ∃ ordered pri rest,
       orderMetadata cfg localeCompare metadata = inr ordered ∧
       ordered.*1 = pri ++ rest ∧
       NoDup ordered.*1 ∧
       (∀ k, k ∈ ordered.*1 ↔ k ∈ metadata.*1) ∧
       (∀ kv, kv ∈ ordered → kv ∈ metadata) ∧
       (∀ k, k ∈ pri →
             ∃ i, orderedProperties cfg !! i = Some k ∧
                  sortKey cfg k = Z.of_nat i) ∧
       (∀ k, k ∈ rest → k ∉ orderedProperties cfg) ∧
       StronglySorted (λ k1 k2, (sortKey cfg k1 < sortKey cfg k2)%Z) pri ∧
       StronglySorted (λ k1 k2, (localeCompare k1 k2 <= 0)%Z) rest) ∧
  (∀ cfg localeCompare metadata (e : entry),
     e ∈ metadata → e.1 = "" →
     ∃ message,
       orderMetadata cfg localeCompare metadata = inl (Error message)) ∧
  (∀ localeCompare,
     Consistent localeCompare →
     (localeCompare "alpha2" "alpha10" < 0)%Z →
     (localeCompare "alpha10" "zeta" < 0)%Z →
     orderMetadata
       (withOrderedProperties (sourceConfig "0")
          ["title"; "createdTimestampUsec"])
       localeCompare
       [("zeta", JNum 1); ("title", JStr "t");
        ("createdTimestampUsec", JNum 2);
        ("alpha2", JNum 3); ("alpha10", JNum 4)]
     = inr [("title", JStr "t"); ("createdTimestampUsec", JNum 2);
            ("alpha2", JNum 3); ("alpha10", JNum 4); ("zeta", JNum 1)]).
Proof.
  split; [|split; [apply orderMetadata_empty_path|
                   apply orderMetadata_spec_example]].
  intros cfg localeCompare metadata Hcons Hok.
  destruct (orderMetadata_spec cfg localeCompare Hcons metadata Hok)
    as (ordered & pri & rest & H1 & H2 & H3 & H4 & H5 & H6 & H7 & H8 & H9).
  exists ordered, pri, rest. repeat (split; [done|]).
  split; [|done]. intros k Hk. by apply sortKey_position, H6.
Qed.

Lemma orderMetadata_priority_then_natural_witness :
  Consistent compareAscii ∧
  (∀ e : entry,
     e ∈ [("zeta", JNum 1); ("title", JStr "t"); ("alpha2", JNum 3)] →
     e.1 ≠ "" ∧ arrayIndex e.1 = None ∧ e.1 ≠ "__proto__") ∧
  (∃ ordered pri rest,
    orderMetadata (sourceConfig "0") compareAscii
      [("zeta", JNum 1); ("title", JStr "t"); ("alpha2", JNum 3)]
    = inr ordered ∧
    ordered.*1 = pri ++ rest ∧
    NoDup ordered.*1 ∧
    (∀ k, k ∈ ordered.*1 ↔
          k ∈ [("zeta", JNum 1); ("title", JStr "t"); ("alpha2", JNum 3)].*1) ∧
    (∀ kv, kv ∈ ordered →
           kv ∈ [("zeta", JNum 1); ("title", JStr "t"); ("alpha2", JNum 3)]) ∧
    (∀ k, k ∈ pri →
          ∃ i, orderedProperties (sourceConfig "0") !! i = Some k ∧
               sortKey (sourceConfig "0") k = Z.of_nat i) ∧
    (∀ k, k ∈ rest → k ∉ orderedProperties (sourceConfig "0")) ∧
    StronglySorted
      (λ k1 k2, (sortKey (sourceConfig "0") k1 < sortKey (sourceConfig "0") k2)%Z)
      pri ∧
    StronglySorted (λ k1 k2, (compareAscii k1 k2 <= 0)%Z) rest) ∧
  (("", JNum 1) : entry).1 = "" ∧
  (∃ message,
    orderMetadata (sourceConfig "0") compareAscii
      [("title", JStr "t"); ("", JNum 1)]
    = inl (Error message)) ∧
  (compareAscii "alpha2" "alpha10" < 0)%Z ∧
  (compareAscii "alpha10" "zeta" < 0)%Z ∧
  orderMetadata
    (withOrderedProperties (sourceConfig "0")
       ["title"; "createdTimestampUsec"])
    compareAscii
    [("zeta", JNum 1); ("title", JStr "t");
     ("createdTimestampUsec", JNum 2);
     ("alpha2", JNum 3); ("alpha10", JNum 4)]
  = inr [("title", JStr "t"); ("createdTimestampUsec", JNum 2);
         ("alpha2", JNum 3); ("alpha10", JNum 4); ("zeta", JNum 1)].
Proof.
  assert (H : ∀ e : entry,
     e ∈ [("zeta", JNum 1); ("title", JStr "t"); ("alpha2", JNum 3)] →
     e.1 ≠ "" ∧ arrayIndex e.1 = None ∧ e.1 ≠ "__proto__").
  { intros e He.
    repeat (apply elem_of_cons in He as [-> |He];
            [split; [simpl; discriminate|
                     split; [reflexivity|simpl; discriminate]]|]).
    by apply elem_of_nil in He. }
  split; [exact compareAscii_consistent|]. split; [exact H|]. split.
  - exact (proj1 orderMetadata_priority_then_natural (sourceConfig "0")
             compareAscii _ compareAscii_consistent H).
  - split; [reflexivity|]. split.
    + apply (proj1 (proj2 orderMetadata_priority_then_natural)
               (sourceConfig "0") compareAscii _ ("", JNum 1));
        [apply list_elem_of_further, list_elem_of_here|reflexivity].
    + exact (conj eq_refl (conj eq_refl
               (proj2 (proj2 orderMetadata_priority_then_natural)
                  compareAscii compareAscii_consistent eq_refl eq_refl))).
Defined.

(** ** The note converter *)

Section NoteFacts.
Context (cfg : Config).
Context (localeCompare : string → string → Z).
Context (disk : Disk).

(** *** Titles and fields *)

Lemma normalizeTitle_noForbidden s : noForbidden (normalizeTitle s) = true.
Proof.
  induction s as [|c s IH]; [done|]. simpl. unfold forbiddenChar.
  destruct ((N_of_ascii c =? 47)%N || (N_of_ascii c =? 92)%N ||
            (N_of_ascii c =? 58)%N || (N_of_ascii c =? 63)%N) eqn:Hc; simpl.
  - exact IH.
  - by rewrite Hc.
Qed.

(** The title a note ends up with is the normalized text of its own title
    when that is a string that is not empty, and of the file name when the
    note has no title or a falsy one. *)
Lemma titleOf_inv noteJson note title :
  titleOf noteJson note = inr title →
  is_object noteJson = true ∧
  ∃ t raw,
    getField noteJson "title" = inr t ∧
    title = normalizeTitle raw ∧
    ((t = Some (JStr raw) ∧ raw ≠ "") ∨
     (truthy_opt t = false ∧ note = Some raw)).
Proof.
  unfold titleOf. unfold mbind, result_bind.
  destruct (getField noteJson "title") as [|t] eqn:Hget; [done|].
  destruct (truthy_opt t) eqn:Ht; simpl.
  - destruct t as [[| | |s| |]|]; try done. intros [= <-].
    split.
    { destruct noteJson; try done. }
    exists (Some (JStr s)), s. split; [done|]. split; [done|]. left.
    split; [done|]. simpl in Ht. intros ->. done.
  - destruct (is_object noteJson) eqn:Hobj; [|done].
    destruct note as [n|]; simpl; [|done]. intros [= <-].
    split; [done|]. exists t, n. split; [done|]. split; [done|]. by right.
Qed.

Lemma titleOf_noForbidden noteJson note title :
  titleOf noteJson note = inr title → noForbidden title = true.
Proof.
  intros (_ & t & raw & _ & -> & _)%titleOf_inv.
  apply normalizeTitle_noForbidden.
Qed.

Lemma getField_setField noteJson key x noteJson' :
  setField noteJson key x = inr noteJson' →
  ∃ fields, noteJson' = JObj fields ∧ lookupField key fields = Some x.
Proof.
  destruct noteJson; simpl; try done; intros [= <-]; eexists;
    (split; [reflexivity|apply lookupField_defineOwn]).
Qed.

Lemma allDigits_uint d : allDigits (NilEmpty.string_of_uint d) = true.
Proof. induction d; simpl; auto. Qed.

Lemma allDigits_string_of_nat i : allDigits (string_of_nat i) = true.
Proof.
  unfold string_of_nat, string_of_N, NilZero.string_of_uint.
  destruct (N.to_uint (N.of_nat i)) eqn:E; try apply allDigits_uint. done.
Qed.

Lemma lookupField_imap (f : nat → string) key elems :
  (∀ i, f i ≠ key) →
  lookupField key (imap (λ i e, (f i, e)) elems) = None.
Proof.
  revert f. induction elems as [|e rest IH]; intros f Hf; simpl; [done|].
  pose proof (Hf 0) as H0. apply String.eqb_neq in H0. rewrite H0.
  apply (IH (f ∘ S)). intros i. apply Hf.
Qed.

(** A name that is not a number is no index of an array. *)
Lemma lookupField_indexed key elems :
  allDigits key = false → lookupField key (indexed elems) = None.
Proof.
  intros Hkey. apply lookupField_imap. intros i <-.
  by rewrite allDigits_string_of_nat in Hkey.
Qed.

(** Giving the note its title leaves the other properties as they were
    read. *)
Lemma getField_after_title noteJson x noteJson' key :
  setField noteJson "title" x = inr noteJson' →
  key ≠ "title" → allDigits key = false →
  getField noteJson' key = getField noteJson key.
Proof.
  intros Hset Hne Hkey. destruct noteJson; simpl in Hset; try done;
    injection Hset as <-; simpl.
  - rewrite lookupField_defineOwn_ne by done.
    by rewrite lookupField_indexed.
  - by rewrite lookupField_defineOwn_ne.
Qed.

(** *** The conversion *)

(** The markdown of an object note. *)
Lemma convertNoteToMarkdown_obj fields :
  convertNoteToMarkdown cfg localeCompare (JObj fields) =
  (titleText ← templateText (lookupField "title" fields);
   contentText ← templateText (lookupField "textContent" fields);
   ordered ← orderMetadata cfg localeCompare
               (recursivelyGetProperties cfg (JObj fields) [] None);
   mret (("# " +:+ titleText +:+ newline +:+ newline +:+ contentText +:+
          newline) +:+
         newline +:+ "## Metadata from Google Keep" +:+ newline +:+
         metadataLines ordered)).
Proof. reflexivity. Qed.

(** What [prepareNote] stands for, statement by statement. *)
Lemma prepareNote_inv note title isArchived isTrashed markdown :
  prepareNote cfg localeCompare disk note
  = inr (title, isArchived, isTrashed, markdown) ↔
  ∃ noteJson noteJson',
    readJson disk (notePathOf cfg note) = Some noteJson ∧
    titleOf noteJson note = inr title ∧
    setField noteJson "title" (JStr title) = inr noteJson' ∧
    getField noteJson "isArchived" = inr isArchived ∧
    getField noteJson "isTrashed" = inr isTrashed ∧
    convertNoteToMarkdown cfg localeCompare noteJson' = inr markdown.
Proof.
  unfold prepareNote. unfold mbind, result_bind. split.
  - destruct (readJson disk _) as [noteJson|] eqn:Hread; [|done]. simpl.
    destruct (titleOf noteJson note) as [|t] eqn:Ht; [done|].
    destruct (setField noteJson "title" (JStr t)) as [|noteJson'] eqn:Hset;
      [done|].
    rewrite !(getField_after_title _ _ _ _ Hset) by done.
    destruct (getField noteJson "isArchived") as [|a] eqn:Ha; [done|].
    destruct (getField noteJson "isTrashed") as [|tr] eqn:Htr; [done|].
    destruct (convertNoteToMarkdown cfg localeCompare noteJson')
      as [|md] eqn:Hmd; [done|].
    intros [= <- <- <- <-]. by exists noteJson, noteJson'.
  - intros (noteJson & noteJson' & -> & Ht & Hset & Ha & Htr & Hmd). simpl.
    rewrite Ht, Hset.
    rewrite !(getField_after_title _ _ _ _ Hset) by done.
    by rewrite Ha, Htr, Hmd.
Qed.

(** What [prepareNote] hands on: a title without the replaced characters,
    and a markdown text that opens with the heading for that title. *)
Lemma prepareNote_title note title isArchived isTrashed markdown :
  prepareNote cfg localeCompare disk note
  = inr (title, isArchived, isTrashed, markdown) →
  noForbidden title = true ∧
  ∃ body, markdown = "# " +:+ title +:+ newline +:+ body.
Proof.
  intros (noteJson & noteJson' & _ & Ht & Hset & _ & _ & Hmd)%prepareNote_inv.
  split; [by eapply titleOf_noForbidden|].
  apply getField_setField in Hset as (fields & -> & Hlook).
  rewrite convertNoteToMarkdown_obj, Hlook in Hmd.
  unfold mbind, result_bind in Hmd. simpl in Hmd.
  destruct (templateText (lookupField "textContent" fields)) as [|content];
    [done|].
  destruct (orderMetadata cfg localeCompare _) as [|ordered]; [done|].
  injection Hmd as <-. rewrite !append_assoc. by eexists.
Qed.

(** *** One turn of the loop *)

(** What routing one note does to the state: one counter grows, and the
    file is written unless the run is a dry run or the write is
    rejected. *)
Lemma routeNote_effect isTrashed isArchived title markdown st :
  ∃ st' r,
    routeNote cfg disk isTrashed isArchived title markdown st = (st', r) ∧
    (∀ c, countOf c st' =
          countOf c st +
          (if decide (c = categoryOf isTrashed isArchived) then 1 else 0)) ∧
    deleted st' = deleted st ∧
    ((r = inr tt ∧
      written st' =
        written st ++
        (if dryRun cfg then []
         else [(noteOutputDir cfg +:+
                categoryDir (categoryOf isTrashed isArchived) +:+ title +:+
                ".md", markdown)])) ∨
     (r = inl Rejected ∧ dryRun cfg = false ∧ written st' = written st ∧
      ∃ s, writeRejected disk s
             (noteOutputDir cfg +:+
              categoryDir (categoryOf isTrashed isArchived) +:+ title +:+
              ".md") markdown = true)).
Proof.
  unfold routeNote, categoryOf.
  destruct (truthy_opt isTrashed), (truthy_opt isArchived),
    (dryRun cfg) eqn:Hdry;
    unfold mbind, run_bind, Bun_write; simpl;
    try (eexists _, _; split; [reflexivity|]; simpl;
         split; [intros []; simpl; lia|];
         split; [done|]; left; by rewrite ?app_nil_r);
    match goal with
    | |- context [writeRejected disk ?s ?p ?m] =>
        destruct (writeRejected disk s p m) eqn:Hw
    end;
    eexists _, _; (split; [reflexivity|]); simpl;
    (split; [intros []; simpl; lia|]);
    (split; [done|]);
    first [left; done | right; repeat (split; [done|]); eauto].
Qed.

(** The loop body is [prepareNote] between the first log line and the
    statements that count, write and delete; after the counting it can
    only fail through a rejected write or a rejected deletion. *)
Lemma processNote_outcome note st st' r :
  processNote cfg localeCompare disk note st = (st', r) →
  match prepareNote cfg localeCompare disk note with
  | inl e =>
      r = inl e ∧ counters st' = counters st ∧
      written st' = written st ∧ deleted st' = deleted st
  | inr (title, isArchived, isTrashed, markdown) =>
      (∀ c, countOf c st' =
            countOf c st +
            (if decide (c = categoryOf isTrashed isArchived) then 1 else 0)) ∧
      ((r = inr tt ∧
        written st' =
          written st ++
          (if dryRun cfg then []
           else [(noteOutputDir cfg +:+
                  categoryDir (categoryOf isTrashed isArchived) +:+ title +:+
                  ".md", markdown)]) ∧
        deleted st' =
          deleted st ++
          (if shouldDeleteOriginalNotes cfg && negb (dryRun cfg)
           then [notePathOf cfg note] else [])) ∨
       (r = inl Rejected ∧ dryRun cfg = false ∧
        written st' = written st ∧ deleted st' = deleted st ∧
        ∃ s, writeRejected disk s
               (noteOutputDir cfg +:+
                categoryDir (categoryOf isTrashed isArchived) +:+ title +:+
                ".md") markdown = true) ∨
       (r = inl Rejected ∧ dryRun cfg = false ∧
        shouldDeleteOriginalNotes cfg = true ∧
        written st' =
          written st ++
          [(noteOutputDir cfg +:+
            categoryDir (categoryOf isTrashed isArchived) +:+ title +:+
            ".md", markdown)] ∧
        deleted st' = deleted st ∧
        ∃ s, deleteRejected disk s (notePathOf cfg note) = true))
  end.
Proof.
  unfold processNote, prepareNote, notePathOf.
  unfold mbind, run_bind, result_bind, liftResult. simpl.
  destruct (readJson disk _) as [noteJson|]; simpl; [|by intros [= <- <-]].
  destruct (titleOf noteJson note) as [|title]; simpl;
    [by intros [= <- <-]|].
  destruct (setField noteJson "title" (JStr title)) as [|noteJson'];
    simpl; [by intros [= <- <-]|].
  destruct (getField noteJson' "isArchived") as [|isArchived];
    simpl; [by intros [= <- <-]|].
  destruct (getField noteJson' "isTrashed") as [|isTrashed]; simpl;
    [by intros [= <- <-]|].
  destruct (convertNoteToMarkdown cfg localeCompare noteJson') as [|markdown];
    simpl; [by intros [= <- <-]|].
  match goal with
  | |- context [routeNote cfg disk ?t ?a ?ti ?m ?s] =>
      destruct (routeNote_effect t a ti m s)
        as (st1 & r1 & -> & Hcount & Hdeleted & Hroute)
  end.
  simpl in Hcount, Hdeleted, Hroute.
  destruct Hroute as [[-> Hwritten]|(-> & Hdry & Hwritten & Hrej)].
  - destruct (shouldDeleteOriginalNotes cfg) eqn:Hdel,
      (dryRun cfg) eqn:Hdry; simpl.
    + intros [= <- <-]. simpl. split; [intros c; transitivity (countOf c st1); [by destruct c|];
              rewrite Hcount; by destruct c|].
      left. by rewrite Hwritten, Hdeleted, !app_nil_r.
    + unfold file_delete.
      match goal with
      | |- context [deleteRejected disk ?s ?p] =>
          destruct (deleteRejected disk s p) eqn:Hd
      end; intros [= <- <-]; simpl.
      * split; [intros c; transitivity (countOf c st1); [by destruct c|];
              rewrite Hcount; by destruct c|].
        right. right. rewrite Hwritten, Hdeleted.
        repeat (split; [done|]). eauto.
      * split; [intros c; transitivity (countOf c st1); [by destruct c|];
              rewrite Hcount; by destruct c|].
        left. by rewrite Hwritten, Hdeleted.
    + intros [= <- <-]. simpl. split; [intros c; transitivity (countOf c st1); [by destruct c|];
              rewrite Hcount; by destruct c|].
      left. by rewrite Hwritten, Hdeleted, !app_nil_r.
    + intros [= <- <-]. split; [exact Hcount|].
      left. by rewrite Hwritten, Hdeleted, !app_nil_r.
  - intros [= <- <-]. split; [exact Hcount|]. right. left.
    by rewrite Hwritten, Hdeleted.
Qed.

Lemma counters_countOf st st' :
  (∀ c, countOf c st' = countOf c st) → counters st' = counters st.
Proof.
  intros H. unfold counters.
  pose proof (H Archive) as Ha. pose proof (H Trash) as Ht.
  pose proof (H Unsorted) as Hu. simpl in Ha, Ht, Hu. congruence.
Qed.

Lemma processed_countOf st :
  processed st = countOf Archive st + countOf Trash st + countOf Unsorted st.
Proof. done. Qed.

(** One counter having grown by one, the notes routed are one more. *)
Lemma processed_step c st st' :
  (∀ c', countOf c' st' =
         countOf c' st + (if decide (c' = c) then 1 else 0)) →
  processed st' = S (processed st).
Proof.
  intros Hc. rewrite !processed_countOf, !Hc.
  destruct c; repeat case_decide; try done; lia.
Qed.

Lemma processNote_ok note st st' :
  processNote cfg localeCompare disk note st = (st', inr tt) →
  processed st' = S (processed st).
Proof.
  intros Hp. apply processNote_outcome in Hp.
  destruct (prepareNote cfg localeCompare disk note)
    as [e|[[[title a] t] md]]; [by destruct Hp|].
  destruct Hp as [Hc _]. by eapply processed_step.
Qed.

Lemma processNote_starts note st :
  ∃ more,
    console (processNote cfg localeCompare disk note st).1 =
    console st ++
    ("Processing note: " +:+ templateString note) :: more.
Proof.
  unfold processNote. unfold mbind, run_bind, liftResult. simpl.
  destruct (readJson disk _) as [noteJson|]; simpl;
    [|by exists []].
  destruct (titleOf noteJson note) as [|title]; simpl; [by exists []|].
  destruct (setField noteJson "title" (JStr title)) as [|noteJson'];
    simpl; [by exists []|].
  destruct (getField noteJson' "isArchived") as [|isArchived];
    simpl; [by exists []|].
  destruct (getField noteJson' "isTrashed") as [|isTrashed];
    simpl; [by exists []|].
  destruct (convertNoteToMarkdown cfg localeCompare noteJson') as [|markdown];
    simpl; [by exists []|].
  unfold routeNote, Bun_write, file_delete. unfold mbind, run_bind.
  destruct (truthy_opt isTrashed), (truthy_opt isArchived), (dryRun cfg),
    (shouldDeleteOriginalNotes cfg); simpl;
    repeat match goal with
      | |- context [writeRejected disk ?s ?p ?m] =>
          destruct (writeRejected disk s p m); simpl
      | |- context [deleteRejected disk ?s ?p] =>
          destruct (deleteRejected disk s p); simpl
      end;
    rewrite <- ?app_assoc; simpl; eexists; reflexivity.
Qed.

Lemma processNote_rejected note st :
  readJson disk (noteInputDir cfg +:+ "/" +:+ templateString note)
  = None →
  ∃ st', processNote cfg localeCompare disk note st = (st', inl Rejected) ∧
         processed st' = processed st ∧ written st' = written st.
Proof.
  intros Hread. unfold processNote. unfold mbind, run_bind, liftResult.
  simpl. rewrite Hread. simpl. eexists. split; [reflexivity|done].
Qed.

(** *** The whole loop *)

Lemma forEach_app {A} (l1 l2 : list A) (body : A → Run unit) st :
  forEach (l1 ++ l2) body st =
  match forEach l1 body st with
  | (st', inl e) => (st', inl e)
  | (st', inr _) => forEach l2 body st'
  end.
Proof.
  revert st. induction l1 as [|x l1 IH]; intros st; simpl; [done|].
  unfold mbind, run_bind. destruct (body x st) as [st1 [e|[]]]; [done|].
  apply IH.
Qed.

Lemma forEach_processNote_ok notes : ∀ st st',
  forEach notes (processNote cfg localeCompare disk) st = (st', inr tt) →
  processed st' = processed st + length notes.
Proof.
  induction notes as [|note rest IH]; intros st st'; simpl.
  - intros [= <-]. lia.
  - unfold mbind, run_bind.
    destruct (processNote cfg localeCompare disk note st)
      as [st1 [e|[]]] eqn:Hp; [done|].
    intros Hrest%IH. apply processNote_ok in Hp. lia.
Qed.

(** What a whole loop leaves behind, whether it ends or is cut short. *)
Lemma forEach_processNote_sinks notes : ∀ st st' r,
  forEach notes (processNote cfg localeCompare disk) st = (st', r) →
  (dryRun cfg = true → written st' = written st ∧ deleted st' = deleted st) ∧
  (shouldDeleteOriginalNotes cfg = false → deleted st' = deleted st) ∧
  (r = inr tt →
   deleted st' =
     deleted st ++
     (if shouldDeleteOriginalNotes cfg && negb (dryRun cfg)
      then notePathOf cfg <$> notes else [])).
Proof.
  induction notes as [|note rest IH]; intros st st' r; simpl.
  - intros [= <- <-]. repeat split; try done.
    intros _. destruct (_ && _); simpl; by rewrite app_nil_r.
  - unfold mbind, run_bind.
    destruct (processNote cfg localeCompare disk note st) as [st1 r1] eqn:Hp.
    apply processNote_outcome in Hp.
    destruct (prepareNote cfg localeCompare disk note)
      as [e|[[[title a] t] md]].
    + destruct Hp as (-> & _ & Hw & Hd). intros [= <- <-].
      repeat split; try done.
    + destruct Hp as (_ & [(-> & Hw & Hd)|[(-> & Hdry' & Hw & Hd & _)|
                             (-> & Hdry' & Hdel' & Hw & Hd & _)]]).
      * intros Hrest. apply IH in Hrest as (Hdry & Hkeep & Hdel).
        split; [|split].
        -- intros Hd'. rewrite Hd' in Hw, Hd. rewrite andb_false_r in Hd.
           rewrite app_nil_r in Hw, Hd. destruct (Hdry Hd') as [-> ->]. done.
        -- intros Hs. rewrite Hs in Hd. simpl in Hd. rewrite app_nil_r in Hd.
           by rewrite (Hkeep Hs).
        -- intros Hr. rewrite (Hdel Hr), Hd.
           destruct (_ && _); simpl; by rewrite <- ?app_assoc, ?app_nil_r.
      * intros [= <- <-]. split; [congruence|]. split; [done|]. intros [=].
      * intros [= <- <-]. split; [congruence|]. split; [done|]. intros [=].
Qed.

(** *** The run *)

(** The report after the loop changes the console only. *)
Lemma runNotes_after_loop st r :
  forEach (notesToProcess cfg disk) (processNote cfg localeCompare disk)
    initialState
  = (st, r) →
  match r with
  | inl e => runNotes cfg localeCompare disk = (st, inl e)
  | inr _ =>
      ∃ st', runNotes cfg localeCompare disk = (st', inr tt) ∧
             counters st' = counters st ∧
             written st' = written st ∧ deleted st' = deleted st
  end.
Proof.
  intros Hloop. destruct r as [e|[]].
  - unfold runNotes, noteConverter. unfold mbind at 1 2.
    unfold run_bind. by rewrite Hloop.
  - unfold runNotes, noteConverter. unfold mbind at 1 2.
    unfold run_bind. rewrite Hloop.
    unfold mbind, run_bind. simpl. eexists. split; [reflexivity|done].
Qed.

(** A run that ends normally has routed every element of [notesToProcess]
    and closes with three lines: the number of [.json] files, the archived
    count and the trashed count. *)
Lemma runNotes_report st :
  runNotes cfg localeCompare disk = (st, inr tt) →
  processed st = length (notesToProcess cfg disk) ∧
  ∃ earlier,
    console st =
    earlier ++
    ["Notes total: " +:+ string_of_nat (length (jsonNotes disk));
     "Notes archived: " +:+ string_of_nat (notesArchivedCount st);
     "Notes trashed: " +:+ string_of_nat (notesTrashedCount st)].
Proof.
  unfold runNotes, noteConverter. unfold mbind at 1 2. unfold run_bind.
  destruct (forEach _ _ initialState) as [st1 [e|[]]] eqn:Hloop; [done|].
  apply forEach_processNote_ok in Hloop. simpl in Hloop.
  unfold mbind, run_bind. simpl. intros [= <-]. simpl.
  split; [done|]. exists (console st1). by rewrite <- !app_assoc.
Qed.

Lemma runNotes_sinks st r :
  runNotes cfg localeCompare disk = (st, r) →
  (dryRun cfg = true → written st = [] ∧ deleted st = []) ∧
  (shouldDeleteOriginalNotes cfg = false → deleted st = []) ∧
  (r = inr tt →
   deleted st =
     if shouldDeleteOriginalNotes cfg && negb (dryRun cfg)
     then notePathOf cfg <$> notesToProcess cfg disk else []).
Proof.
  destruct (forEach (notesToProcess cfg disk)
              (processNote cfg localeCompare disk) initialState)
    as [st1 r1] eqn:Hloop.
  pose proof (runNotes_after_loop st1 r1 Hloop) as Hrun.
  apply forEach_processNote_sinks in Hloop as (Hdry & Hkeep & Hdel).
  simpl in Hdry, Hkeep, Hdel.
  destruct r1 as [e|[]].
  - rewrite Hrun. intros [= <- <-].
    split; [exact Hdry|]. split; [exact Hkeep|]. intros [=].
  - destruct Hrun as (st' & -> & _ & Hw & Hd). intros [= <- <-].
    rewrite Hw, Hd.
    split; [exact Hdry|]. split; [exact Hkeep|exact Hdel].
Qed.

End NoteFacts.



(** C8 against the code: a run over a directory with one active note ends
    normally with the unsorted counter at 1, and the report it prints is
    the total, the archived count and the trashed count; the unsorted
    count is never printed. *)
Theorem report_omits_unsorted_count :
  ∃ st,
    runNotes (sourceConfig "0") compareAscii oneActiveNote = (st, inr tt) ∧
    notesUnsortedCount st = 1 ∧
    notesArchivedCount st = 0 ∧
    notesTrashedCount st = 0 ∧
    drop 4 (console st) =
      ["Notes total: 1"; "Notes archived: 0"; "Notes trashed: 0"] ∧
    take 4 (console st) =
      ["Processing note: a.json";
       "  Note converted to markdown: A";
       "  A: # A" +:+ newline +:+ newline +:+ "x" +:+ newline +:+ newline +:+
       "## Metadata from Google Keep" +:+ newline +:+ "*title*: A" +:+ newline;
       "  Note is not archived or trashed, moving to unsorted output directory"].
Proof. eexists. split; [vm_compute; reflexivity|]. repeat split. Qed.

(** C10, as stated, fails in one case: with the single-note switch on and
    a directory that holds no [.json] file but a JSON file named
    [undefined], the read of the absent element finds that file, the run
    ends normally and one note has been written. *)
Lemma single_note_reads_file_named_undefined :
  jsonNotes onlyUndefined = []
  ∧ ∃ st,
      runNotes (withTestOneNote (sourceConfig "0")) compareAscii onlyUndefined
      = (st, inr tt) ∧
      notesUnsortedCount st = 1 ∧
      (written st).*1 =
        ["./private-data/outputs/parseGoogleKeepExportToMd-0/unsorted/t.md"].
Proof.
  split; [reflexivity|]. eexists. split; [vm_compute; reflexivity|].
  split; reflexivity.
Qed.

Section SingleNote.
Context (cfg : Config).
Context (localeCompare : string → string → Z).
Context (disk : Disk).
Context (Htest : testOneNote cfg = true) (Hempty : jsonNotes disk = []).

Lemma notesToProcess_absent : notesToProcess cfg disk = [None].
Proof. unfold notesToProcess. by rewrite Htest, Hempty. Qed.

Lemma runNotes_single :
  runNotes cfg localeCompare disk =
  match processNote cfg localeCompare disk None initialState with
  | (st, inl e) => (st, inl e)
  | (st, inr _) =>
      (console_log ("Notes total: " +:+ string_of_nat 0) ;;
       console_log
         ("Notes archived: " +:+ string_of_nat (notesArchivedCount st)) ;;
       console_log
         ("Notes trashed: " +:+ string_of_nat (notesTrashedCount st))) st
  end.
Proof.
  unfold runNotes, noteConverter. rewrite notesToProcess_absent, Hempty.
  unfold forEach, mbind, run_bind, mret, run_ret. simpl.
  destruct (processNote cfg localeCompare disk None initialState) as [st [e|[]]]; done.
Qed.

Lemma single_note_absent_element :
  (∃ more, console (runNotes cfg localeCompare disk).1 =
           "Processing note: undefined" :: more) ∧
  (readJson disk (noteInputDir cfg +:+ "/undefined") = None →
   ∃ st, runNotes cfg localeCompare disk = (st, inl Rejected) ∧
         processed st = 0 ∧ written st = []) ∧
  (∀ st, runNotes cfg localeCompare disk = (st, inr tt) → processed st = 1).
Proof.
  rewrite runNotes_single. split; [|split].
  - destruct (processNote_starts cfg localeCompare disk None initialState)
      as [more Hc].
    simpl in Hc.
    destruct (processNote cfg localeCompare disk None initialState) as [st [e|[]]];
      simpl in *; rewrite Hc; simpl; eauto.
  - intros Hread.
    destruct (processNote_rejected cfg localeCompare disk None initialState
                Hread)
      as (st & -> & Hp & Hw).
    by exists st.
  - intros st.
    destruct (processNote cfg localeCompare disk None initialState) as [st1 [e|[]]] eqn:Hp;
      [done|].
    apply processNote_ok in Hp. intros [= <-]. exact Hp.
Qed.

End SingleNote.

(** C10, amended: with the single-note switch on and no [.json] file in the
    input directory, the loop body runs once, for the absent first element,
    whose name prints as "undefined". When no JSON file named [undefined]
    can be read from the input directory the run aborts with the rejected
    read, nothing processed and nothing written; and in no case does the
    run end normally with zero notes processed. *)
Theorem single_note_on_empty_directory (cfg : Config)
    (localeCompare : string → string → Z) (disk : Disk) :
  testOneNote cfg = true → jsonNotes disk = [] →
  (∃ more, console (runNotes cfg localeCompare disk).1 =
           "Processing note: undefined" :: more) ∧
  (readJson disk (noteInputDir cfg +:+ "/undefined") = None →
   ∃ st, runNotes cfg localeCompare disk = (st, inl Rejected) ∧
         processed st = 0 ∧ written st = []) ∧
  (∀ st, runNotes cfg localeCompare disk = (st, inr tt) → processed st = 1).
Proof. apply single_note_absent_element. Qed.

Lemma single_note_on_empty_directory_witness :
  testOneNote (withTestOneNote (sourceConfig "0")) = true
  ∧ jsonNotes noNotes = []
  ∧ readJson noNotes
      (noteInputDir (withTestOneNote (sourceConfig "0")) +:+ "/undefined")
    = None
  ∧ ∃ st, runNotes (withTestOneNote (sourceConfig "0")) compareAscii noNotes
          = (st, inl Rejected) ∧
          processed st = 0 ∧ written st = [].
Proof.
  split; [reflexivity|]. split; [reflexivity|]. split; [reflexivity|].
  exact (proj1 (proj2 (single_note_on_empty_directory
                         (withTestOneNote (sourceConfig "0")) compareAscii
                         noNotes eq_refl eq_refl)) eq_refl).
Defined.

(** ** The contact scraper *)

Section ContactFacts.
Context (phone : string → PhoneResult).
Context (toLowerCase : string → string).
Context (getProfile : string → result Profile).

Lemma orNull_profileUrl public_id :
  orNull ("https://www.linkedin.com/in/" +:+ public_id) =
  Some ("https://www.linkedin.com/in/" +:+ public_id).
Proof. reflexivity. Qed.

(** An invalid number yields [null]. *)
Lemma formatPhoneNumber_invalid raw :
  isValid (phone raw) = false → formatPhoneNumber phone raw = None.
Proof. unfold formatPhoneNumber. by intros ->. Qed.

(** Invalid numbers leave no trace in [phones]. *)
Lemma phones_drop_invalid raw l :
  isValid (phone raw) = false →
  omap (formatPhoneNumber phone) (raw :: l) =
  omap (formatPhoneNumber phone) l.
Proof. intros H. simpl. by rewrite formatPhoneNumber_invalid. Qed.

(** A valid number made of +1 and ten digits is stripped and grouped. *)
Lemma formatPhoneNumber_default raw national :
  isValid (phone raw) = true →
  phoneNumber (phone raw) = "+1" +:+ national →
  String.length national = 10 → allDigits national = true →
  formatPhoneNumber phone raw =
  Some ("(" +:+ substring 0 3 national +:+ ") " +:+
        substring 3 3 national +:+ "-" +:+ substring 6 4 national).
Proof.
  intros Hvalid Hnum Hlen Hdigits. unfold formatPhoneNumber.
  rewrite Hvalid, Hnum. simpl.
  do 10 (destruct national as [|? national]; [done|]).
  destruct national; [|done].
  unfold stripPlusOne. simpl. simpl in Hdigits. rewrite Hdigits. done.
Qed.

Lemma scrapeOne_output st url item :
  item ∈ (scrapeOne phone toLowerCase getProfile st url).1 →
  item ∈ st.1 ∨
  ∃ identifier contact public_id,
    split url "/in/" !! 1 = Some identifier ∧
    getProfile identifier = inr contact ∧
    provider contact = "LINKEDIN" ∧
    public_identifier contact = Some public_id ∧
    item = outputItem phone toLowerCase contact public_id.
Proof.
  destruct st as [outputData trace]. unfold scrapeOne. simpl.
  destruct (split url "/in/" !! 1) as [identifier|] eqn:Hsplit; simpl;
    [|by left].
  destruct (String.eqb identifier ""); simpl; [by left|].
  destruct (getProfile identifier) as [e|contact] eqn:Hget; simpl;
    [by left|].
  destruct (String.eqb_spec (provider contact) "LINKEDIN") as [Hprov|];
    [|by left].
  destruct (public_identifier contact) as [public_id|] eqn:Hid; simpl;
    [|by left].
  intros [Hin| ->%list_elem_of_singleton]%elem_of_app; [by left|].
  right. by exists identifier, contact, public_id.
Qed.

Lemma scrapeAll_output urls : ∀ st item,
  item ∈ (fold_left (scrapeOne phone toLowerCase getProfile) urls st).1 →
  item ∈ st.1 ∨
  ∃ url identifier contact public_id,
    url ∈ urls ∧
    split url "/in/" !! 1 = Some identifier ∧
    getProfile identifier = inr contact ∧
    provider contact = "LINKEDIN" ∧
    public_identifier contact = Some public_id ∧
    item = outputItem phone toLowerCase contact public_id.
Proof.
  induction urls as [|url rest IH]; intros st item Hin; simpl in Hin.
  - by left.
  - apply IH in Hin as [Hin|(u & i & c & p & Hu & H)].
    + apply scrapeOne_output in Hin as [?|(i & c & p & H)]; [by left|].
      right. exists url, i, c, p. split; [apply list_elem_of_here|done].
    + right. exists u, i, c, p. split; [by apply list_elem_of_further|done].
Qed.

End ContactFacts.

(** C4 against the code: of the three raw numbers of the sample profile,
    the unparsable one leaves no entry in [phones] and the +1 number is
    rendered as (NNN) NNN-NNNN, as claimed; the valid +44 number is not
    passed through unchanged: its normalised text "+447911123456" comes out
    as "+(447) 911-123456", the first ten digits having been regrouped. *)
Theorem phones_regroup_foreign_number :
  phones (outputItem samplePhone lowerAscii (sampleProfile "ada") "ada")
  = ["(817) 569-8900"; "+(447) 911-123456"]
  ∧ formatPhoneNumber samplePhone "not a number" = None
  ∧ formatPhoneNumber samplePhone "817-569-8900" = Some "(817) 569-8900"
  ∧ phoneNumber (samplePhone "+44 7911 123456") = "+447911123456"
  ∧ formatPhoneNumber samplePhone "+44 7911 123456"
    = Some "+(447) 911-123456".
Proof. repeat split. Qed.

(** C5 against the code: of two well-formed URLs the lookup of the first
    throws and the lookup of the second succeeds. The delay follows the
    second record only; after the failed lookup the loop prints the error
    and goes straight on to the next lookup. *)
Theorem no_delay_after_failed_lookup :
  scrapeAll samplePhone lowerAscii sampleService
    ["https://www.linkedin.com/in/a"; "https://www.linkedin.com/in/b"]
  = ([outputItem samplePhone lowerAscii (sampleProfile "b") "b"],
     [GetProfile "a";
      ConsoleError
        "Error fetching profile for https://www.linkedin.com/in/a:";
      GetProfile "b";
      ConsoleLog "Record added for https://www.linkedin.com/in/b";
      Sleep]).
Proof. reflexivity. Qed.

(** C9: every record the contact scraper adds to its output has a profile
    URL that is not null and reads https://www.linkedin.com/in/ followed by
    the public identifier of the profile that was looked up for one of the
    input URLs. *)
Theorem profileUrl_never_null
    (phone : string → PhoneResult) (toLowerCase : string → string)
    (getProfile : string → result Profile)
    (urls : list string) (item : OutputItem) :
  item ∈ (scrapeAll phone toLowerCase getProfile urls).1 →
  ∃ url identifier contact public_id,
    url ∈ urls ∧
    split url "/in/" !! 1 = Some identifier ∧
    getProfile identifier = inr contact ∧
    public_identifier contact = Some public_id ∧
    profileUrl item = Some ("https://www.linkedin.com/in/" +:+ public_id).
Proof.
  intros Hin. apply scrapeAll_output in Hin as [Hin|Hin].
  - by apply elem_of_nil in Hin.
  - destruct Hin as (url & i & c & p & Hu & Hs & Hg & _ & Hp & ->).
    exists url, i, c, p. repeat (split; [done|]). reflexivity.
Qed.

Lemma profileUrl_never_null_witness :
  outputItem samplePhone lowerAscii (sampleProfile "b") "b" ∈
    (scrapeAll samplePhone lowerAscii sampleService
       ["https://www.linkedin.com/in/a"; "https://www.linkedin.com/in/b"]).1
  ∧ ∃ url identifier contact public_id,
      url ∈ ["https://www.linkedin.com/in/a"; "https://www.linkedin.com/in/b"] ∧
      split url "/in/" !! 1 = Some identifier ∧
      sampleService identifier = inr contact ∧
      public_identifier contact = Some public_id ∧
      profileUrl (outputItem samplePhone lowerAscii (sampleProfile "b") "b") =
        Some ("https://www.linkedin.com/in/" +:+ public_id).
Proof.
  assert (H : outputItem samplePhone lowerAscii (sampleProfile "b") "b" ∈
    (scrapeAll samplePhone lowerAscii sampleService
       ["https://www.linkedin.com/in/a"; "https://www.linkedin.com/in/b"]).1).
  { vm_compute. apply list_elem_of_here. }
  split; [exact H|].
  exact (profileUrl_never_null samplePhone lowerAscii sampleService _ _ H).
Defined.

(** ** Examples from the specification *)

Example flatten_nested_object :
  recursivelyGetProperties (sourceConfig "0")
    (JObj [("a", JObj [("b", JNum 1); ("c", JNum 2)])]) [] None
  = [("a.b", JNum 1); ("a.c", JNum 2)].
Proof. reflexivity. Qed.

Example normalizeTitle_example :
  normalizeTitle ("A/B:C?D" +:+ backslash +:+ "E") = "A_B_C_D_E".
Proof. reflexivity. Qed.

(** Numbers print as the runtime prints them: an integer that no double
    holds prints as the double it is read as, and from 10^21 on in the
    form with an exponent. *)
Example numberText_examples :
  numberText 0 = "0" ∧ numberText (-17) = "-17" ∧
  numberText 1700000000000000 = "1700000000000000" ∧
  numberText 9007199254740993 = "9007199254740992" ∧
  numberText 123456789012345678901 = "123456789012345680000" ∧
  numberText (10 ^ 21) = "1e+21" ∧
  numberText (2 ^ 70) = "1.1805916207174113e+21" ∧
  numberText (- 2 ^ 1024) = "-Infinity".
Proof. repeat split; vm_compute; reflexivity. Qed.

(** An array prints its elements, an object prints as [object Object], and
    an object with an own property [toString] has no text. *)
Example toText_examples :
  toText (JArr [JNum 1; JNull; JArr [JStr "a"; JBool true]; JObj []])
  = inr "1,,a,true,[object Object]" ∧
  toText (JObj [("toString", JNum 1)]) = inl TypeError ∧
  toText (JArr [JStr "a"; JObj [("toString", JNull)]]) = inl TypeError.
Proof. repeat split; vm_compute; reflexivity. Qed.

(** An assignment to [__proto__] creates a property only once the accessor
    of [Object.prototype] is out of reach. *)
Example setProperty_proto_examples :
  props (setProperty emptyObject "__proto__" (JStr "p")) = [] ∧
  props (setProperty (setProperty emptyObject "__proto__" JNull)
           "__proto__" (JStr "p")) = [("__proto__", JStr "p")] ∧
  props (setProperty
           (setProperty emptyObject "__proto__"
              (JObj [("__proto__", JNum 1)]))
           "__proto__" (JStr "p")) = [("__proto__", JStr "p")] ∧
  props (setProperty
           (setProperty emptyObject "__proto__" (JArr [JNum 1]))
           "__proto__" (JStr "p")) = [].
Proof. repeat split. Qed.

Example trashed_and_archived_goes_to_trash :
  (written
     (routeNote (sourceConfig "0") oneActiveNote (Some (JBool true))
        (Some (JBool true)) "t" "m" initialState).1).*1
  = ["./private-data/outputs/parseGoogleKeepExportToMd-0/trash/t.md"].
Proof. reflexivity. Qed.

(** * Further properties of the note converter *)

(** ** Titles *)

(** X1: a normalized title has the length of the title, contains none of
    the characters / \ : ? and is left as it is by a second normalization;
    a title without these characters is not changed. *)
Theorem normalizeTitle_safe (title : string) :
  String.length (normalizeTitle title) = String.length title ∧
  noForbidden (normalizeTitle title) = true ∧
  normalizeTitle (normalizeTitle title) = normalizeTitle title ∧
  (noForbidden title = true → normalizeTitle title = title).
Proof.
  induction title as [|c s (IHlen & IHsafe & IHidem & IHid)]; [done|].
  simpl. unfold forbiddenChar.
  destruct ((N_of_ascii c =? 47)%N || (N_of_ascii c =? 92)%N ||
            (N_of_ascii c =? 58)%N || (N_of_ascii c =? 63)%N) eqn:Hc; simpl.
  - rewrite IHlen, IHsafe, IHidem. done.
  - rewrite Hc. simpl. rewrite IHlen, IHsafe, IHidem.
    repeat split; try done. intros H. by rewrite IHid.
Qed.

Lemma normalizeTitle_safe_witness :
  noForbidden "Shopping list" = true ∧
  normalizeTitle "Shopping list" = "Shopping list".
Proof.
  split; [reflexivity|].
  exact (proj2 (proj2 (proj2 (normalizeTitle_safe "Shopping list"))) eq_refl).
Defined.

(** ** Flattening *)

Section FlattenMore.
Context (cfg : Config).

Lemma fold_visit_acc fields :
  Forall (λ kv, ∀ acc pn,
            recursivelyGetProperties cfg kv.2 acc pn =
            acc ++ recursivelyGetProperties cfg kv.2 [] pn) fields →
  ∀ acc pn,
    fold_left
      (λ acc kv,
         visitProperty cfg (recursivelyGetProperties cfg) pn kv.1 kv.2 acc)
      fields acc
    = acc ++
      fold_left
        (λ acc kv,
           visitProperty cfg (recursivelyGetProperties cfg) pn kv.1 kv.2 acc)
        fields [].
Proof.
  induction fields as [|[k x] rest IH]; intros Hall acc pn; simpl.
  - by rewrite app_nil_r.
  - apply Forall_cons in Hall as [Hx Hrest]. simpl in Hx.
    rewrite (IH Hrest (visitProperty _ _ _ _ _ acc)).
    rewrite (IH Hrest (visitProperty _ _ _ _ _ [])).
    rewrite app_assoc. f_equal.
    unfold visitProperty.
    destruct (includes (propertiesToIgnore cfg) k); [by rewrite app_nil_r|].
    destruct (is_object x); [apply Hx|done].
Qed.

Lemma flatten_acc v acc pn :
  recursivelyGetProperties cfg v acc pn =
  acc ++ recursivelyGetProperties cfg v [] pn.
Proof.
  revert acc pn.
  induction v as [| | | |elems IH|fields IH] using value_nested_ind;
    intros acc pn; try (by rewrite app_nil_r).
  - rewrite !flatten_arr, !flatten_obj. apply fold_visit_acc.
    by apply (indexed_values
                (λ v, ∀ acc pn,
                   recursivelyGetProperties cfg v acc pn =
                   acc ++ recursivelyGetProperties cfg v [] pn)).
  - rewrite !flatten_obj. by apply fold_visit_acc.
Qed.

Lemma flatten_flat fields acc pn :
  Forall (λ kv : string * value, is_object kv.2 = false) fields →
  recursivelyGetProperties cfg (JObj fields) acc pn =
  acc ++
  ((λ kv : string * value, (currentPath pn kv.1, kv.2)) <$>
     filter (λ kv : string * value,
               includes (propertiesToIgnore cfg) kv.1 = false) fields).
Proof.
  rewrite flatten_obj. revert acc.
  induction fields as [|[k x] rest IH]; intros acc Hall; simpl.
  - by rewrite app_nil_r.
  - apply Forall_cons in Hall as [Hx Hrest]. simpl in Hx.
    rewrite (IH _ Hrest). unfold visitProperty. rewrite Hx.
    destruct (includes (propertiesToIgnore cfg) k) eqn:Hk.
    + rewrite filter_cons_False by (simpl; congruence). done.
    + rewrite filter_cons_True by done. simpl. by rewrite <- app_assoc.
Qed.

Lemma currentPath_truthy p property :
  p ≠ "" → currentPath (Some p) property = p +:+ "." +:+ property.
Proof.
  intros Hp. unfold currentPath. by rewrite truthy_str_nonempty.
Qed.

Lemma append_nonempty a b : a ≠ "" → a +:+ b ≠ "".
Proof. by destruct a. Qed.

Lemma fold_under_path fields :
  Forall (λ kv, ∀ p acc e,
            p ≠ "" →
            e ∈ recursivelyGetProperties cfg kv.2 acc (Some p) →
            e ∈ acc ∨ ∃ r, e.1 = p +:+ "." +:+ r) fields →
  ∀ p acc e,
    p ≠ "" →
    e ∈ fold_left
          (λ acc kv,
             visitProperty cfg (recursivelyGetProperties cfg) (Some p)
               kv.1 kv.2 acc)
          fields acc →
    e ∈ acc ∨ ∃ r, e.1 = p +:+ "." +:+ r.
Proof.
  induction fields as [|[k x] rest IH]; intros Hall p acc e Hp Hin;
    simpl in Hin.
  - by left.
  - apply Forall_cons in Hall as [Hx Hrest]. simpl in Hx.
    apply (IH Hrest p _ e Hp) in Hin as [Hin|Hr]; [|by right].
    unfold visitProperty in Hin.
    destruct (includes (propertiesToIgnore cfg) k); [by left|].
    rewrite currentPath_truthy in Hin by done.
    destruct (is_object x).
    + apply Hx in Hin as [Hin|[r Hr]]; [by left| |by apply append_nonempty].
      right. exists (k +:+ "." +:+ r). by rewrite Hr, !append_assoc.
    + apply elem_of_app in Hin as [Hin|Hin]; [by left|].
      apply list_elem_of_singleton in Hin as ->. right. by exists k.
Qed.

Lemma flatten_under_path v p acc e :
  p ≠ "" →
  e ∈ recursivelyGetProperties cfg v acc (Some p) →
  e ∈ acc ∨ ∃ r, e.1 = p +:+ "." +:+ r.
Proof.
  revert p acc e.
  induction v as [| | | |elems IH|fields IH] using value_nested_ind;
    intros p acc e Hp Hin; try (by left).
  - rewrite flatten_arr, flatten_obj in Hin.
    eapply fold_under_path; [|exact Hp|exact Hin].
    by apply (indexed_values
                (λ v, ∀ p acc e,
                   p ≠ "" →
                   e ∈ recursivelyGetProperties cfg v acc (Some p) →
                   e ∈ acc ∨ ∃ r, e.1 = p +:+ "." +:+ r)).
  - rewrite flatten_obj in Hin.
    eapply fold_under_path; [exact IH|exact Hp|exact Hin].
Qed.

End FlattenMore.

(** X2: [recursivelyGetProperties] only appends to the accumulator it is
    given: the entries already collected stay, in their order, in front of
    the new ones, and the new ones do not depend on them. *)
Theorem flatten_only_appends (cfg : Config) (inputObj : value)
    (accProperties : list entry) (propertyName : option string) :
  recursivelyGetProperties cfg inputObj accProperties propertyName =
  accProperties ++ recursivelyGetProperties cfg inputObj [] propertyName.
Proof. apply flatten_acc. Qed.

(** X3: for a record none of whose fields holds an object or an array, the
    flattened entries are exactly the fields whose name is not in the
    ignore list, in the order of the record, each under its own name and
    with its own value. *)
Theorem flatten_flat_record (cfg : Config) (fields : list (string * value)) :
  Forall (λ kv : string * value, is_object kv.2 = false) fields →
  recursivelyGetProperties cfg (JObj fields) [] None =
  filter (λ kv : string * value,
            includes (propertiesToIgnore cfg) kv.1 = false) fields.
Proof.
  intros Hflat. rewrite flatten_flat by done. simpl.
  induction (filter _ fields) as [|[k x] l IH]; [done|].
  rewrite fmap_cons. simpl. by f_equal.
Qed.

Lemma flatten_flat_record_witness :
  Forall (λ kv : string * value, is_object kv.2 = false)
    [("title", JStr "t"); ("color", JStr "RED"); ("n", JNull)]
  ∧ recursivelyGetProperties (sourceConfig "0")
      (JObj [("title", JStr "t"); ("color", JStr "RED"); ("n", JNull)])
      [] None
    = filter (λ kv : string * value,
                includes (propertiesToIgnore (sourceConfig "0")) kv.1 = false)
        [("title", JStr "t"); ("color", JStr "RED"); ("n", JNull)].
Proof.
  assert (H : Forall (λ kv : string * value, is_object kv.2 = false)
    [("title", JStr "t"); ("color", JStr "RED"); ("n", JNull)])
    by (repeat constructor).
  exact (conj H (flatten_flat_record (sourceConfig "0") _ H)).
Defined.

(** X4: while an object or array is visited under a non-empty path, every
    entry that is added has a path that starts with that path followed by
    ".", however deep the entry lies. *)
Theorem flatten_paths_extend_parent (cfg : Config) (inputObj : value)
    (parent : string) (e : entry) :
  parent ≠ "" →
  e ∈ recursivelyGetProperties cfg inputObj [] (Some parent) →
  ∃ rest, e.1 = parent +:+ "." +:+ rest.
Proof.
  intros Hp Hin.
  apply flatten_under_path in Hin as [Hin|Hr]; [|done|done].
  by apply elem_of_nil in Hin.
Qed.

Lemma flatten_paths_extend_parent_witness :
  "a" ≠ ""
  ∧ ("a.b.c", JNum 1) ∈
      recursivelyGetProperties (sourceConfig "0")
        (JObj [("b", JObj [("c", JNum 1)])]) [] (Some "a")
  ∧ ∃ rest, "a.b.c" = "a" +:+ "." +:+ rest.
Proof.
  assert (H1 : "a" ≠ "") by discriminate.
  assert (H2 : ("a.b.c", JNum 1) ∈
      recursivelyGetProperties (sourceConfig "0")
        (JObj [("b", JObj [("c", JNum 1)])]) [] (Some "a")).
  { vm_compute. apply list_elem_of_here. }
  exact (conj H1 (conj H2
           (flatten_paths_extend_parent (sourceConfig "0") _ "a" _ H1 H2))).
Defined.

(** X5: the values of flattened entries are never objects or arrays, so
    [formatMetadataValue] never reaches [JSON.stringify] on them: [null]
    prints as the empty text and every other value as its plain text,
    which its conversion to a string yields without throwing. *)
Theorem format_of_flattened_value (cfg : Config) (record : value) (e : entry) :
  e ∈ recursivelyGetProperties cfg record [] None →
  inr (formatMetadataValue e.2) =
  match e.2 with
  | JNull => inr ""
  | v => toText v
  end.
Proof.
  intros Hin. apply flatten_leaves in Hin as [Hin|Hleaf].
  - by apply elem_of_nil in Hin.
  - by destruct e.2.
Qed.

Lemma format_of_flattened_value_witness :
  ("n", JNum 3) ∈
    recursivelyGetProperties (sourceConfig "0")
      (JObj [("n", JNum 3); ("tags", JArr [JNull])]) [] None
  ∧ inr (formatMetadataValue (JNum 3)) = toText (JNum 3).
Proof.
  assert (H : ("n", JNum 3) ∈
    recursivelyGetProperties (sourceConfig "0")
      (JObj [("n", JNum 3); ("tags", JArr [JNull])]) [] None).
  { vm_compute. apply list_elem_of_here. }
  exact (conj H (format_of_flattened_value (sourceConfig "0") _ _ H)).
Defined.

(** ** The result object *)

(** X6: whatever [localeCompare] answers, [orderMetadata] returns normally
    exactly when no entry has an empty path. The object it returns has
    pairwise distinct keys, each the path of an entry and with the value of
    an entry of that path, and every path other than [__proto__] is a key.
    The path [__proto__] is no key as long as its entries hold strings,
    numbers or booleans: such an assignment goes to the accessor of
    [Object.prototype] and is lost. Otherwise what [orderMetadata] throws
    is an [Error]. *)
Theorem orderMetadata_succeeds_iff (cfg : Config)
    (localeCompare : string → string → Z) (metadata : list entry) :
  ((∀ e, e ∈ metadata → e.1 ≠ "") ↔
   ∃ ordered, orderMetadata cfg localeCompare metadata = inr ordered) ∧
  (∀ ordered,
     orderMetadata cfg localeCompare metadata = inr ordered →
     NoDup ordered.*1 ∧
     (∀ k, k ∈ ordered.*1 → k ∈ metadata.*1) ∧
     (∀ k, k ≠ "__proto__" → k ∈ metadata.*1 → k ∈ ordered.*1) ∧
     (∀ kv, kv ∈ ordered → kv ∈ metadata) ∧
     ((∀ e : entry, e ∈ metadata →
         e.1 = "__proto__" → isPrimitive e.2 = true) →
      "__proto__" ∉ ordered.*1)) ∧
  (∀ err,
     orderMetadata cfg localeCompare metadata = inl err →
     ∃ message, err = Error message).
Proof.
  pose proof (orderMetadata_general cfg localeCompare metadata) as Hsucc.
  assert (Hfail : ∀ e, e ∈ metadata → e.1 = "" →
    ∃ message, orderMetadata cfg localeCompare metadata = inl (Error message))
    by apply orderMetadata_empty_path.
  assert (Hdec : (∀ e : entry, e ∈ metadata → e.1 ≠ "") ∨
                 (∃ e : entry, e ∈ metadata ∧ e.1 = "")).
  { clear. induction metadata as [|x l [IH|(e & He & Hempty)]].
    - left. by intros e ?%elem_of_nil.
    - destruct (decide (x.1 = "")) as [Hx|Hx].
      + right. exists x. split; [apply list_elem_of_here|done].
      + left. intros e [->|?]%elem_of_cons; auto.
    - right. exists e. split; [by apply list_elem_of_further|done]. }
  split; [|split].
  - split.
    + intros Hok. destruct (Hsucc Hok) as (ordered & H & _). by exists ordered.
    + intros [ordered Hord] e He Hempty.
      destruct (Hfail e He Hempty) as [message Hm]. congruence.
  - intros ordered Hord. destruct Hdec as [Hok|(e & He & Hempty)].
    + destruct (Hsucc Hok) as (ordered' & H & Hrest).
      assert (ordered' = ordered) as <- by congruence. exact Hrest.
    + destruct (Hfail e He Hempty) as [message Hm]. congruence.
  - intros err Herr. destruct Hdec as [Hok|(e & He & Hempty)].
    + destruct (Hsucc Hok) as (ordered' & H & _). congruence.
    + destruct (Hfail e He Hempty) as [message Hm].
      exists message. congruence.
Qed.

Lemma orderMetadata_succeeds_iff_witness :
  orderMetadata (sourceConfig "0") compareAscii
    [("7", JNum 1); ("__proto__", JNum 2); ("title", JStr "t")]
  = inr [("7", JNum 1); ("title", JStr "t")]
  ∧ NoDup [("7", JNum 1); ("title", JStr "t")].*1
  ∧ orderMetadata (sourceConfig "0") compareAscii
      [("title", JStr "t"); ("", JNum 1)]
    = inl (Error "Invalid metadata -- aKey or bKey is undefined")
  ∧ ∃ message,
      Error "Invalid metadata -- aKey or bKey is undefined" = Error message.
Proof.
  assert (H1 : orderMetadata (sourceConfig "0") compareAscii
                 [("7", JNum 1); ("__proto__", JNum 2); ("title", JStr "t")]
               = inr [("7", JNum 1); ("title", JStr "t")]) by reflexivity.
  assert (H2 : orderMetadata (sourceConfig "0") compareAscii
                 [("title", JStr "t"); ("", JNum 1)]
               = inl (Error "Invalid metadata -- aKey or bKey is undefined"))
    by reflexivity.
  exact (conj H1 (conj
           (proj1 (proj1 (proj2 (orderMetadata_succeeds_iff
                                   (sourceConfig "0") compareAscii _)) _ H1))
           (conj H2
              (proj2 (proj2 (orderMetadata_succeeds_iff
                               (sourceConfig "0") compareAscii _)) _ H2)))).
Defined.

(** A list with distinct keys that holds every key of another such list
    and only its entries is a permutation of it. *)
Lemma same_entries_permutation (ordered metadata : list entry) :
  NoDup ordered.*1 → NoDup metadata.*1 →
  (∀ k, k ∈ metadata.*1 → k ∈ ordered.*1) →
  (∀ kv, kv ∈ ordered → kv ∈ metadata) →
  ordered ≡ₚ metadata.
Proof.
  intros Hnd' Hnd Hkeys Hfrom.
  apply NoDup_Permutation.
  - by eapply NoDup_fmap_1.
  - by eapply NoDup_fmap_1.
  - intros [k v]. split; [apply Hfrom|]. intros Hin.
    assert (k ∈ ordered.*1) as Hk.
    { apply Hkeys. apply list_elem_of_fmap. by exists (k, v). }
    apply list_elem_of_fmap in Hk as ([k' v'] & Heq & Hin').
    simpl in Heq. subst k'.
    assert (v' = v) as ->; [|done].
    apply Hfrom in Hin'.
    clear -Hnd Hin Hin'. induction metadata as [|[k0 v0] l IH];
      [by apply elem_of_nil in Hin|].
    rewrite fmap_cons in Hnd. apply NoDup_cons in Hnd as [Hk0 Hnd].
    simpl in Hk0.
    apply elem_of_cons in Hin as [Hin|Hin];
      apply elem_of_cons in Hin' as [Hin'|Hin'].
    + congruence.
    + injection Hin as -> ->. exfalso. apply Hk0.
      apply list_elem_of_fmap. by exists (k0, v').
    + injection Hin' as -> ->. exfalso. apply Hk0.
      apply list_elem_of_fmap. by exists (k0, v).
    + by apply IH.
Qed.

Lemma orderMetadata_perm (cfg : Config)
    (localeCompare : string → string → Z) (metadata : list entry) :
  NoDup metadata.*1 →
  (∀ e, e ∈ metadata → e.1 ≠ "" ∧ e.1 ≠ "__proto__") →
  ∃ ordered,
    orderMetadata cfg localeCompare metadata = inr ordered ∧
    ordered ≡ₚ metadata.
Proof.
  intros Hnd Hok.
  destruct (orderMetadata_general cfg localeCompare metadata)
    as (ordered & Hord & Hnd' & _ & Hcov & Hfrom & _).
  { intros e He. by apply Hok. }
  exists ordered. split; [done|].
  apply same_entries_permutation; try done.
  intros k Hk. apply Hcov; [|done].
  apply list_elem_of_fmap in Hk as (e & -> & He). by apply Hok.
Qed.

(** X7: when the paths of the entries are pairwise distinct, not empty and
    not [__proto__], [orderMetadata] loses nothing and changes no value,
    whatever [localeCompare] answers: the entries of the returned object
    are a permutation of the entries it was given. *)
Theorem orderMetadata_permutation (cfg : Config)
    (localeCompare : string → string → Z) (metadata : list entry) :
  NoDup metadata.*1 →
  (∀ e, e ∈ metadata → e.1 ≠ "" ∧ e.1 ≠ "__proto__") →
  ∃ ordered,
    orderMetadata cfg localeCompare metadata = inr ordered ∧
    ordered ≡ₚ metadata.
Proof. apply orderMetadata_perm. Qed.

Lemma orderMetadata_permutation_witness :
  NoDup [("zeta", JNum 1); ("title", JStr "t"); ("7", JNum 3)].*1
  ∧ (∀ e : entry,
       e ∈ [("zeta", JNum 1); ("title", JStr "t"); ("7", JNum 3)] →
       e.1 ≠ "" ∧ e.1 ≠ "__proto__")
  ∧ ∃ ordered,
      orderMetadata (sourceConfig "0") compareAscii
        [("zeta", JNum 1); ("title", JStr "t"); ("7", JNum 3)]
      = inr ordered ∧
      ordered ≡ₚ [("zeta", JNum 1); ("title", JStr "t"); ("7", JNum 3)].
Proof.
  assert (H1 : NoDup
    [("zeta", JNum 1); ("title", JStr "t"); ("7", JNum 3)].*1).
  { simpl. repeat (apply NoDup_cons_2;
      [rewrite ?not_elem_of_cons; repeat split;
         (discriminate || apply not_elem_of_nil)|]).
    apply NoDup_nil_2. }
  assert (H2 : ∀ e : entry,
     e ∈ [("zeta", JNum 1); ("title", JStr "t"); ("7", JNum 3)] →
     e.1 ≠ "" ∧ e.1 ≠ "__proto__").
  { intros e He.
    repeat (apply elem_of_cons in He as [-> |He];
            [split; simpl; discriminate|]).
    by apply elem_of_nil in He. }
  exact (conj H1 (conj H2
           (orderMetadata_permutation (sourceConfig "0") compareAscii
              _ H1 H2))).
Defined.

(** ** Conversion of one note *)

Section ConvertFacts.
Context (cfg : Config).

Lemma string_of_nat_nonempty i : string_of_nat i ≠ "".
Proof.
  unfold string_of_nat, string_of_N, NilZero.string_of_uint.
  by destruct (N.to_uint (N.of_nat i)).
Qed.

Lemma currentPath_nonempty pn property :
  property ≠ "" → currentPath pn property ≠ "".
Proof.
  intros Hne. unfold currentPath. destruct pn as [p|]; [|done]. simpl.
  destruct (String.eqb_spec p "") as [->|Hp]; simpl; [done|].
  by apply append_nonempty.
Qed.

Lemma imap_keysNonEmpty (f : nat → string) elems :
  (∀ i, f i ≠ "") →
  forallb keysNonEmpty elems = true →
  forallb (λ kv, negb (String.eqb kv.1 "") && keysNonEmpty kv.2)
    (imap (λ i e, (f i, e)) elems) = true.
Proof.
  revert f. induction elems as [|e rest IH]; intros f Hf; simpl; [done|].
  intros [He Hrest]%andb_prop. rewrite He.
  pose proof (Hf 0) as H0. apply String.eqb_neq in H0. rewrite H0. simpl.
  apply (IH (f ∘ S)); [|done]. intros i. apply Hf.
Qed.

Lemma fold_nonempty_paths fields :
  Forall (λ kv, keysNonEmpty kv.2 = true → ∀ acc pn e,
            e ∈ recursivelyGetProperties cfg kv.2 acc pn →
            e ∈ acc ∨ e.1 ≠ "") fields →
  forallb (λ kv, negb (String.eqb kv.1 "") && keysNonEmpty kv.2) fields
  = true →
  ∀ acc pn e,
    e ∈ fold_left
          (λ acc kv,
             visitProperty cfg (recursivelyGetProperties cfg) pn kv.1 kv.2 acc)
          fields acc →
    e ∈ acc ∨ e.1 ≠ "".
Proof.
  induction fields as [|[k x] rest IH]; intros Hall Hkeys acc pn e Hin;
    simpl in Hin.
  - by left.
  - apply Forall_cons in Hall as [Hx Hrest]. simpl in Hkeys.
    apply andb_prop in Hkeys as [[Hk Hxk]%andb_prop Hkeys].
    apply negb_true_iff, String.eqb_neq in Hk. simpl in Hk.
    apply (IH Hrest Hkeys) in Hin as [Hin|Hok]; [|by right].
    unfold visitProperty in Hin. simpl in Hin, Hx.
    destruct (includes (propertiesToIgnore cfg) k); [by left|].
    destruct (is_object x).
    + by apply (Hx Hxk) in Hin.
    + apply elem_of_app in Hin as [Hin|Hin]; [by left|].
      apply list_elem_of_singleton in Hin as ->.
      right. by apply currentPath_nonempty.
Qed.

Lemma flatten_nonempty_paths v :
  keysNonEmpty v = true → ∀ acc pn e,
  e ∈ recursivelyGetProperties cfg v acc pn → e ∈ acc ∨ e.1 ≠ "".
Proof.
  induction v as [| | | |elems IH|fields IH] using value_nested_ind;
    intros Hkeys acc pn e Hin; try (by left).
  - rewrite flatten_arr, flatten_obj in Hin.
    eapply fold_nonempty_paths; [| |exact Hin].
    + by apply (indexed_values
                  (λ v, keysNonEmpty v = true → ∀ acc pn e,
                     e ∈ recursivelyGetProperties cfg v acc pn →
                     e ∈ acc ∨ e.1 ≠ "")).
    + apply imap_keysNonEmpty; [apply string_of_nat_nonempty|done].
  - rewrite flatten_obj in Hin.
    eapply fold_nonempty_paths; [exact IH|exact Hkeys|exact Hin].
Qed.

(** The conversion of a value to a string throws nothing but a
    [TypeError]. *)
Lemma toText_TypeError v e : toText v = inl e → e = TypeError.
Proof.
  revert e.
  induction v as [| | | |elems IH|fields IH] using value_nested_ind;
    intros e; simpl; try done.
  - unfold mbind, result_bind.
    match goal with
    | |- match ?t with _ => _ end = _ → _ =>
        assert (Hall : ∀ e', t = inl e' → e' = TypeError);
        [|destruct t; [intros [= <-]; by apply Hall|done]]
    end.
    clear e. induction IH as [|x l Hx Hl IHl]; intros e'; [done|].
    destruct x; simpl; try (simpl in IHl;
      match goal with
      | |- match ?t with _ => _ end = _ → _ =>
          destruct t eqn:Ht; [intros [= <-]; by apply IHl|done]
      end).
    + match goal with
      | |- match ?t with _ => _ end = _ → _ =>
          destruct t eqn:Ht; [intros [= <-]; by apply Hx|]
      end.
      match goal with
      | |- match ?t with _ => _ end = _ → _ =>
          destruct t eqn:Ht'; [intros [= <-]; by apply IHl|done]
      end.
    + match goal with
      | |- match ?t with _ => _ end = _ → _ =>
          destruct t eqn:Ht; [intros [= <-]; by apply Hx|]
      end.
      match goal with
      | |- match ?t with _ => _ end = _ → _ =>
          destruct t eqn:Ht'; [intros [= <-]; by apply IHl|done]
      end.
  - destruct (includes fields.*1 "toString"); [by intros [= <-]|done].
Qed.

(** A value that is no object and no array always has a text. *)
Lemma toText_leaf v : is_object v = false → ∃ text, toText v = inr text.
Proof. destruct v; try done; intros _; simpl; eauto. Qed.

Lemma templateText_TypeError v e : templateText v = inl e → e = TypeError.
Proof. destruct v as [v|]; [apply toText_TypeError|done]. Qed.

End ConvertFacts.

(** X8: a note object in which no property name, at any depth, is the empty
    string is converted whenever its title and its text content can be
    turned into strings, as every value can that is not an object or an
    array: its flattened metadata can be ordered, and the markdown is the
    heading with the title, a blank line, the text content, a blank line,
    the metadata header and one line per ordered entry. A conversion that
    throws has either failed to turn the title or the text content into a
    string, a [TypeError], or met an empty path, an [Error]. *)
Theorem convert_succeeds_on_named_properties (cfg : Config)
    (localeCompare : string → string → Z) (fields : list (string * value)) :
  (∀ titleText contentText,
     keysNonEmpty (JObj fields) = true →
     templateText (lookupField "title" fields) = inr titleText →
     templateText (lookupField "textContent" fields) = inr contentText →
     ∃ ordered,
       orderMetadata cfg localeCompare
         (recursivelyGetProperties cfg (JObj fields) [] None)
       = inr ordered ∧
       convertNoteToMarkdown cfg localeCompare (JObj fields) =
       inr (("# " +:+ titleText +:+ newline +:+ newline +:+ contentText +:+
             newline) +:+
            newline +:+ "## Metadata from Google Keep" +:+ newline +:+
            metadataLines ordered)) ∧
  (∀ v, is_object v = false → ∃ text, templateText (Some v) = inr text) ∧
  (∀ err,
     convertNoteToMarkdown cfg localeCompare (JObj fields) = inl err →
     (err = TypeError ∧
      (templateText (lookupField "title" fields) = inl TypeError ∨
       templateText (lookupField "textContent" fields) = inl TypeError)) ∨
     ((∃ message, err = Error message) ∧
      ∃ e, e ∈ recursivelyGetProperties cfg (JObj fields) [] None ∧
           e.1 = "")).
Proof.
  rewrite convertNoteToMarkdown_obj. unfold mbind, result_bind.
  split; [|split].
  - intros titleText contentText Hkeys -> ->.
    destruct (orderMetadata_general cfg localeCompare
                (recursivelyGetProperties cfg (JObj fields) [] None))
      as (ordered & Hord & _).
    { intros e He.
      apply flatten_nonempty_paths in He as [He|He]; [|done|done].
      by apply elem_of_nil in He. }
    exists ordered. by rewrite Hord.
  - intros v Hv. by apply toText_leaf.
  - intros err.
    destruct (templateText (lookupField "title" fields)) as [e1|titleText]
      eqn:Ht.
    { intros [= <-]. left. apply templateText_TypeError in Ht as ->. auto. }
    destruct (templateText (lookupField "textContent" fields))
      as [e2|contentText] eqn:Hc.
    { intros [= <-]. left. apply templateText_TypeError in Hc as ->. auto. }
    destruct (orderMetadata cfg localeCompare _) as [e|ordered] eqn:Hord;
      [|done].
    intros [= <-]. right.
    assert (Hdec :
      (∀ e' : entry,
         e' ∈ recursivelyGetProperties cfg (JObj fields) [] None → e'.1 ≠ "") ∨
      (∃ e' : entry,
         e' ∈ recursivelyGetProperties cfg (JObj fields) [] None ∧ e'.1 = "")).
    { generalize (recursivelyGetProperties cfg (JObj fields) [] None).
      intros l. induction l as [|x l [IH|(e' & He & Hempty)]].
      - left. by intros e' ?%elem_of_nil.
      - destruct (decide (x.1 = "")) as [Hx|Hx].
        + right. exists x. split; [apply list_elem_of_here|done].
        + left. intros e' [->|?]%elem_of_cons; auto.
      - right. exists e'. split; [by apply list_elem_of_further|done]. }
    destruct Hdec as [Hok|(e' & He & Hempty)].
    + destruct (orderMetadata_general cfg localeCompare _ Hok)
        as (o & Ho & _).
      congruence.
    + destruct (orderMetadata_empty_path cfg localeCompare _ e' He Hempty)
        as [message Hm].
      split; [exists message; congruence|by exists e'].
Qed.

Lemma convert_succeeds_on_named_properties_witness :
  keysNonEmpty
    (JObj [("title", JStr "T"); ("textContent", JNum 7);
           ("labels", JArr [JObj [("name", JStr "x")]])])
  = true
  ∧ templateText
      (lookupField "title"
         [("title", JStr "T"); ("textContent", JNum 7);
          ("labels", JArr [JObj [("name", JStr "x")]])]) = inr "T"
  ∧ templateText
      (lookupField "textContent"
         [("title", JStr "T"); ("textContent", JNum 7);
          ("labels", JArr [JObj [("name", JStr "x")]])]) = inr "7"
  ∧ (∃ ordered,
       orderMetadata (sourceConfig "0") compareAscii
         (recursivelyGetProperties (sourceConfig "0")
            (JObj [("title", JStr "T"); ("textContent", JNum 7);
                   ("labels", JArr [JObj [("name", JStr "x")]])]) [] None)
       = inr ordered ∧
       convertNoteToMarkdown (sourceConfig "0") compareAscii
         (JObj [("title", JStr "T"); ("textContent", JNum 7);
                ("labels", JArr [JObj [("name", JStr "x")]])]) =
       inr (("# " +:+ "T" +:+ newline +:+ newline +:+ "7" +:+ newline) +:+
            newline +:+ "## Metadata from Google Keep" +:+ newline +:+
            metadataLines ordered))
  ∧ convertNoteToMarkdown (sourceConfig "0") compareAscii
      (JObj [("title", JStr "T");
             ("textContent", JObj [("toString", JNum 1)])])
    = inl TypeError
  ∧ convertNoteToMarkdown (sourceConfig "0") compareAscii
      (JObj [("", JNum 1)])
    = inl (Error "Invalid metadata -- key is undefined").
Proof.
  assert (H1 : templateText
      (lookupField "textContent"
         [("title", JStr "T"); ("textContent", JNum 7);
          ("labels", JArr [JObj [("name", JStr "x")]])]) = inr "7")
    by (vm_compute; reflexivity).
  split; [reflexivity|]. split; [reflexivity|]. split; [exact H1|]. split.
  - exact (proj1 (convert_succeeds_on_named_properties (sourceConfig "0")
                    compareAscii
                    [("title", JStr "T"); ("textContent", JNum 7);
                     ("labels", JArr [JObj [("name", JStr "x")]])])
             "T" "7" eq_refl eq_refl H1).
  - split; vm_compute; reflexivity.
Defined.

(** ** One turn of the main loop *)

(** X9: when the loop body succeeds without dry run, the one file it writes
    lies directly in the directory of the category that the flags of the
    note, as read from its file, select. Its name is the normalized title
    followed by ".md", the title being the note's own when that is a string
    that is not empty, and the file name when the note has no title or a
    falsy one; none of / \ : ? occurs in it; and the text of the file opens
    with the heading line for that same normalized title. *)
Theorem written_file_names_its_heading (cfg : Config)
    (localeCompare : string → string → Z) (disk : Disk)
    (note : option string) (st st' : RunState) :
  dryRun cfg = false →
  processNote cfg localeCompare disk note st = (st', inr tt) →
  ∃ noteJson isTrashed isArchived t raw body,
    readJson disk (notePathOf cfg note) = Some noteJson ∧
    getField noteJson "isTrashed" = inr isTrashed ∧
    getField noteJson "isArchived" = inr isArchived ∧
    getField noteJson "title" = inr t ∧
    ((t = Some (JStr raw) ∧ raw ≠ "") ∨
     (truthy_opt t = false ∧ note = Some raw)) ∧
    noForbidden (normalizeTitle raw) = true ∧
    written st' =
      written st ++
      [(noteOutputDir cfg +:+ categoryDir (categoryOf isTrashed isArchived)
        +:+ normalizeTitle raw +:+ ".md",
        "# " +:+ normalizeTitle raw +:+ newline +:+ body)].
Proof.
  intros Hdry Hp. apply processNote_outcome in Hp.
  destruct (prepareNote cfg localeCompare disk note)
    as [e|[[[title a] tr] md]] eqn:Hprep; [by destruct Hp|].
  destruct Hp as (_ & [(_ & Hw & _)|[(Hr & _)|(Hr & _)]]); try done.
  rewrite Hdry in Hw.
  destruct (prepareNote_title cfg localeCompare disk _ _ _ _ _ Hprep)
    as (Hsafe & body & ->).
  apply prepareNote_inv in Hprep
    as (noteJson & noteJson' & Hread & Ht & _ & Ha & Htr & _).
  apply titleOf_inv in Ht as (_ & t & raw & Hget & -> & Hraw).
  by exists noteJson, tr, a, t, raw, body.
Qed.

Lemma written_file_names_its_heading_witness :
  dryRun (sourceConfig "0") = false
  ∧ processNote (sourceConfig "0") compareAscii oneActiveNote
      (Some "a.json") initialState
    = ((processNote (sourceConfig "0") compareAscii oneActiveNote
          (Some "a.json") initialState).1, inr tt)
  ∧ ∃ noteJson isTrashed isArchived t raw body,
      readJson oneActiveNote (notePathOf (sourceConfig "0") (Some "a.json"))
      = Some noteJson ∧
      getField noteJson "isTrashed" = inr isTrashed ∧
      getField noteJson "isArchived" = inr isArchived ∧
      getField noteJson "title" = inr t ∧
      ((t = Some (JStr raw) ∧ raw ≠ "") ∨
       (truthy_opt t = false ∧ Some "a.json" = Some raw)) ∧
      noForbidden (normalizeTitle raw) = true ∧
      written (processNote (sourceConfig "0") compareAscii oneActiveNote
                 (Some "a.json") initialState).1 =
        written initialState ++
        [(noteOutputDir (sourceConfig "0") +:+
          categoryDir (categoryOf isTrashed isArchived) +:+
          normalizeTitle raw +:+ ".md",
          "# " +:+ normalizeTitle raw +:+ newline +:+ body)].
Proof.
  assert (H : processNote (sourceConfig "0") compareAscii oneActiveNote
                (Some "a.json") initialState
              = ((processNote (sourceConfig "0") compareAscii oneActiveNote
                    (Some "a.json") initialState).1, inr tt))
    by (vm_compute; reflexivity).
  exact (conj eq_refl (conj H
           (written_file_names_its_heading (sourceConfig "0") compareAscii
              oneActiveNote (Some "a.json") initialState _ eq_refl H))).
Defined.

(** ** Whole runs of the note converter *)

Section DryRunFacts.
Context (cfg : Config).
Context (localeCompare : string → string → Z).
Context (disk : Disk).

Lemma prepareNote_dryRun b note :
  prepareNote (withDryRun cfg b) localeCompare disk note =
  prepareNote cfg localeCompare disk note.
Proof. reflexivity. Qed.

Lemma counters_step c st1 st2 s1 s2 :
  counters st1 = counters st2 →
  (∀ c', countOf c' s1 =
         countOf c' st1 + (if decide (c' = c) then 1 else 0)) →
  (∀ c', countOf c' s2 =
         countOf c' st2 + (if decide (c' = c) then 1 else 0)) →
  counters s1 = counters s2.
Proof.
  intros Hc Hc1 Hc2. unfold counters in *.
  pose proof (Hc1 Archive) as A1. pose proof (Hc1 Trash) as T1.
  pose proof (Hc1 Unsorted) as U1. pose proof (Hc2 Archive) as A2.
  pose proof (Hc2 Trash) as T2. pose proof (Hc2 Unsorted) as U2.
  simpl in A1, T1, U1, A2, T2, U2. congruence.
Qed.

(** A turn of the dry run against the same turn of the real run: the dry
    turn ends normally when the real one does, and the two end alike when
    nothing is rejected. *)
Lemma processNote_dryRun_sync note st1 st2 s1 r1 s2 r2 :
  counters st1 = counters st2 →
  processNote (withDryRun cfg true) localeCompare disk note st1 = (s1, r1) →
  processNote (withDryRun cfg false) localeCompare disk note st2 = (s2, r2) →
  (r2 = inr tt → r1 = inr tt ∧ counters s1 = counters s2) ∧
  ((∀ s path content, writeRejected disk s path content = false) →
   (∀ s path, deleteRejected disk s path = false) →
   r1 = r2 ∧ counters s1 = counters s2).
Proof.
  intros Hc H1 H2.
  apply processNote_outcome in H1, H2.
  rewrite prepareNote_dryRun in H1, H2.
  destruct (prepareNote cfg localeCompare disk note)
    as [e|[[[title a] t] md]]; simpl in H1, H2.
  - destruct H1 as (-> & Hc1 & _), H2 as (-> & Hc2 & _).
    split; [done|]. intros _ _. split; [done|congruence].
  - destruct H1 as (Hc1 & [(-> & _)|[(_ & Hdry & _)|(_ & Hdry & _)]]);
      try done.
    destruct H2 as (Hc2 & [(-> & _)|[(-> & _ & _ & _ & s & Hrej)|
                             (-> & _ & _ & _ & _ & s & Hrej)]]).
    + split; intros; (split; [done|by eapply counters_step]).
    + split; [done|]. intros Hw _. by rewrite Hw in Hrej.
    + split; [done|]. intros _ Hd. by rewrite Hd in Hrej.
Qed.

Lemma forEach_dryRun_sync notes : ∀ st1 st2 s1 r1 s2 r2,
  counters st1 = counters st2 →
  forEach notes (processNote (withDryRun cfg true) localeCompare disk) st1
  = (s1, r1) →
  forEach notes (processNote (withDryRun cfg false) localeCompare disk) st2
  = (s2, r2) →
  (r2 = inr tt → r1 = inr tt ∧ counters s1 = counters s2) ∧
  ((∀ s path content, writeRejected disk s path content = false) →
   (∀ s path, deleteRejected disk s path = false) →
   r1 = r2 ∧ counters s1 = counters s2).
Proof.
  induction notes as [|note rest IH]; intros st1 st2 s1 r1 s2 r2 Hc; simpl.
  - intros [= <- <-] [= <- <-]. by split.
  - unfold mbind, run_bind.
    destruct (processNote (withDryRun cfg true) localeCompare disk note st1)
      as [t1 q1] eqn:E1.
    destruct (processNote (withDryRun cfg false) localeCompare disk note st2)
      as [t2 q2] eqn:E2.
    destruct (processNote_dryRun_sync note st1 st2 t1 q1 t2 q2 Hc E1 E2)
      as [Hok Hsame].
    destruct q2 as [e2|[]].
    + intros Hd [= <- <-]. split; [done|]. intros Hw Hdel.
      destruct (Hsame Hw Hdel) as [-> Hc']. by injection Hd as <- <-.
    + destruct (Hok eq_refl) as [-> Hc']. by apply IH.
Qed.

Lemma runNotes_dryRun_sync :
  (∀ st,
     runNotes (withDryRun cfg false) localeCompare disk = (st, inr tt) →
     ∃ st',
       runNotes (withDryRun cfg true) localeCompare disk = (st', inr tt) ∧
       counters st' = counters st) ∧
  ((∀ s path content, writeRejected disk s path content = false) →
   (∀ s path, deleteRejected disk s path = false) →
   (runNotes (withDryRun cfg true) localeCompare disk).2 =
   (runNotes (withDryRun cfg false) localeCompare disk).2 ∧
   counters (runNotes (withDryRun cfg true) localeCompare disk).1 =
   counters (runNotes (withDryRun cfg false) localeCompare disk).1).
Proof.
  destruct (forEach (notesToProcess cfg disk)
              (processNote (withDryRun cfg true) localeCompare disk)
              initialState) as [s1 r1] eqn:E1.
  destruct (forEach (notesToProcess cfg disk)
              (processNote (withDryRun cfg false) localeCompare disk)
              initialState) as [s2 r2] eqn:E2.
  destruct (forEach_dryRun_sync _ _ _ _ _ _ _ eq_refl E1 E2) as [Hok Hsame].
  pose proof (runNotes_after_loop (withDryRun cfg true) localeCompare disk
                s1 r1 E1) as H1.
  pose proof (runNotes_after_loop (withDryRun cfg false) localeCompare disk
                s2 r2 E2) as H2.
  split.
  - intros st Hrun. destruct r2 as [e|[]]; [congruence|].
    destruct H2 as (s2' & Hrun' & Hc2 & _).
    assert (s2' = st) as -> by congruence.
    destruct (Hok eq_refl) as [-> Hc].
    destruct H1 as (s1' & -> & Hc1 & _). exists s1'. split; [done|congruence].
  - intros Hw Hd. destruct (Hsame Hw Hd) as [-> Hc].
    destruct r2 as [e|[]].
    + by rewrite H1, H2.
    + destruct H1 as (s1' & -> & Hc1 & _), H2 as (s2' & -> & Hc2 & _).
      simpl. split; [done|congruence].
Qed.

End DryRunFacts.

(** X10: a dry run leaves the disk alone: however the run ends, normally or
    with an exception, it has written no file and deleted none. *)
Theorem dry_run_writes_nothing (cfg : Config)
    (localeCompare : string → string → Z) (disk : Disk) :
  dryRun cfg = true →
  written (runNotes cfg localeCompare disk).1 = [] ∧
  deleted (runNotes cfg localeCompare disk).1 = [].
Proof.
  intros Hdry. destruct (runNotes cfg localeCompare disk) as [st r] eqn:Hrun.
  by apply runNotes_sinks in Hrun as [H _]; apply H.
Qed.

Lemma dry_run_writes_nothing_witness :
  dryRun (withDryRun (sourceConfig "0") true) = true
  ∧ written (runNotes (withDryRun (sourceConfig "0") true) compareAscii
               secondNoteBroken).1
    = []
  ∧ deleted (runNotes (withDryRun (sourceConfig "0") true) compareAscii
               secondNoteBroken).1
    = [].
Proof.
  exact (conj eq_refl
           (dry_run_writes_nothing (withDryRun (sourceConfig "0") true)
              compareAscii secondNoteBroken eq_refl)).
Defined.

(** X11: a dry run foretells the real run as far as the file system lets
    it. With the same directory and the same other switches, when the run
    with dry run off ends normally, so does the run with dry run on, with
    the same three counters; and when no write and no deletion is
    rejected, the two runs end the same way, normally or with the same
    exception, and with the same three counters. A rejected write or
    deletion stops the real run only. *)
Theorem dry_run_foretells_real_run (cfg : Config)
    (localeCompare : string → string → Z) (disk : Disk) :
  (∀ st,
     runNotes (withDryRun cfg false) localeCompare disk = (st, inr tt) →
     ∃ st',
       runNotes (withDryRun cfg true) localeCompare disk = (st', inr tt) ∧
       counters st' = counters st) ∧
  ((∀ s path content, writeRejected disk s path content = false) →
   (∀ s path, deleteRejected disk s path = false) →
   (runNotes (withDryRun cfg true) localeCompare disk).2 =
   (runNotes (withDryRun cfg false) localeCompare disk).2 ∧
   counters (runNotes (withDryRun cfg true) localeCompare disk).1 =
   counters (runNotes (withDryRun cfg false) localeCompare disk).1).
Proof. apply runNotes_dryRun_sync. Qed.

Lemma dry_run_foretells_real_run_witness :
  (∀ s path content, writeRejected secondNoteBroken s path content = false)
  ∧ (∀ s path, deleteRejected secondNoteBroken s path = false)
  ∧ (runNotes (withDryRun (sourceConfig "0") true) compareAscii
       secondNoteBroken).2 =
    (runNotes (withDryRun (sourceConfig "0") false) compareAscii
       secondNoteBroken).2
  ∧ counters (runNotes (withDryRun (sourceConfig "0") true) compareAscii
                secondNoteBroken).1 =
    counters (runNotes (withDryRun (sourceConfig "0") false) compareAscii
                secondNoteBroken).1
  ∧ runNotes (withDryRun (sourceConfig "0") false) compareAscii oneActiveNote
    = ((runNotes (withDryRun (sourceConfig "0") false) compareAscii
          oneActiveNote).1, inr tt)
  ∧ ∃ st',
      runNotes (withDryRun (sourceConfig "0") true) compareAscii oneActiveNote
      = (st', inr tt) ∧
      counters st' =
      counters (runNotes (withDryRun (sourceConfig "0") false) compareAscii
                  oneActiveNote).1.
Proof.
  assert (H : runNotes (withDryRun (sourceConfig "0") false) compareAscii
                oneActiveNote
              = ((runNotes (withDryRun (sourceConfig "0") false) compareAscii
                    oneActiveNote).1, inr tt)) by (vm_compute; reflexivity).
  exact (conj (λ _ _ _, eq_refl) (conj (λ _ _, eq_refl)
           (conj
              (proj1 (proj2 (dry_run_foretells_real_run (sourceConfig "0")
                               compareAscii secondNoteBroken)
                        (λ _ _ _, eq_refl) (λ _ _, eq_refl)))
              (conj
                 (proj2 (proj2 (dry_run_foretells_real_run (sourceConfig "0")
                                  compareAscii secondNoteBroken)
                           (λ _ _ _, eq_refl) (λ _ _, eq_refl)))
                 (conj H
                    (proj1 (dry_run_foretells_real_run (sourceConfig "0")
                              compareAscii oneActiveNote) _ H)))))).
Defined.

(** X12: original files are deleted only by a run with the delete switch on
    and dry run off. Such a run, when it ends normally, has deleted the
    file of every element of [notesToProcess], once each and in that order;
    with the delete switch off no file is ever deleted. *)
Theorem originals_deleted_when_asked (cfg : Config)
    (localeCompare : string → string → Z) (disk : Disk) :
  (shouldDeleteOriginalNotes cfg = false →
   deleted (runNotes cfg localeCompare disk).1 = []) ∧
  (∀ st,
     runNotes cfg localeCompare disk = (st, inr tt) →
     deleted st =
       if shouldDeleteOriginalNotes cfg && negb (dryRun cfg)
       then notePathOf cfg <$> notesToProcess cfg disk else []).
Proof.
  split.
  - intros Hoff.
    destruct (runNotes cfg localeCompare disk) as [st r] eqn:Hrun.
    by apply runNotes_sinks in Hrun as (_ & H & _); apply H.
  - intros st Hrun. by apply runNotes_sinks in Hrun as (_ & _ & H); apply H.
Qed.

Lemma originals_deleted_when_asked_witness :
  shouldDeleteOriginalNotes (sourceConfig "0") = false
  ∧ deleted (runNotes (sourceConfig "0") compareAscii oneActiveNote).1 = []
  ∧ runNotes (withDeleteOriginals (sourceConfig "0")) compareAscii oneActiveNote
    = ((runNotes (withDeleteOriginals (sourceConfig "0")) compareAscii oneActiveNote).1,
       inr tt)
  ∧ deleted (runNotes (withDeleteOriginals (sourceConfig "0")) compareAscii
               oneActiveNote).1
    = ["/home/ari/downloads/Keep/a.json"].
Proof.
  assert (H : runNotes (withDeleteOriginals (sourceConfig "0")) compareAscii oneActiveNote
    = ((runNotes (withDeleteOriginals (sourceConfig "0")) compareAscii oneActiveNote).1,
       inr tt)) by (vm_compute; reflexivity).
  split; [reflexivity|]. split.
  - exact (proj1 (originals_deleted_when_asked (sourceConfig "0")
                    compareAscii oneActiveNote) eq_refl).
  - split; [exact H|].
    exact (proj2 (originals_deleted_when_asked
                    (withDeleteOriginals (sourceConfig "0")) compareAscii
                    oneActiveNote)
             _ H).
Defined.

(** X13: the first note that fails stops the run. If the notes before it
    were processed and the loop body throws on it, the run ends with that
    exception in the state the failing turn left: no later note is read,
    no report is printed, and the failing turn has deleted nothing. Either
    it failed before the routing, and then nothing has been counted or
    written for the note, as is always so in a dry run; or a write or a
    deletion was rejected, and then the note has been counted although its
    file is missing or its original is still there. *)
Theorem first_failure_stops_the_run (cfg : Config)
    (localeCompare : string → string → Z) (disk : Disk)
    (notes_before notes_after : list (option string)) (note : option string)
    (st1 st2 : RunState) (e : exn) :
  notesToProcess cfg disk = notes_before ++ note :: notes_after →
  forEach notes_before (processNote cfg localeCompare disk) initialState
  = (st1, inr tt) →
  processNote cfg localeCompare disk note st1 = (st2, inl e) →
  runNotes cfg localeCompare disk = (st2, inl e) ∧
  deleted st2 = deleted st1 ∧
  (∃ more, console st2 =
           console st1 ++
           ("Processing note: " +:+ templateString note) :: more) ∧
  ((counters st2 = counters st1 ∧ written st2 = written st1) ∨
   (e = Rejected ∧ dryRun cfg = false ∧
    processed st2 = S (processed st1) ∧
    ((written st2 = written st1 ∧
      ∃ s path content, writeRejected disk s path content = true) ∨
     (shouldDeleteOriginalNotes cfg = true ∧
      (∃ file, written st2 = written st1 ++ [file]) ∧
      ∃ s, deleteRejected disk s (notePathOf cfg note) = true)))) ∧
  (dryRun cfg = true →
   counters st2 = counters st1 ∧ written st2 = written st1).
Proof.
  intros Hnotes Hbefore Hfail.
  assert (Hloop : forEach (notesToProcess cfg disk)
                    (processNote cfg localeCompare disk) initialState
                  = (st2, inl e)).
  { rewrite Hnotes, forEach_app, Hbefore. simpl.
    unfold mbind, run_bind. by rewrite Hfail. }
  split; [exact (runNotes_after_loop cfg localeCompare disk _ _ Hloop)|].
  destruct (processNote_starts cfg localeCompare disk note st1)
    as [more Hmore].
  rewrite Hfail in Hmore. simpl in Hmore.
  apply processNote_outcome in Hfail.
  destruct (prepareNote cfg localeCompare disk note)
    as [e'|[[[title a] t] md]].
  - destruct Hfail as (_ & Hc & Hw & Hd).
    split; [done|]. split; [by exists more|]. split; [by left|done].
  - destruct Hfail as (Hc & [(Hr & _)|[(Hr & Hdry & Hw & Hd & s & Hrej)|
                               (Hr & Hdry & Hdel & Hw & Hd & s & Hrej)]]);
      [done| |]; injection Hr as ->.
    + split; [done|]. split; [by exists more|]. split; [|congruence].
      right. repeat (split; [done|]).
      split; [by eapply processed_step|]. left. split; [done|]. eauto.
    + split; [done|]. split; [by exists more|]. split; [|congruence].
      right. repeat (split; [done|]).
      split; [by eapply processed_step|]. right. eauto.
Qed.

Lemma first_failure_stops_the_run_witness :
  notesToProcess (sourceConfig "0") secondNoteBroken
  = [Some "a.json"] ++ Some "b.json" :: [Some "c.json"]
  ∧ runNotes (sourceConfig "0") compareAscii secondNoteBroken
    = ((processNote (sourceConfig "0") compareAscii secondNoteBroken (Some "b.json")
          (forEach [Some "a.json"]
             (processNote (sourceConfig "0") compareAscii secondNoteBroken)
             initialState).1).1,
       inl Rejected)
  ∧ (written (runNotes (sourceConfig "0") compareAscii secondNoteBroken).1).*1
    = ["./private-data/outputs/parseGoogleKeepExportToMd-0/archive/A.md"].
Proof.
  assert (H1 : notesToProcess (sourceConfig "0") secondNoteBroken
    = [Some "a.json"] ++ Some "b.json" :: [Some "c.json"]) by reflexivity.
  assert (H2 : forEach [Some "a.json"]
                 (processNote (sourceConfig "0") compareAscii secondNoteBroken) initialState
               = ((forEach [Some "a.json"]
                     (processNote (sourceConfig "0") compareAscii secondNoteBroken)
                     initialState).1, inr tt)) by (vm_compute; reflexivity).
  assert (H3 : processNote (sourceConfig "0") compareAscii secondNoteBroken (Some "b.json")
                 (forEach [Some "a.json"]
                    (processNote (sourceConfig "0") compareAscii secondNoteBroken)
                    initialState).1
               = ((processNote (sourceConfig "0") compareAscii secondNoteBroken
                     (Some "b.json")
                     (forEach [Some "a.json"]
                        (processNote (sourceConfig "0") compareAscii secondNoteBroken)
                        initialState).1).1, inl Rejected))
    by (vm_compute; reflexivity).
  split; [exact H1|]. split.
  - exact (proj1 (first_failure_stops_the_run (sourceConfig "0") compareAscii
                    secondNoteBroken _ _ _ _ _ _ H1 H2 H3)).
  - vm_compute. reflexivity.
Defined.

(** A rejected write stops the real run after the note was counted, while
    the dry run over the same directory ends normally. *)
Example rejected_write_counts_the_note :
  ∃ st,
    runNotes (sourceConfig "0") compareAscii writeProtected
    = (st, inl Rejected) ∧
    notesUnsortedCount st = 1 ∧ written st = [] ∧
    (runNotes (withDryRun (sourceConfig "0") true) compareAscii
       writeProtected).2 = inr tt.
Proof. eexists. split; [vm_compute; reflexivity|]. repeat split. Qed.

(** X14: a run that ends normally has routed every element of
    [notesToProcess], so the three counters add up to their number: to the
    number of [.json] files when the single-note switch is off, to one when
    it is on. The report then shows the number of [.json] files as the
    total, whichever way the switch is set, followed by the archived and
    the trashed count. *)
Theorem completed_run_counts (cfg : Config)
    (localeCompare : string → string → Z) (disk : Disk) (st : RunState) :
  runNotes cfg localeCompare disk = (st, inr tt) →
  processed st = length (notesToProcess cfg disk) ∧
  (testOneNote cfg = false → processed st = length (jsonNotes disk)) ∧
  (testOneNote cfg = true → processed st = 1) ∧
  ∃ earlier,
    console st =
    earlier ++
    ["Notes total: " +:+ string_of_nat (length (jsonNotes disk));
     "Notes archived: " +:+ string_of_nat (notesArchivedCount st);
     "Notes trashed: " +:+ string_of_nat (notesTrashedCount st)].
Proof.
  intros Hrun. apply runNotes_report in Hrun as [Hcount Hreport].
  split; [done|]. split; [|split; [|done]].
  - intros Hoff. rewrite Hcount. unfold notesToProcess. rewrite Hoff.
    by rewrite length_fmap.
  - intros Hon. rewrite Hcount. unfold notesToProcess. by rewrite Hon.
Qed.

Lemma completed_run_counts_witness :
  runNotes (sourceConfig "0") compareAscii oneActiveNote
  = ((runNotes (sourceConfig "0") compareAscii oneActiveNote).1, inr tt)
  ∧ processed (runNotes (sourceConfig "0") compareAscii oneActiveNote).1
    = length (notesToProcess (sourceConfig "0") oneActiveNote).
Proof.
  assert (H : runNotes (sourceConfig "0") compareAscii oneActiveNote
    = ((runNotes (sourceConfig "0") compareAscii oneActiveNote).1, inr tt))
    by (vm_compute; reflexivity).
  exact (conj H (proj1 (completed_run_counts (sourceConfig "0") compareAscii
                          oneActiveNote _ H))).
Defined.

(** * Further properties of the contact scraper *)

Section UrlFacts.

Lemma append_nil_r s : s +:+ "" = s.
Proof.
  induction s as [|c s IH]; [done|].
  change (String c (s +:+ "") = String c s). by rewrite IH.
Qed.

(** Without an occurrence of the separator the text is one piece. *)
Lemma splitGo_no_separator sep s : ∀ cur,
  contains sep s = false → splitGo sep 0 cur s = [cur +:+ s].
Proof.
  induction s as [|c s IH]; intros cur Hno.
  - simpl. by rewrite append_nil_r.
  - cbn [contains] in Hno. apply orb_false_elim in Hno as [Hpre Hrest].
    cbn [splitGo]. rewrite Hpre, (IH _ Hrest), append_assoc. done.
Qed.

Lemma prefix_here sep rest : String.prefix sep (sep +:+ rest) = true.
Proof.
  induction sep as [|c sep IH]; [by destruct rest|].
  change (String.prefix (String c sep) (String c (sep +:+ rest)) = true).
  simpl. by destruct (ascii_dec c c).
Qed.

Lemma splitGo_separator_here cur rest :
  splitGo "/in/" 0 cur ("/in/" +:+ rest) = cur :: splitGo "/in/" 0 "" rest.
Proof.
  change ("/in/" +:+ rest)
    with (String "/" (String "i" (String "n" (String "/" rest)))) at 1.
  cbn [splitGo].
  change (String "/" (String "i" (String "n" (String "/" rest))))
    with ("/in/" +:+ rest).
  by rewrite prefix_here.
Qed.

Lemma splitGo_linkedin_host tail :
  splitGo "/in/" 0 "" ("https://www.linkedin.com" +:+ tail) =
  splitGo "/in/" 0 "https://www.linkedin.com" tail.
Proof. reflexivity. Qed.

Lemma split_linkedin_url id :
  split ("https://www.linkedin.com/in/" +:+ id) "/in/" =
  "https://www.linkedin.com" :: splitGo "/in/" 0 "" id.
Proof.
  unfold split.
  change ("https://www.linkedin.com/in/" +:+ id)
    with ("https://www.linkedin.com" +:+ "/in/" +:+ id).
  by rewrite splitGo_linkedin_host, splitGo_separator_here.
Qed.

Lemma identifierOf_no_separator url :
  contains "/in/" url = false → identifierOf url = None.
Proof.
  intros Hno. unfold identifierOf, split.
  by rewrite splitGo_no_separator.
Qed.

Lemma identifierOf_linkedin_url id :
  id ≠ "" → contains "/in/" id = false →
  identifierOf ("https://www.linkedin.com/in/" +:+ id) = Some id.
Proof.
  intros Hne Hno. unfold identifierOf.
  rewrite split_linkedin_url, splitGo_no_separator by done.
  change ("" +:+ id) with id. simpl.
  apply String.eqb_neq in Hne. by rewrite Hne.
Qed.

End UrlFacts.

Section ScrapeFacts.
Context (phone : string → PhoneResult).
Context (toLowerCase : string → string).
Context (getProfile : string → result Profile).

(** One turn of the loop in terms of [identifierOf] and [recordOf]. *)
Lemma scrapeOne_step outputData trace url :
  (scrapeOne phone toLowerCase getProfile (outputData, trace) url).1 =
    outputData ++ option_list (recordOf phone toLowerCase getProfile url) ∧
  lookups (scrapeOne phone toLowerCase getProfile (outputData, trace) url).2 =
    lookups trace ++ option_list (identifierOf url).
Proof.
  unfold scrapeOne, recordOf, identifierOf, lookups.
  destruct (split url "/in/" !! 1) as [identifier|]; simpl.
  - destruct (String.eqb identifier ""); simpl.
    + rewrite omap_app. simpl. by rewrite !app_nil_r.
    + destruct (getProfile identifier) as [e|contact]; simpl.
      * rewrite omap_app. simpl. by rewrite app_nil_r.
      * destruct (String.eqb (provider contact) "LINKEDIN"); simpl;
          [destruct (public_identifier contact); simpl|];
          rewrite omap_app; simpl; by rewrite ?app_nil_r.
  - rewrite omap_app. simpl. by rewrite !app_nil_r.
Qed.

Lemma scrapeAll_steps urls : ∀ outputData trace,
  (fold_left (scrapeOne phone toLowerCase getProfile) urls (outputData, trace)).1 =
    outputData ++ omap (recordOf phone toLowerCase getProfile) urls ∧
  lookups (fold_left (scrapeOne phone toLowerCase getProfile) urls (outputData, trace)).2 =
    lookups trace ++ omap identifierOf urls.
Proof.
  induction urls as [|url rest IH]; intros outputData trace;
    cbn [fold_left omap list_omap].
  - simpl. by rewrite !app_nil_r.
  - destruct (scrapeOne_step outputData trace url) as [Ho Hl].
    destruct (scrapeOne phone toLowerCase getProfile (outputData, trace) url)
      as [out' trace'].
    simpl in Ho, Hl. destruct (IH out' trace') as [-> ->].
    rewrite Ho, Hl, <- !app_assoc.
    by destruct (recordOf phone toLowerCase getProfile url), (identifierOf url).
Qed.

End ScrapeFacts.

(** X15: a URL in which "/in/" does not occur is skipped: the turn of the
    loop prints the invalid-URL line and nothing else happens, no lookup,
    no delay, no new record. *)
Theorem url_without_identifier_is_skipped
    (phone : string → PhoneResult) (toLowerCase : string → string)
    (getProfile : string → result Profile)
    (outputData : list OutputItem) (trace : list event) (url : string) :
  contains "/in/" url = false →
  scrapeOne phone toLowerCase getProfile (outputData, trace) url =
  (outputData, trace ++ [ConsoleLog ("Invalid LinkedIn URL: " +:+ url)]).
Proof.
  intros Hno. unfold scrapeOne, split.
  by rewrite splitGo_no_separator.
Qed.

Lemma url_without_identifier_is_skipped_witness :
  contains "/in/" "https://example.com/ada" = false
  ∧ scrapeOne samplePhone lowerAscii sampleService ([], []) "https://example.com/ada"
    = ([], [] ++ [ConsoleLog ("Invalid LinkedIn URL: " +:+
                              "https://example.com/ada")]).
Proof.
  exact (conj eq_refl
           (url_without_identifier_is_skipped samplePhone lowerAscii sampleService
              [] [] "https://example.com/ada" eq_refl)).
Defined.

(** X16: profile URLs make a round trip. For a URL that is
    https://www.linkedin.com/in/ followed by a non-empty identifier without
    "/in/", the identifier is what is looked up; and when the lookup
    returns a LINKEDIN profile with that public identifier, one record is
    added whose profile URL is the input URL, followed by the log line and
    the delay. *)
Theorem profile_url_round_trip
    (phone : string → PhoneResult) (toLowerCase : string → string)
    (getProfile : string → result Profile)
    (outputData : list OutputItem) (trace : list event)
    (id : string) (contact : Profile) :
  id ≠ "" → contains "/in/" id = false →
  getProfile id = inr contact →
  provider contact = "LINKEDIN" →
  public_identifier contact = Some id →
  ∃ item,
    profileUrl item = Some ("https://www.linkedin.com/in/" +:+ id) ∧
    scrapeOne phone toLowerCase getProfile (outputData, trace)
      ("https://www.linkedin.com/in/" +:+ id) =
    (outputData ++ [item],
     trace ++ [GetProfile id;
               ConsoleLog ("Record added for " +:+
                           "https://www.linkedin.com/in/" +:+ id);
               Sleep]).
Proof.
  intros Hne Hno Hget Hprov Hid.
  exists (outputItem phone toLowerCase contact id). split; [reflexivity|].
  unfold scrapeOne.
  rewrite split_linkedin_url, splitGo_no_separator by done.
  change ("" +:+ id) with id. cbn [lookup list_lookup]. simpl truthy_str.
  apply String.eqb_neq in Hne. rewrite Hne. simpl negb. cbv iota.
  simpl default. rewrite Hget, Hprov, Hid. reflexivity.
Qed.

Lemma profile_url_round_trip_witness :
  "b" ≠ "" ∧ contains "/in/" "b" = false
  ∧ sampleService "b" = inr (sampleProfile "b")
  ∧ provider (sampleProfile "b") = "LINKEDIN"
  ∧ public_identifier (sampleProfile "b") = Some "b"
  ∧ ∃ item,
      profileUrl item = Some ("https://www.linkedin.com/in/" +:+ "b") ∧
      scrapeOne samplePhone lowerAscii sampleService ([], [])
        ("https://www.linkedin.com/in/" +:+ "b") =
      ([] ++ [item],
       [] ++ [GetProfile "b";
              ConsoleLog ("Record added for " +:+
                          "https://www.linkedin.com/in/" +:+ "b");
              Sleep]).
Proof.
  assert (H1 : "b" ≠ "") by discriminate.
  exact (conj H1 (conj eq_refl (conj eq_refl (conj eq_refl (conj eq_refl
           (profile_url_round_trip samplePhone lowerAscii sampleService [] [] "b"
              (sampleProfile "b") H1 eq_refl eq_refl eq_refl eq_refl)))))).
Defined.

(** X17: a lookup that throws does not end the batch. Whatever the service
    does, the lookups of a run are exactly the identifiers of the input
    URLs that have one, each looked up once, in input order. *)
Theorem every_identifier_looked_up_once
    (phone : string → PhoneResult) (toLowerCase : string → string)
    (getProfile : string → result Profile)
    (urls : list string) :
  lookups (scrapeAll phone toLowerCase getProfile urls).2 = omap identifierOf urls.
Proof.
  unfold scrapeAll.
  destruct (scrapeAll_steps phone toLowerCase getProfile urls [] []) as [_ ->]. done.
Qed.


(** ** Fields of an output record *)

Section FieldFacts.
Context (phone : string → PhoneResult).

Lemma lowerChar_not_upper c :
  negb ((65 <=? N_of_ascii (lowerChar c))%N &&
        (N_of_ascii (lowerChar c) <=? 90)%N) = true.
Proof.
  unfold lowerChar.
  destruct ((65 <=? N_of_ascii c)%N && (N_of_ascii c <=? 90)%N) eqn:Hup.
  - apply andb_prop in Hup as [H1%N.leb_le H2%N.leb_le].
    rewrite N_ascii_embedding by lia.
    apply negb_true_iff, andb_false_iff. right. apply N.leb_gt. lia.
  - by rewrite Hup.
Qed.

Lemma lowerAscii_noUpper s : noUpper (lowerAscii s) = true.
Proof.
  induction s as [|c s IH]; [done|]. cbn [lowerAscii noUpper].
  by rewrite lowerChar_not_upper, IH.
Qed.

Lemma lowerAscii_length s : String.length (lowerAscii s) = String.length s.
Proof. induction s as [|c s IH]; [done|]. simpl. by rewrite IH. Qed.

Lemma lowerAscii_id s : noUpper s = true → lowerAscii s = s.
Proof.
  induction s as [|c s IH]; [done|]. cbn [lowerAscii noUpper].
  intros [Hc Hs]%andb_prop. rewrite (IH Hs). unfold lowerChar.
  apply negb_true_iff in Hc. by rewrite Hc.
Qed.

Lemma omap_formatPhoneNumber (l : list string) :
  omap (formatPhoneNumber phone) l =
  (λ raw, groupTenDigits (stripPlusOne (phoneNumber (phone raw)))) <$>
    filter (λ raw, isValid (phone raw) = true) l.
Proof.
  induction l as [|raw l IH]; [done|]. cbn [omap list_omap].
  unfold formatPhoneNumber at 1.
  destruct (isValid (phone raw)) eqn:Hv; simpl.
  - rewrite filter_cons_True by done. rewrite fmap_cons. f_equal. exact IH.
  - rewrite filter_cons_False by congruence. exact IH.
Qed.

Lemma groupTenDigits_cons c s :
  groupTenDigits (String c s) =
  if tenDigitsAt (String c s) then
    "(" +:+ substring 0 3 (String c s) +:+ ") " +:+
    substring 3 3 (String c s) +:+ "-" +:+ substring 6 4 (String c s) +:+
    substring 10 (String.length (String c s) - 10) (String c s)
  else String c (groupTenDigits s).
Proof. reflexivity. Qed.

Lemma tenDigitsAt_head c s : tenDigitsAt (String c s) = true → isDigit c = true.
Proof.
  unfold tenDigitsAt. intros [_ H]%andb_prop.
  change (substring 0 10 (String c s)) with (String c (substring 0 9 s)) in H.
  cbn [allDigits] in H. by apply andb_prop in H as [H _].
Qed.

Lemma groupTenDigits_fixed s :
  groupTenDigits s = s ↔ hasTenDigits s = false.
Proof.
  induction s as [|c s IH]; [done|].
  rewrite groupTenDigits_cons. cbn [hasTenDigits].
  destruct (tenDigitsAt (String c s)) eqn:Hten; simpl.
  - split; [|done]. intros Heq.
    apply tenDigitsAt_head in Hten.
    change ("(" +:+ ?x) with (String "(" x) in Heq.
    injection Heq as <- _. done.
  - rewrite <- IH. split; [by intros [= ->]|by intros ->].
Qed.

End FieldFacts.

(** X19: the e-mail addresses of an output record are, one for one and in
    their order, the listed addresses as [toLowerCase] returns them; when
    the profile lists none the list is empty. [toLowerCase] lowers ASCII
    text letter by letter; with that, a listed address that is ASCII text
    comes out with every upper-case letter replaced by its lower-case
    letter and every other character kept: no upper-case letter is left,
    the length is the same, and an address already in lower case is kept
    as it is. *)
Theorem emails_are_lowercased (phone : string → PhoneResult)
    (toLowerCase : string → string)
    (contact : Profile) (public_id : string) :
  emails (outputItem phone toLowerCase contact public_id) =
    toLowerCase <$> default [] (contact_info contact ≫= emails_of) ∧
  ((∀ s, isAscii s = true → toLowerCase s = lowerAscii s) →
   Forall2 (λ out listed,
              isAscii listed = true →
              out = lowerAscii listed ∧
              noUpper out = true ∧
              String.length out = String.length listed ∧
              (noUpper listed = true → out = listed))
     (emails (outputItem phone toLowerCase contact public_id))
     (default [] (contact_info contact ≫= emails_of))).
Proof.
  simpl. destruct (contact_info contact ≫= emails_of) as [l|]; simpl.
  - split; [done|]. intros Hlower.
    induction l as [|x l IH]; simpl; constructor; [|done].
    intros Hx. rewrite (Hlower x Hx).
    split; [done|]. split; [apply lowerAscii_noUpper|].
    split; [apply lowerAscii_length|apply lowerAscii_id].
  - split; [done|]. intros _. constructor.
Qed.

Lemma emails_are_lowercased_witness :
  (∀ s, isAscii s = true → lowerAscii s = lowerAscii s)
  ∧ isAscii "Ada@Example.COM" = true
  ∧ emails (outputItem samplePhone lowerAscii (sampleProfile "ada") "ada")
    = ["ada@example.com"]
  ∧ Forall2 (λ out listed,
               isAscii listed = true →
               out = lowerAscii listed ∧
               noUpper out = true ∧
               String.length out = String.length listed ∧
               (noUpper listed = true → out = listed))
      (emails (outputItem samplePhone lowerAscii (sampleProfile "ada") "ada"))
      (default [] (contact_info (sampleProfile "ada") ≫= emails_of)).
Proof.
  exact (conj (λ _ _, eq_refl) (conj eq_refl (conj eq_refl
           (proj2 (emails_are_lowercased samplePhone lowerAscii
                     (sampleProfile "ada") "ada") (λ _ _, eq_refl))))).
Defined.

(** X20: a raw number that the [phone] package finds valid and normalises
    to +1 followed by ten digits is rendered as (NNN) NNN-NNNN with those
    ten digits. *)
Theorem default_country_number_is_grouped (phone : string → PhoneResult)
    (raw national : string) :
  isValid (phone raw) = true →
  phoneNumber (phone raw) = "+1" +:+ national →
  String.length national = 10 → allDigits national = true →
  formatPhoneNumber phone raw =
  Some ("(" +:+ substring 0 3 national +:+ ") " +:+
        substring 3 3 national +:+ "-" +:+ substring 6 4 national).
Proof. apply formatPhoneNumber_default. Qed.

Lemma default_country_number_is_grouped_witness :
  isValid (samplePhone "817-569-8900") = true
  ∧ phoneNumber (samplePhone "817-569-8900") = "+1" +:+ "8175698900"
  ∧ String.length "8175698900" = 10
  ∧ allDigits "8175698900" = true
  ∧ formatPhoneNumber samplePhone "817-569-8900" =
    Some ("(" +:+ substring 0 3 "8175698900" +:+ ") " +:+
          substring 3 3 "8175698900" +:+ "-" +:+ substring 6 4 "8175698900").
Proof.
  exact (conj eq_refl (conj eq_refl (conj eq_refl (conj eq_refl
           (default_country_number_is_grouped samplePhone "817-569-8900"
              "8175698900" eq_refl eq_refl eq_refl eq_refl))))).
Defined.

(** X21: the phones of an output record are the listed raw numbers that the
    [phone] package finds valid, in their order, each replaced by its
    formatted text; an invalid number leaves neither an entry nor a gap. *)
Theorem phones_are_the_valid_numbers (phone : string → PhoneResult)
    (toLowerCase : string → string)
    (contact : Profile) (public_id : string) :
  phones (outputItem phone toLowerCase contact public_id) =
  (λ raw, groupTenDigits (stripPlusOne (phoneNumber (phone raw)))) <$>
    filter (λ raw, isValid (phone raw) = true)
      (default [] (contact_info contact ≫= phones_of)).
Proof.
  simpl. destruct (contact_info contact ≫= phones_of) as [l|]; simpl.
  - apply omap_formatPhoneNumber.
  - done.
Qed.

(** X22: the regrouping step leaves a text as it is exactly when the text
    has no ten consecutive digits. So a valid number whose normalised text
    does not start with +1 is returned as that normalised text exactly when
    the text has no ten consecutive digits. *)
Theorem number_unchanged_iff_no_ten_digits (phone : string → PhoneResult) :
  (∀ s, groupTenDigits s = s ↔ hasTenDigits s = false) ∧
  (∀ raw,
     isValid (phone raw) = true →
     String.prefix "+1" (phoneNumber (phone raw)) = false →
     (formatPhoneNumber phone raw = Some (phoneNumber (phone raw)) ↔
      hasTenDigits (phoneNumber (phone raw)) = false)).
Proof.
  split; [apply groupTenDigits_fixed|].
  intros raw Hvalid Hpre. unfold formatPhoneNumber, stripPlusOne.
  rewrite Hvalid, Hpre. simpl. rewrite <- groupTenDigits_fixed.
  split; [by intros [= ->]|by intros ->].
Qed.

Lemma number_unchanged_iff_no_ten_digits_witness :
  isValid (shortNumberPhone "+298 201234") = true
  ∧ String.prefix "+1" (phoneNumber (shortNumberPhone "+298 201234")) = false
  ∧ hasTenDigits (phoneNumber (shortNumberPhone "+298 201234")) = false
  ∧ formatPhoneNumber shortNumberPhone "+298 201234" = Some "+298201234".
Proof.
  exact (conj eq_refl (conj eq_refl (conj eq_refl
           (proj2 (proj2 (number_unchanged_iff_no_ten_digits shortNumberPhone)
                     "+298 201234" eq_refl eq_refl) eq_refl)))).
Defined.

(** ** Uniqueness of the flattened paths *)

Section UniquePaths.
Context (cfg : Config).

Lemma string_of_N_inj n m : string_of_N n = string_of_N m → n = m.
Proof.
  assert (Hinv : ∀ k,
    option_map N.of_uint (NilZero.uint_of_string (string_of_N k)) = Some k).
  { intros k. unfold string_of_N.
    pose proof (DecimalN.Unsigned.of_to k) as Hk.
    destruct (N.to_uint k) eqn:E;
      try (rewrite NilZero.usu by discriminate; cbn [option_map];
           f_equal; exact Hk).
    simpl in Hk. subst k. reflexivity. }
  intros Heq. pose proof (Hinv n) as Hn. rewrite Heq, Hinv in Hn. congruence.
Qed.

Lemma string_of_nat_inj i j : string_of_nat i = string_of_nat j → i = j.
Proof. intros H%string_of_N_inj. lia. Qed.

Lemma distinctKeys_NoDup l : distinctKeys l = true ↔ NoDup l.
Proof.
  induction l as [|k l IH]; simpl.
  - split; [constructor|done].
  - rewrite NoDup_cons, andb_true_iff, negb_true_iff, IH.
    rewrite <- includes_true. destruct (includes l k); naive_solver.
Qed.

Lemma imap_keys {A} (f : nat → string) (l : list A) :
  (imap (λ i e, (f i, e)) l).*1 = f <$> seq 0 (length l).
Proof.
  revert f. induction l as [|x l IH]; intros f; [done|].
  simpl. f_equal. rewrite <- fmap_S_seq, <- list_fmap_compose.
  apply (IH (f ∘ S)).
Qed.

Lemma indexed_distinct elems : distinctKeys (map fst (indexed elems)) = true.
Proof.
  apply distinctKeys_NoDup. unfold indexed.
  change (map fst ?l) with (l.*1). rewrite imap_keys.
  apply NoDup_fmap_2; [|apply NoDup_seq].
  intros i j. apply string_of_nat_inj.
Qed.

Lemma imap_keysDistinct (f : nat → string) elems :
  forallb keysDistinct elems = true →
  forallb (λ kv, keysDistinct kv.2) (imap (λ i e, (f i, e)) elems) = true.
Proof.
  revert f. induction elems as [|e rest IH]; intros f; simpl; [done|].
  intros [He Hrest]%andb_prop. rewrite He. simpl. by apply (IH (f ∘ S)).
Qed.

Lemma flatten_cons k x rest pn :
  recursivelyGetProperties cfg (JObj ((k, x) :: rest)) [] pn =
  visitProperty cfg (recursivelyGetProperties cfg) pn k x [] ++
  recursivelyGetProperties cfg (JObj rest) [] pn.
Proof.
  rewrite !flatten_obj. cbn [fold_left fst snd].
  apply fold_visit_acc. apply Forall_forall. intros kv _ acc pn'.
  apply flatten_acc.
Qed.

(** The paths a field gives rise to: its own, or its own followed by "."
    and more. *)
Lemma visit_paths k x pn e :
  k ≠ "" →
  e ∈ visitProperty cfg (recursivelyGetProperties cfg) pn k x [] →
  ∃ s, e.1 = currentPath pn k +:+ s ∧ (s = "" ∨ ∃ r, s = "." +:+ r).
Proof.
  intros Hk. unfold visitProperty.
  destruct (includes (propertiesToIgnore cfg) k); [by intros ?%elem_of_nil|].
  destruct (is_object x).
  - intros Hin. apply flatten_under_path in Hin as [Hin|[r Hr]].
    + by apply elem_of_nil in Hin.
    + exists ("." +:+ r). split; [done|]. right. by exists r.
    + by apply currentPath_nonempty.
  - intros ->%list_elem_of_singleton. exists "". simpl.
    split; [by rewrite append_nil_r|by left].
Qed.

Lemma obj_paths fields pn e :
  forallb (λ kv, negb (String.eqb kv.1 "") && keysNonEmpty kv.2) fields
  = true →
  e ∈ recursivelyGetProperties cfg (JObj fields) [] pn →
  ∃ k s, k ∈ fields.*1 ∧ e.1 = currentPath pn k +:+ s ∧
         (s = "" ∨ ∃ r, s = "." +:+ r).
Proof.
  induction fields as [|[k x] rest IH]; intros Hne Hin.
  - by apply elem_of_nil in Hin.
  - simpl in Hne. apply andb_prop in Hne as [[Hk _]%andb_prop Hne].
    apply negb_true_iff, String.eqb_neq in Hk. simpl in Hk.
    rewrite flatten_cons in Hin. apply elem_of_app in Hin as [Hin|Hin].
    + apply visit_paths in Hin as (s & Hs & Hshape); [|done].
      exists k, s. split; [apply list_elem_of_here|done].
    + destruct (IH Hne Hin) as (k' & s & Hk' & Hs).
      exists k', s. split; [by apply list_elem_of_further|done].
Qed.

Lemma firstSegment_key k s :
  dotFree k = true → (s = "" ∨ ∃ r, s = "." +:+ r) →
  firstSegment (k +:+ s) = k.
Proof.
  intros Hk [->|[r ->]].
  - by rewrite append_nil_r, firstSegment_dotFree.
  - by rewrite firstSegment_app_dot, firstSegment_dotFree.
Qed.

Lemma currentPath_split pn : ∃ P, ∀ k, currentPath pn k = P +:+ k.
Proof.
  unfold currentPath. destruct pn as [p|]; [|by exists ""].
  destruct (truthy_str (Some p)); [|by exists ""].
  exists (p +:+ "."). intros k. by rewrite append_assoc.
Qed.

Lemma path_key_inj pn k k' s s' :
  dotFree k = true → dotFree k' = true →
  (s = "" ∨ ∃ r, s = "." +:+ r) → (s' = "" ∨ ∃ r, s' = "." +:+ r) →
  currentPath pn k +:+ s = currentPath pn k' +:+ s' → k = k'.
Proof.
  intros Hk Hk' Hs Hs' Heq. destruct (currentPath_split pn) as [P HP].
  rewrite !HP, !append_assoc in Heq. apply String.app_inj in Heq.
  rewrite <- (firstSegment_key k s), <- (firstSegment_key k' s') by done.
  by rewrite Heq.
Qed.

Lemma fold_unique fields :
  Forall (λ kv,
            keysDotFree kv.2 = true → keysNonEmpty kv.2 = true →
            keysDistinct kv.2 = true →
            ∀ pn, NoDup (recursivelyGetProperties cfg kv.2 [] pn).*1) fields →
  forallb (λ kv, dotFree kv.1 && keysDotFree kv.2) fields = true →
  forallb (λ kv, negb (String.eqb kv.1 "") && keysNonEmpty kv.2) fields
  = true →
  distinctKeys (map fst fields) = true →
  forallb (λ kv, keysDistinct kv.2) fields = true →
  ∀ pn, NoDup (recursivelyGetProperties cfg (JObj fields) [] pn).*1.
Proof.
  induction fields as [|[k x] rest IH];
    intros Hall Hdot Hne Hdist Hsub pn.
  - apply NoDup_nil_2.
  - apply Forall_cons in Hall as [Hx Hall]. simpl in Hx.
    simpl in Hdot, Hne, Hdist, Hsub.
    apply andb_prop in Hdot as [[Hkdot Hxdot]%andb_prop Hdot].
    pose proof Hne as Hne0.
    apply andb_prop in Hne as [[Hkne Hxne]%andb_prop Hne].
    apply andb_prop in Hdist as [Hknew Hdist].
    apply andb_prop in Hsub as [Hxdist Hsub].
    apply negb_true_iff, String.eqb_neq in Hkne. simpl in Hkne, Hkdot.
    rewrite flatten_cons, fmap_app. apply NoDup_app. split; [|split].
    + unfold visitProperty.
      destruct (includes (propertiesToIgnore cfg) k); [apply NoDup_nil_2|].
      destruct (is_object x); [by apply Hx|apply NoDup_singleton].
    + intros path Hin1 Hin2.
      apply list_elem_of_fmap in Hin1 as (e1 & -> & Hin1).
      apply list_elem_of_fmap in Hin2 as (e2 & Heq & Hin2).
      apply visit_paths in Hin1 as (s1 & Hs1 & Hshape1); [|done].
      apply obj_paths in Hin2 as (k' & s2 & Hk' & Hs2 & Hshape2); [|done].
      assert (k = k') as <-.
      { apply (path_key_inj pn k k' s1 s2); try done.
        - rewrite forallb_forall in Hdot.
          apply list_elem_of_fmap in Hk' as (kv & -> & Hkv).
          apply list_elem_of_In, Hdot in Hkv.
          by apply andb_prop in Hkv as [? _].
        - congruence. }
      apply negb_true_iff in Hknew.
      assert (includes (map fst rest) k = true) by (by apply includes_true).
      congruence.
    + by apply IH.
Qed.

Lemma flatten_unique v :
  keysDotFree v = true → keysNonEmpty v = true → keysDistinct v = true →
  ∀ pn, NoDup (recursivelyGetProperties cfg v [] pn).*1.
Proof.
  induction v as [| | | |elems IH|fields IH] using value_nested_ind;
    intros Hdot Hne Hdist pn; try apply NoDup_nil_2.
  - rewrite flatten_arr. apply fold_unique.
    + by apply (indexed_values
                  (λ v, keysDotFree v = true → keysNonEmpty v = true →
                        keysDistinct v = true →
                        ∀ pn, NoDup (recursivelyGetProperties cfg v [] pn).*1)).
    + by apply indexed_dotFree.
    + apply imap_keysNonEmpty; [apply string_of_nat_nonempty|done].
    + apply indexed_distinct.
    + by apply imap_keysDistinct.
  - simpl in Hdist. apply andb_prop in Hdist as [Hd Hsub].
    by apply fold_unique.
Qed.

Lemma dotFree_dotted p r : dotFree (p +:+ "." +:+ r) = false.
Proof.
  induction p as [|c p IH]; [done|].
  change (String c p +:+ "." +:+ r) with (String c (p +:+ "." +:+ r)).
  cbn [dotFree]. rewrite IH. apply andb_false_r.
Qed.

End UniquePaths.

(** X23: in a note in which every property name is non-empty and free of
    "." and no object has two properties of the same name, every leaf has
    a path of its own: no two flattened entries share a path. *)
Theorem flattened_paths_are_unique (cfg : Config) (record : value) :
  keysDotFree record = true → keysNonEmpty record = true →
  keysDistinct record = true →
  NoDup (recursivelyGetProperties cfg record [] None).*1.
Proof. intros. by apply flatten_unique. Qed.

Lemma flattened_paths_are_unique_witness :
  keysDotFree
    (JObj [("title", JStr "T"); ("a", JObj [("b", JNum 1); ("c", JNum 2)]);
           ("tags", JArr [JStr "x"; JStr "y"])]) = true
  ∧ keysNonEmpty
      (JObj [("title", JStr "T"); ("a", JObj [("b", JNum 1); ("c", JNum 2)]);
             ("tags", JArr [JStr "x"; JStr "y"])]) = true
  ∧ keysDistinct
      (JObj [("title", JStr "T"); ("a", JObj [("b", JNum 1); ("c", JNum 2)]);
             ("tags", JArr [JStr "x"; JStr "y"])]) = true
  ∧ NoDup
      (recursivelyGetProperties (sourceConfig "0")
         (JObj [("title", JStr "T");
                ("a", JObj [("b", JNum 1); ("c", JNum 2)]);
                ("tags", JArr [JStr "x"; JStr "y"])]) [] None).*1.
Proof.
  exact (conj eq_refl (conj eq_refl (conj eq_refl
           (flattened_paths_are_unique (sourceConfig "0")
              (JObj [("title", JStr "T");
                     ("a", JObj [("b", JNum 1); ("c", JNum 2)]);
                     ("tags", JArr [JStr "x"; JStr "y"])])
              eq_refl eq_refl eq_refl)))).
Defined.

(** X24: for such a note, when moreover no top-level property is named
    [__proto__], ordering the flattened metadata loses nothing, whatever
    [localeCompare] answers: the ordered object holds exactly the flattened
    entries, each once, so the metadata section has one line for every
    leaf of the note. *)
Theorem metadata_has_every_leaf_once (cfg : Config)
    (localeCompare : string → string → Z)
    (fields : list (string * value)) :
  keysDotFree (JObj fields) = true → keysNonEmpty (JObj fields) = true →
  keysDistinct (JObj fields) = true →
  (∀ k, k ∈ fields.*1 → k ≠ "__proto__") →
  ∃ ordered,
    orderMetadata cfg localeCompare
      (recursivelyGetProperties cfg (JObj fields) [] None)
    = inr ordered ∧
    ordered ≡ₚ recursivelyGetProperties cfg (JObj fields) [] None.
Proof.
  intros Hdot Hne Hdist Hproto.
  apply orderMetadata_perm.
  - by apply flatten_unique.
  - intros e He. split.
    + apply flatten_nonempty_paths in He as [He|He]; [|done|done].
      by apply elem_of_nil in He.
    + apply obj_paths in He as (k & s & Hk & -> & [->|[r ->]]);
        [| |by simpl in Hne].
      * simpl. rewrite append_nil_r. by apply Hproto.
      * simpl. intros Heq.
        pose proof (dotFree_dotted k r) as Hd. by rewrite Heq in Hd.
Qed.

Lemma metadata_has_every_leaf_once_witness :
  keysDotFree (JObj [("7", JStr "T"); ("a", JObj [("b", JNum 1)])]) = true
  ∧ keysNonEmpty (JObj [("7", JStr "T"); ("a", JObj [("b", JNum 1)])])
    = true
  ∧ keysDistinct (JObj [("7", JStr "T"); ("a", JObj [("b", JNum 1)])])
    = true
  ∧ (∀ k, k ∈ [("7", JStr "T"); ("a", JObj [("b", JNum 1)])].*1 →
          k ≠ "__proto__")
  ∧ ∃ ordered,
      orderMetadata (sourceConfig "0") compareAscii
        (recursivelyGetProperties (sourceConfig "0")
           (JObj [("7", JStr "T"); ("a", JObj [("b", JNum 1)])]) [] None)
      = inr ordered ∧
      ordered ≡ₚ
        recursivelyGetProperties (sourceConfig "0")
          (JObj [("7", JStr "T"); ("a", JObj [("b", JNum 1)])]) [] None.
Proof.
  assert (H : ∀ k,
    k ∈ [("7", JStr "T"); ("a", JObj [("b", JNum 1)])].*1 →
    k ≠ "__proto__").
  { intros k Hk. simpl in Hk.
    repeat (apply elem_of_cons in Hk as [-> |Hk]; [discriminate|]).
    by apply elem_of_nil in Hk. }
  exact (conj eq_refl (conj eq_refl (conj eq_refl (conj H
           (metadata_has_every_leaf_once (sourceConfig "0") compareAscii
              [("7", JStr "T"); ("a", JObj [("b", JNum 1)])]
              eq_refl eq_refl eq_refl H))))).
Defined.
